(** * Min-makespan scheduling (fairpy/items/israels_MinMakespan_algorithm.py)

    A shallow embedding of the schedule object, the greedy assigner, the
    LP feasibility oracle, the rounder and the binary-search driver,
    followed by the properties established about them.

    The Python code is duck-typed over its numbers: the doctests run it on
    integers, the main block on numpy floats.  The embedding is therefore
    written once over an interface [Arith] and instantiated twice: exact
    rationals ([Q]) and IEEE-754 binary64 ([spec_float], the operations of
    the Standard Library's [SpecFloat]). *)

From Stdlib Require Import String Ascii.
From Stdlib Require DecimalString DecimalNat FinFun.
From Stdlib Require Import List Bool Arith ZArith QArith Lia Lqa.
From Stdlib Require Import Floats.SpecFloat.
From Stdlib Require Import Sorted Permutation.
Import ListNotations.
Close Scope Q_scope.
Open Scope string_scope.
Open Scope nat_scope.

Set Implicit Arguments.

(** ** Numbers *)

Class Arith (num : Type) := {
  zero : num;
  one : num;
  add : num -> num -> num;
  sub : num -> num -> num;
  mul : num -> num -> num;
  divide : num -> num -> num;
  leb : num -> num -> bool;          (* a <= b *)
  ltb : num -> num -> bool;          (* a < b  *)
  eqb : num -> num -> bool;          (* a == b *)
  of_nat : nat -> num;               (* a Python int used as a number *)
  step_eps : num                     (* the literal 0.0001 *)
}.

(** Exact rationals: the numbers of a run on integer costs, whose sums and
    comparisons binary64 computes without rounding.  The divisions of the
    driver and its step 0.0001 are rounded in binary64 ([b64_Arith]
    below): what is said about the end of its loop is said on that
    instance. *)
#[export] Instance Q_Arith : Arith Q := {|
  zero := 0%Q;
  one := 1%Q;
  add := Qplus;
  sub := Qminus;
  mul := Qmult;
  divide := Qdiv;
  leb := Qle_bool;
  ltb := fun a b => negb (Qle_bool b a);
  eqb := Qeq_bool;
  of_nat := fun n => inject_Z (Z.of_nat n);
  step_eps := (1 # 10000)%Q
|}.

(** IEEE-754 binary64, the format of Python's float and numpy's float64. *)
Definition b64_prec : Z := 53.
Definition b64_emax : Z := 1024.
Definition b64_of_Z (z : Z) : spec_float := binary_normalize b64_prec b64_emax z 0 false.

#[export] Instance b64_Arith : Arith spec_float := {|
  zero := S754_zero false;
  one := b64_of_Z 1;
  add := SFadd b64_prec b64_emax;
  sub := SFsub b64_prec b64_emax;
  mul := SFmul b64_prec b64_emax;
  divide := SFdiv b64_prec b64_emax;
  leb := SFleb;
  ltb := SFltb;
  eqb := SFeqb;
  of_nat := fun n => b64_of_Z (Z.of_nat n);
  step_eps := SFdiv b64_prec b64_emax (b64_of_Z 1) (b64_of_Z 10000)
|}.

(** ** Exceptions and the result of a call *)

Inductive exn : Type :=
| KeyError          (* 'assignment already scedualed' *)
| ValueError        (* min()/max() of an empty sequence, bad unpacking, int() *)
| IndexError        (* an index outside an array or a string *)
| RuntimeError      (* 'G[fractional solution] should be bipartite' *)
| NetworkXError     (* removing an edge that is not in the graph *)
| EngineError.      (* anything raised inside the external LP engine *)

Inductive result (A : Type) : Type :=
| Ok (a : A)
| Raise (e : exn).
Arguments Ok {A} a.
Arguments Raise {A} e.

Definition rbind {A B} (r : result A) (k : A -> result B) : result B :=
  match r with
  | Ok a => k a
  | Raise e => Raise e
  end.

Fixpoint rmap {A B} (f : A -> result B) (xs : list A) : result (list B) :=
  match xs with
  | [] => Ok []
  | x :: r => rbind (f x) (fun y => rbind (rmap f r) (fun ys => Ok (y :: ys)))
  end.

(** ** Python builtins used by the code *)

Section Builtins.
Context {num : Type} {arith : Arith num}.

(** [sum(iterable)]: left to right, starting from 0. *)
Definition py_sum (xs : list num) : num := fold_left add xs zero.

(** [max(iterable)]: the first item is kept until a later one is [>]. *)
Fixpoint py_max_from (best : num) (xs : list num) : num :=
  match xs with
  | [] => best
  | x :: r => py_max_from (if ltb best x then x else best) r
  end.

Definition py_max (xs : list num) : result num :=
  match xs with
  | [] => Raise ValueError
  | x :: r => Ok (py_max_from x r)
  end.

(** [min(iterable, key = f)]: the first item is kept until a later one
    has a key that is [<] the kept one's. *)
Fixpoint py_min_from {A} (best : A) (kbest : num) (xs : list (A * num)) : A :=
  match xs with
  | [] => best
  | (x, k) :: r =>
      if ltb k kbest then py_min_from x k r else py_min_from best kbest r
  end.

Definition py_min_key {A} (key : A -> result num) (xs : list A) : result A :=
  match xs with
  | [] => Raise ValueError
  | _ =>
      rbind (rmap (fun x => rbind (key x) (fun k => Ok (x, k))) xs)
        (fun ks =>
           match ks with
           | [] => Raise ValueError
           | (x, k) :: r => Ok (py_min_from x k r)
           end)
  end.
End Builtins.

(** [range(n)] *)
Definition range (n : nat) : list nat := seq 0 n.

(** [itertools.product(xs, ys)] *)
Definition product {A B} (xs : list A) (ys : list B) : list (A * B) :=
  flat_map (fun x => map (fun y => (x, y)) ys) xs.

(** ** Matrices *)

Definition matrix (A : Type) := list (list A).

(** [a[i, j]] on a two-dimensional array, for non-negative indices. *)
Definition cell {A} (a : matrix A) (i j : nat) : result A :=
  match nth_error a i with
  | Some row =>
      match nth_error row j with
      | Some x => Ok x
      | None => Raise IndexError
      end
  | None => Raise IndexError
  end.

Fixpoint list_set {A} (l : list A) (i : nat) (x : A) : list A :=
  match l, i with
  | [], _ => []
  | _ :: r, O => x :: r
  | y :: r, S i' => y :: list_set r i' x
  end.

(** [a[i, j] = x], after [a[i, j]] has been read. *)
Definition set_cell {A} (a : matrix A) (i j : nat) (x : A) : matrix A :=
  match nth_error a i with
  | Some row => list_set a i (list_set row j x)
  | None => a
  end.

(** Modelled from the spec: [fairpy.ValuationMatrix] is not among the
    sources.  The spec gives its interface: a rectangular table of numbers,
    machines (agents) by jobs (objects), with a queryable shape and element
    access by (row, column).  The table is kept as its list of rows; the
    number of objects is the length of a row. *)
Record ValuationMatrix (num : Type) : Type := mkValuationMatrix {
  vm_rows : matrix num
}.

Section Valuations.
Context {num : Type} {arith : Arith num}.

Definition num_of_agents (v : ValuationMatrix num) : nat := length (vm_rows v).
Definition num_of_objects (v : ValuationMatrix num) : nat :=
  match vm_rows v with
  | [] => 0
  | row :: _ => length row
  end.
Definition agents (v : ValuationMatrix num) : list nat := range (num_of_agents v).
Definition objects (v : ValuationMatrix num) : list nat := range (num_of_objects v).

(** [v[m, j]]: the code only reads cells of agents() x objects(), which
    a rectangular table has. *)
Definition vm_at (v : ValuationMatrix num) (m j : nat) : num :=
  nth j (nth m (vm_rows v) []) zero.
End Valuations.

(** ** class scedual *)

Record Scedual (num : Type) : Type := mkScedual {
  costs : ValuationMatrix num;
  assignments : matrix bool
}.

(** A stateful, fallible computation on a schedule object: the object after
    the call (Python mutates it in place, so it is there also when the call
    raises) and the call's result. *)
Definition M (num A : Type) : Type := Scedual num -> Scedual num * result A.

Definition ret {num A} (a : A) : M num A := fun st => (st, Ok a).
Definition raise {num A} (e : exn) : M num A := fun st => (st, Raise e).
Definition bind {num A B} (c : M num A) (k : A -> M num B) : M num B :=
  fun st =>
    match c st with
    | (st', Ok a) => k a st'
    | (st', Raise e) => (st', Raise e)
    end.
Definition lift {num A} (r : result A) : M num A := fun st => (st, r).
Definition reading {num A} (f : Scedual num -> result A) : M num A :=
  fun st => (st, f st).

Notation "x <- c1 ;; c2" := (bind c1 (fun x => c2))
  (at level 61, c1 at next level, right associativity).
Notation "c1 ;;; c2" := (bind c1 (fun _ => c2))
  (at level 61, right associativity).

(** [for x in xs: body(x)] *)
Fixpoint for_each {num A} (xs : list A) (body : A -> M num unit) : M num unit :=
  match xs with
  | [] => ret tt
  | x :: r => body x ;;; for_each r body
  end.

Section ScedualClass.
Context {num : Type} {arith : Arith num}.

Definition Jobs (st : Scedual num) : nat := num_of_objects (costs st).
Definition Mechines (st : Scedual num) : nat := num_of_agents (costs st).
Definition shape (st : Scedual num) : nat * nat := (Mechines st, Jobs st).

(** [__iter__]: product(agents, objects) *)
Definition iter_cells (st : Scedual num) : list (nat * nat) :=
  product (agents (costs st)) (objects (costs st)).

(** [np.zeros(shape).astype(bool)] *)
Definition np_zeros (sh : nat * nat) : matrix bool :=
  repeat (repeat false (snd sh)) (fst sh).

Definition build (cost_matrix : ValuationMatrix num) : Scedual num :=
  let st := mkScedual cost_matrix [] in
  mkScedual cost_matrix (np_zeros (shape st)).

Definition scedual (mechine job : nat) : M num unit :=
  fun st =>
    match cell (assignments st) mechine job with
    | Raise e => (st, Raise e)
    | Ok true => (st, Raise KeyError)
    | Ok false =>
        (mkScedual (costs st) (set_cell (assignments st) mechine job true), Ok tt)
    end.

Definition clear (st : Scedual num) : Scedual num :=
  mkScedual (costs st) (np_zeros (shape st)).

(** The generator [costs[mechine, job] for job in jobs if assignments[mechine, job]] *)
Fixpoint assigned_costs (st : Scedual num) (mechine : nat) (jobs : list nat)
  : result (list num) :=
  match jobs with
  | [] => Ok []
  | job :: r =>
      rbind (cell (assignments st) mechine job) (fun b =>
      rbind (assigned_costs st mechine r) (fun cs =>
      Ok (if b then vm_at (costs st) mechine job :: cs else cs)))
  end.

Definition loadOf (st : Scedual num) (mechine : nat) : result num :=
  rbind (assigned_costs st mechine (objects (costs st))) (fun cs => Ok (py_sum cs)).
End ScedualClass.

(** class scedual_assignment *)
Module scedual_assignment.
Section Extract.
Context {num : Type} {arith : Arith num}.
(** The set of assigned pairs, listed in iteration order. *)
Definition extract_result (st : Scedual num) : result (list (nat * nat)) :=
  rbind (rmap (fun mj => rbind (cell (assignments st) (fst mj) (snd mj))
                               (fun b => Ok (mj, b)))
              (iter_cells st))
        (fun l => Ok (map fst (filter snd l))).
End Extract.
End scedual_assignment.

(** class scedual_makespan *)
Module scedual_makespan.
Section Extract.
Context {num : Type} {arith : Arith num}.
Definition extract_result (st : Scedual num) : result num :=
  rbind (rmap (fun mechine =>
                 rbind (assigned_costs st mechine (range (Jobs st)))
                       (fun cs => Ok (py_sum cs)))
              (range (Mechines st)))
        py_max.
End Extract.
End scedual_makespan.

(** ** greedy *)

Section Greedy.
Context {num : Type} {arith : Arith num}.

Definition greedy_key (st : Scedual num) (job mechine : nat) : result num :=
  rbind (loadOf st mechine) (fun l => Ok (add (vm_at (costs st) mechine job) l)).

Definition greedy_job (job : nat) : M num unit :=
  mechine <- reading (fun st => py_min_key (greedy_key st job) (range (Mechines st))) ;;
  scedual mechine job.

Definition greedy : M num unit :=
  fun st => for_each (range (Jobs st)) greedy_job st.
End Greedy.

(** ** The linear program handed to the solver *)

(** A variable [variables[m, j]] with its coefficient. *)
Definition term (num : Type) : Type := (num * (nat * nat))%type.

Inductive Expr (num : Type) : Type :=
| Sum (terms : list (term num))              (* cp.sum of a selection *)
| Maximum (rows : list (list (term num))).   (* cp.maximum of sums    *)

Inductive Constraint (num : Type) : Type :=
| VariablesGe0                               (* variables >= 0 *)
| ActivesGeVariables                         (* actives >= variables *)
| SumActivesLe (n : nat)                     (* cp.sum(actives) <= n *)
| CEq (e : Expr num) (rhs : num)             (* e == rhs *)
| CLe (e : Expr num) (rhs : num).            (* e <= rhs *)
Arguments VariablesGe0 {num}.
Arguments ActivesGeVariables {num}.
Arguments SumActivesLe {num} n.

Record Problem (num : Type) : Type := mkProblem {
  minimize : Expr num;
  constraints : list (Constraint num)
}.

(** ** networkx graphs *)

Record Graph : Type := mkGraph {
  nodes : list string;
  edges : list (string * string)
}.

Definition same_edge (e1 e2 : string * string) : bool :=
  (String.eqb (fst e1) (fst e2) && String.eqb (snd e1) (snd e2))
  || (String.eqb (fst e1) (snd e2) && String.eqb (snd e1) (fst e2)).

Definition has_edge (G : Graph) (e : string * string) : bool :=
  existsb (same_edge e) (edges G).

Definition in_nodes (ns : list string) (n : string) : bool :=
  existsb (String.eqb n) ns.

Definition add_nodes_from (G : Graph) (ns : list string) : Graph :=
  fold_left (fun g n => if in_nodes (nodes g) n then g
                        else mkGraph (nodes g ++ [n]) (edges g)) ns G.

Definition add_edges_from (G : Graph) (es : list (string * string)) : Graph :=
  fold_left (fun g e =>
               let g1 := add_nodes_from g [fst e; snd e] in
               if has_edge g1 e then g1 else mkGraph (nodes g1) (edges g1 ++ [e]))
            es G.

Definition remove_edge (G : Graph) (u v : string) : result Graph :=
  if has_edge G (u, v)
  then Ok (mkGraph (nodes G) (filter (fun e => negb (same_edge (u, v) e)) (edges G)))
  else Raise NetworkXError.

Definition subgraph (G : Graph) (component : list string) : Graph :=
  mkGraph (filter (in_nodes component) (nodes G))
          (filter (fun e => in_nodes component (fst e) && in_nodes component (snd e))
                  (edges G)).

(** ** The external engines

    The LP solver (cvxpy) and the graph algorithms (networkx) are not part
    of the repository; the code is verified for every behaviour of theirs.
    - [solve p] is [prob.solve()] followed by the reads of [prob.status]
      and [variables.value]: [Ok (Some x)] when the status is 'optimal',
      [Ok None] for any other status, [Raise e] when building or solving the
      problem raises.
    - [maximum_matching G] lists the items that the loop
      [for mechine, job in maximum_matching(G)] receives, each as the
      sequence of strings that the unpacking [mechine, job = item] sees. *)
Class Engines (num : Type) := {
  solve : Problem num -> result (option (matrix num));
  is_bipartite : Graph -> bool;
  connected_components : Graph -> list (list string);
  maximum_matching : Graph -> list (list string)
}.

(** ** Round *)

(** [str(i)] for a non-negative int *)
Definition str (i : nat) : string := DecimalString.NilZero.string_of_uint (Nat.to_uint i).

Definition digit_of_ascii (c : ascii) : option nat :=
  let n := nat_of_ascii c in
  if (48 <=? n) && (n <=? 57) then Some (n - 48) else None.

Definition node_to_int (name : string) : result nat :=
  match String.get 1 name with
  | None => Raise IndexError
  | Some c =>
      match digit_of_ascii c with
      | Some d => Ok d
      | None => Raise ValueError
      end
  end.

Definition int_to_node (ind : nat) (job : bool) : string :=
  if job then String.append "J" (str ind) else String.append "M" (str ind).

Section Rounding.
Context {num : Type} {arith : Arith num} {engines : Engines num}.

(** The edges given to [G.add_edges_from]: the pairs with a positive
    fractional value.  Reading [fractional_sol[mechine, job]] can fail. *)
Fixpoint positive_edges (fractional_sol : matrix num) (cells : list (nat * nat))
  : result (list (string * string)) :=
  match cells with
  | [] => Ok []
  | (mechine, job) :: r =>
      rbind (cell fractional_sol mechine job) (fun x =>
      rbind (positive_edges fractional_sol r) (fun es =>
      Ok (if ltb zero x
          then (String.append "M" (str mechine), String.append "J" (str job)) :: es
          else es)))
  end.

Definition build_graph (st : Scedual num) (fractional_sol : matrix num) : result Graph :=
  let mechine_nodes := map (fun i => String.append "M" (str i)) (range (Mechines st)) in
  let job_nodes := map (fun i => String.append "J" (str i)) (range (Jobs st)) in
  let G := add_nodes_from (add_nodes_from (mkGraph [] []) mechine_nodes) job_nodes in
  rbind (positive_edges fractional_sol (iter_cells st)) (fun es =>
  Ok (add_edges_from G es)).

(** adopting integral assignments *)
Fixpoint adopt_integral (fractional_sol : matrix num) (cells : list (nat * nat))
         (G : Graph) : M num Graph :=
  match cells with
  | [] => ret G
  | (mechine, job) :: r =>
      x <- lift (cell fractional_sol mechine job) ;;
      if eqb x one
      then scedual mechine job ;;;
           G' <- lift (remove_edge G (int_to_node mechine false) (int_to_node job true)) ;;
           adopt_integral fractional_sol r G'
      else adopt_integral fractional_sol r G
  end.

(** [for mechine, job in matching: output.scedual(node_to_int(mechine), node_to_int(job))] *)
Definition scedual_item (item : list string) : M num unit :=
  match item with
  | [mechine; job] =>
      m <- lift (node_to_int mechine) ;;
      j <- lift (node_to_int job) ;;
      scedual m j
  | _ => raise ValueError
  end.

(** assigning the rest via max match *)
Definition match_component (G : Graph) (component : list string) : M num unit :=
  if length component <? 2 then ret tt
  else for_each (maximum_matching (subgraph G component)) scedual_item.

Definition Round (fractional_sol : matrix num) : M num unit :=
  G0 <- reading (fun st => build_graph st fractional_sol) ;;
  G <- (fun st => adopt_integral fractional_sol (iter_cells st) G0 st) ;;
  if negb (is_bipartite G) then raise RuntimeError
  else for_each (connected_components G) (match_component G).
End Rounding.

(** ** LinearProgram *)

Section Oracle.
Context {num : Type} {arith : Arith num} {engines : Engines num}.

(** [cp.sum(variables[...][mask])]: the selected variables, each with
    coefficient one. *)
Definition sum_of (cells : list (nat * nat)) : Expr num :=
  Sum (map (fun c => (one, c)) cells).

(** mask = output.costs[:, job] <= apprx_bound *)
Definition job_mask (st : Scedual num) (apprx_bound : num) (job : nat) : list nat :=
  filter (fun mechine => leb (vm_at (costs st) mechine job) apprx_bound)
         (range (Mechines st)).

(** mask = output.costs[mechine, :] <= apprx_bound *)
Definition mechine_mask (st : Scedual num) (apprx_bound : num) (mechine : nat) : list nat :=
  filter (fun job => leb (vm_at (costs st) mechine job) apprx_bound)
         (range (Jobs st)).

(** First loop: one equality per job, or [None] at the first job that no
    machine can do within the bound ([return False]). *)
Fixpoint job_constraints (st : Scedual num) (apprx_bound : num) (jobs : list nat)
  : option (list (Constraint num)) :=
  match jobs with
  | [] => Some []
  | job :: r =>
      match job_mask st apprx_bound job with
      | [] => None
      | mask =>
          match job_constraints st apprx_bound r with
          | Some cs => Some (CEq (sum_of (map (fun m => (m, job)) mask)) one :: cs)
          | None => None
          end
      end
  end.

(** Second loop: one inequality per machine that has an eligible job. *)
Definition mechine_constraints (st : Scedual num) (apprx_bound : num)
  : list (Constraint num) :=
  flat_map (fun mechine =>
              match mechine_mask st apprx_bound mechine with
              | [] => []
              | mask => [CLe (sum_of (map (fun j => (mechine, j)) mask)) apprx_bound]
              end)
           (range (Mechines st)).

(** [cp.maximum] of the sums [cp.sum(variables[mechine, :])], one per
    machine.  cvxpy's [maximum] takes two expressions or more: with fewer machines
    the call raises before [prob.solve()], which is one of the [Raise]
    answers of [solve]. *)
Definition makespan_expr (st : Scedual num) : Expr num :=
  Maximum (map (fun mechine =>
                  map (fun j => (one, (mechine, j))) (range (Jobs st)))
               (range (Mechines st))).

Definition build_problem (st : Scedual num) (apprx_bound : num) : option (Problem num) :=
  match job_constraints st apprx_bound (range (Jobs st)) with
  | None => None
  | Some jcs =>
      Some (mkProblem (makespan_expr st)
              ([VariablesGe0; ActivesGeVariables; SumActivesLe (Jobs st + Mechines st)%nat]
               ++ jcs
               ++ mechine_constraints st apprx_bound
               ++ [CLe (makespan_expr st) apprx_bound]))
  end.

Definition LinearProgram (apprx_bound : num) : M num bool :=
  fun st =>
    match build_problem st apprx_bound with
    | None => (st, Ok false)
    | Some prob =>
        match solve prob with
        | Raise e => (st, Raise e)
        | Ok None => (st, Ok false)
        | Ok (Some value) =>
            (Round value ;;; ret true) (clear st)
        end
    end.
End Oracle.

(** ** apprx *)

Section Driver.
Context {num : Type} {arith : Arith num} {engines : Engines num}.

(** The body of the while loop; it yields the values of [feasable],
    [lower] and [upper] at its end. *)
Definition apprx_iteration (lower upper : num) : M num (bool * (num * num)) :=
  let middle := divide (add upper lower) (of_nat 2) in
  feasable <- LinearProgram upper ;;
  if negb feasable then ret (feasable, (add middle step_eps, upper))
  else ret (feasable, (lower, sub middle step_eps)).

(** [while lower <= upper: ...], run for at most [fuel] iterations;
    [None] when the loop is still running after them. *)
Fixpoint apprx_loop (fuel : nat) (lower upper : num) (st : Scedual num)
  : option (Scedual num * result unit) :=
  if leb lower upper then
    match fuel with
    | O => None
    | S fuel' =>
        match apprx_iteration lower upper st with
        | (st', Ok (_, (lower', upper'))) => apprx_loop fuel' lower' upper' st'
        | (st', Raise e) => Some (st', Raise e)
        end
    end
  else Some (st, Ok tt).

(** The values that [feasable] takes, iteration after iteration. *)
Fixpoint apprx_reports (fuel : nat) (lower upper : num) (st : Scedual num) : list bool :=
  if leb lower upper then
    match fuel with
    | O => []
    | S fuel' =>
        match apprx_iteration lower upper st with
        | (st', Ok (feasable, (lower', upper'))) =>
            feasable :: apprx_reports fuel' lower' upper' st'
        | (_, Raise _) => []
        end
    end
  else [].

(** bounds on solution via a greedy solution *)
Definition greedy_bounds (st : Scedual num) : result (num * num) :=
  let greedy_sol := build (costs st) in
  match greedy greedy_sol with
  | (_, Raise e) => Raise e
  | (greedy_sol', Ok _) =>
      rbind (scedual_makespan.extract_result greedy_sol') (fun upper =>
      Ok (divide upper (of_nat (Mechines st)), upper))
  end.

Definition apprx (fuel : nat) (st : Scedual num) : option (Scedual num * result unit) :=
  match greedy_bounds st with
  | Raise e => Some (st, Raise e)
  | Ok (lower, upper) => apprx_loop fuel lower upper st
  end.

Definition reports (fuel : nat) (st : Scedual num) : list bool :=
  match greedy_bounds st with
  | Raise _ => []
  | Ok (lower, upper) => apprx_reports fuel lower upper st
  end.

(** The iteration in the words of the specification: clear the schedule,
    then consult the oracle at the midpoint of the range. *)
Definition spec_iteration (lower upper : num) : M num (bool * (num * num)) :=
  let mid := divide (add lower upper) (of_nat 2) in
  fun st =>
    (feasable <- LinearProgram mid ;;
     if negb feasable then ret (feasable, (add mid step_eps, upper))
     else ret (feasable, (lower, sub mid step_eps))) (clear st).
End Driver.

(** ** MinMakespan *)

Section Generic.
Context {num : Type} {arith : Arith num}.

(** [algo] may not return (the driver's loop); [extract] is the
    [extract_result] of the output object's class. *)
Definition MinMakespan {R} (algo : Scedual num -> option (Scedual num * result unit))
           (input : ValuationMatrix num) (extract : Scedual num -> result R)
  : option (Scedual num * result R) :=
  match algo (build input) with
  | None => None
  | Some (st, Raise e) => Some (st, Raise e)
  | Some (st, Ok _) => Some (st, extract st)
  end.

Definition greedy_algo (st : Scedual num) : option (Scedual num * result unit) :=
  Some (greedy st).
End Generic.

(** ** What a problem asks of a candidate solution

    The meaning of the constraints, used to compare the program that the
    oracle builds with the one the paper describes and to check that a
    solver answer is one the built program admits. *)

Section ProblemSemantics.
Context {num : Type} {arith : Arith num}.

Definition value_at (x : matrix num) (c : nat * nat) : num :=
  match cell x (fst c) (snd c) with
  | Ok v => v
  | Raise _ => zero
  end.

Definition eval_terms (x : matrix num) (ts : list (term num)) : num :=
  py_sum (map (fun t => mul (fst t) (value_at x (snd t))) ts).

Definition eval_expr (x : matrix num) (e : Expr num) : num :=
  match e with
  | Sum ts => eval_terms x ts
  | Maximum rows =>
      match py_max (map (eval_terms x) rows) with
      | Ok v => v
      | Raise _ => zero
      end
  end.

Definition indicator (b : bool) : num := if b then one else zero.

Fixpoint all2 {A B} (p : A -> B -> bool) (xs : list A) (ys : list B) : bool :=
  match xs, ys with
  | [], [] => true
  | x :: xr, y :: yr => p x y && all2 p xr yr
  | _, _ => false
  end.

(** [x] are the values of [variables], [a] those of the boolean [actives]. *)
Definition satisfies (x : matrix num) (a : matrix bool) (c : Constraint num) : bool :=
  match c with
  | VariablesGe0 => forallb (forallb (leb zero)) x
  | ActivesGeVariables =>
      all2 (all2 (fun v b => leb v (indicator b))) x a
  | SumActivesLe n =>
      length (filter (fun b => b) (concat a)) <=? n
  | CEq e rhs => eqb (eval_expr x e) rhs
  | CLe e rhs => leb (eval_expr x e) rhs
  end.

Definition feasible (p : Problem num) (x : matrix num) (a : matrix bool) : bool :=
  forallb (satisfies x a) (constraints p).

(** The load constraint of the paper's program for one machine: the
    processing costs weigh the variables. *)
Definition paper_load_constraint (st : Scedual num) (apprx_bound : num) (mechine : nat)
  : Constraint num :=
  CLe (Sum (map (fun j => (vm_at (costs st) mechine j, (mechine, j)))
                (filter (fun job => leb (vm_at (costs st) mechine job) apprx_bound)
                        (range (Jobs st)))))
      apprx_bound.
End ProblemSemantics.

(** ** Notions used to state the properties *)

Section Notions.
Context {num : Type} {arith : Arith num}.

(** The assignment matrix has the shape of the cost matrix, as [build]
    and [clear] make it. *)
Definition well_shaped (st : Scedual num) : Prop :=
  length (assignments st) = Mechines st /\
  Forall (fun row => length row = Jobs st) (assignments st).

(** The cell (mechine, job) is set. *)
Definition assigned (st : Scedual num) (mechine job : nat) : bool :=
  match cell (assignments st) mechine job with
  | Ok b => b
  | Raise _ => false
  end.

(** Number of true entries in the column of a job. *)
Definition column_count (st : Scedual num) (job : nat) : nat :=
  length (filter (fun mechine => assigned st mechine job) (range (Mechines st))).

(** The load of a machine: the sum of the costs of its assigned jobs. *)
Definition load (st : Scedual num) (mechine : nat) : num :=
  py_sum (map (vm_at (costs st) mechine)
              (filter (assigned st mechine) (range (Jobs st)))).

(** The schedule object after the assignment of (mechine, job). *)
Definition assign (st : Scedual num) (mechine job : nat) : Scedual num :=
  mkScedual (costs st) (set_cell (assignments st) mechine job true).

(** cost(machine, job) + current_load(machine) *)
Definition completion (st : Scedual num) (job mechine : nat) : num :=
  add (vm_at (costs st) mechine job) (load st mechine).

(** The machine that [min] returns in [greedy] when there is one. *)
Definition greedy_choice (st : Scedual num) (job : nat) : nat :=
  py_min_from 0 (completion st job 0)
    (map (fun m => (m, completion st job m)) (seq 1 (Mechines st - 1))).

(** What holds of the schedule when the jobs before [k] have been
    processed: each of their columns has one entry, the others none. *)
Definition greedy_progress (c : ValuationMatrix num) (k : nat) (st : Scedual num) : Prop :=
  costs st = c /\ well_shaped st /\
  (forall j, j < k -> column_count st j = 1) /\
  (forall m j, k <= j -> assigned st m j = false).

(** [lower] after an iteration in which the oracle reports failure. *)
Definition next_lower (upper lower : num) : num :=
  add (divide (add upper lower) (of_nat 2)) step_eps.
End Notions.

(** The greedy rule in the words of the specification, over exact
    numbers: the chosen machine minimises cost(machine, job) +
    current_load(machine), and no machine of lower index does as well. *)
Definition lowest_argmin (st : Scedual Q) (job mechine : nat) : Prop :=
  mechine < Mechines st /\
  (forall m', m' < Mechines st ->
              (completion st job mechine <= completion st job m')%Q) /\
  (forall m', m' < mechine ->
              (completion st job mechine < completion st job m')%Q).

(** Jobs taken in the order of the list, each given to the machine of the
    greedy rule. *)
Inductive greedy_spec : Scedual Q -> list nat -> Scedual Q -> Prop :=
| greedy_spec_done st : greedy_spec st [] st
| greedy_spec_job st job mechine rest st' :
    lowest_argmin st job mechine ->
    greedy_spec (assign st mechine job) rest st' ->
    greedy_spec st (job :: rest) st'.

(** ** Engines used in the concrete runs *)

(** The graph answers of networkx on a graph without edges, the only
    graphs that the rounder is left with in these runs: every node is a
    component of its own, and there is nothing to match. *)
Definition singletons (G : Graph) : list (list string) := map (fun n => [n]) (nodes G).

(** A solver that never reaches the status 'optimal'. *)
Definition never_optimal (num : Type) : Engines num := {|
  solve := fun _ => Ok None;
  is_bipartite := fun _ => true;
  connected_components := singletons;
  maximum_matching := fun _ => []
|}.

(** A solver that answers with the given values. *)
Definition constant_solver {num} (value : matrix num) : Engines num := {|
  solve := fun _ => Ok (Some value);
  is_bipartite := fun _ => true;
  connected_components := singletons;
  maximum_matching := fun _ => []
|}.

(** The same with a bipartiteness test that fails. *)
Definition rejecting_engine {num} (value : matrix num) : Engines num := {|
  solve := fun _ => Ok (Some value);
  is_bipartite := fun _ => false;
  connected_components := singletons;
  maximum_matching := fun _ => []
|}.

(** ** Costs, schedules and solver answers of the concrete runs *)

Definition Qcosts (rows : list (list Z)) : ValuationMatrix Q :=
  mkValuationMatrix (map (map inject_Z) rows).

Definition b64costs (rows : list (list Z)) : ValuationMatrix spec_float :=
  mkValuationMatrix (map (map b64_of_Z) rows).

(** The first doctest of [greedy]. *)
Definition Qdoctest : ValuationMatrix Q := Qcosts [[1; 2; 5]; [2; 2; 1]; [2; 3; 5]]%Z.

(** The doctest object of [scedual_makespan]: costs [[1,1],[1,1]] with
    (0,0) and (1,1) assigned. *)
Definition doctest_scedual : Scedual Q :=
  mkScedual (Qcosts [[1; 1]; [1; 1]]%Z) [[true; false]; [false; true]].

(** Two machines and one job that only machine 0 can do within bound 1;
    the program that the oracle builds at that bound; two answers. *)
Definition Q15 : ValuationMatrix Q := Qcosts [[1]; [5]]%Z.
Definition Q15_problem : Problem Q :=
  mkProblem (Maximum [[(1%Q, (0, 0))]; [(1%Q, (1, 0))]])
    [VariablesGe0; ActivesGeVariables; SumActivesLe 3;
     CEq (Sum [(1%Q, (0, 0))]) 1%Q; CLe (Sum [(1%Q, (0, 0))]) 1%Q;
     CLe (Maximum [[(1%Q, (0, 0))]; [(1%Q, (1, 0))]]) 1%Q].
Definition Qones : matrix Q := map (map inject_Z) [[1]; [1]]%Z.
Definition Qfirst_only : matrix Q := map (map inject_Z) [[1]; [0]]%Z.
Definition Qfrac_one_half : matrix Q := [[1%Q]; [(1 # 2)%Q]].

(** Two machines and two jobs, each job cheap on its own machine; the
    program that the oracle builds for these costs at bound 1; the
    assignment of each job to its own machine. *)
Definition Q1551 : ValuationMatrix Q := Qcosts [[1; 5]; [5; 1]]%Z.
Definition Q1551_problem : Problem Q :=
  mkProblem (Maximum [[(1%Q, (0, 0)); (1%Q, (0, 1))]; [(1%Q, (1, 0)); (1%Q, (1, 1))]])
    [VariablesGe0; ActivesGeVariables; SumActivesLe 4;
     CEq (Sum [(1%Q, (0, 0))]) 1%Q; CEq (Sum [(1%Q, (1, 1))]) 1%Q;
     CLe (Sum [(1%Q, (0, 0))]) 1%Q; CLe (Sum [(1%Q, (1, 1))]) 1%Q;
     CLe (Maximum [[(1%Q, (0, 0)); (1%Q, (0, 1))]; [(1%Q, (1, 0)); (1%Q, (1, 1))]]) 1%Q].
Definition Qidentity : matrix Q := map (map inject_Z) [[1; 0]; [0; 1]]%Z.

(** The same costs scaled by the float 1e20, and the same assignment; the
    bounds of the search on them: the floats 1e20 and 5e19 at the start,
    7.5e19 for [upper] after the first iteration. *)
Definition b64_huge : ValuationMatrix spec_float :=
  b64costs [[100000000000000000000; 500000000000000000000];
            [500000000000000000000; 100000000000000000000]]%Z.
Definition b64_identity : matrix spec_float := map (map b64_of_Z) [[1; 0]; [0; 1]]%Z.
Definition b64_upper : spec_float := b64_of_Z 100000000000000000000.
Definition b64_lower : spec_float := b64_of_Z 50000000000000000000.
Definition b64_upper_next : spec_float := b64_of_Z 75000000000000000000.

(** Two machines, two jobs, every cost 2; a candidate that puts both jobs
    on machine 0. *)
Definition Q2222 : ValuationMatrix Q := Qcosts [[2; 2]; [2; 2]]%Z.
Definition Qboth_on_first : matrix Q := map (map inject_Z) [[1; 1]; [0; 0]]%Z.

(** ** Notions for the further properties *)

(** Every processing cost of the table is at least 0. *)
Definition nonneg_costs (c : ValuationMatrix Q) : Prop :=
  forall m j, (0 <= vm_at c m j)%Q.

(** [st'] has the costs and every set cell of [st], and its shape if [st]
    has the right one. *)
Definition extends {num : Type} {arith : Arith num} (st st' : Scedual num) : Prop :=
  costs st' = costs st /\
  (well_shaped st -> well_shaped st') /\
  forall m j, assigned st m j = true -> assigned st' m j = true.

(** The total cost of giving each job [j] to the machine [pick j]. *)
Definition total_cost (c : ValuationMatrix Q) (pick : nat -> nat) (jobs : nat) : Q :=
  py_sum (map (fun j => vm_at c (pick j) j) (range jobs)).

(** * fairpy.courses.instance

    The instance of the course-allocation problem.  Keys (names of agents
    and items) are ints or strings; values and capacities are Python ints,
    for which [sum] is exact.  The containers are those of the supported
    types [None], [dict], [list], number and callable; the branch that
    raises [TypeError] for any other type is outside this model, and so
    are numpy arrays. *)
Module Courses.

Inductive pyexn : Type :=
| KeyError
| IndexError
| TypeError
| StopIteration
| AssertionError.

Inductive res (A : Type) : Type :=
| Val (a : A)
| Err (e : pyexn).
Arguments Val {A} a.
Arguments Err {A} e.

Definition res_bind {A B} (r : res A) (k : A -> res B) : res B :=
  match r with
  | Val a => k a
  | Err e => Err e
  end.

(** A list comprehension [[f(x) for x in xs]] *)
Fixpoint comprehension {A B} (f : A -> res B) (xs : list A) : res (list B) :=
  match xs with
  | [] => Val []
  | x :: r =>
      res_bind (f x) (fun y =>
      res_bind (comprehension f r) (fun ys => Val (y :: ys)))
  end.

Inductive key : Type :=
| KInt (i : Z)
| KStr (s : string).

Definition key_eqb (a b : key) : bool :=
  match a, b with
  | KInt i, KInt j => Z.eqb i j
  | KStr s, KStr t => String.eqb s t
  | _, _ => false
  end.

(** [dict.__getitem__]; a dict is the list of its items, in order. *)
Fixpoint dict_getitem {V} (d : list (key * V)) (k : key) : res V :=
  match d with
  | [] => Err KeyError
  | (k', v) :: r => if key_eqb k k' then Val v else dict_getitem r k
  end.

(** [list.__getitem__]: an int index counts from the end when negative. *)
Definition list_getitem {V} (l : list V) (k : key) : res V :=
  match k with
  | KStr _ => Err TypeError
  | KInt i =>
      let n := Z.of_nat (length l) in
      let i' := if (i <? 0)%Z then (i + n)%Z else i in
      if (i' <? 0)%Z then Err IndexError
      else match nth_error l (Z.to_nat i') with
           | Some v => Val v
           | None => Err IndexError
           end
  end.

(** [sum] of ints *)
Definition sum (xs : list Z) : Z := fold_left Z.add xs 0%Z.

(** [sorted(xs, reverse=True)] on ints *)
Fixpoint insert_reverse (x : Z) (l : list Z) : list Z :=
  match l with
  | [] => [x]
  | y :: r => if (y <? x)%Z then x :: l else y :: insert_reverse x r
  end.

Definition sorted_reverse (xs : list Z) : list Z := fold_right insert_reverse [] xs.

(** The slice [xs[0:stop]] *)
Definition slice_to {A} (xs : list A) (stop : Z) : list A :=
  let n := Z.of_nat (length xs) in
  let stop' := if (stop <? 0)%Z then Z.max 0 (stop + n) else stop in
  firstn (Z.to_nat stop') xs.

(** One-dimensional containers, as [get_keys_and_mapping] tells them apart. *)
Inductive Container : Type :=
| CNone
| CDict (d : list (key * Z))
| CList (l : list Z)
| CNumber (n : Z)
| CCallable (f : key -> res Z).

Definition constant_function {A} (constant_value : Z) : A -> res Z :=
  fun _ => Val constant_value.

Definition int_keys (n : nat) : list key := map (fun i => KInt (Z.of_nat i)) (range n).

Definition get_keys_and_mapping (container : Container)
  : option (list key) * option (key -> res Z) :=
  match container with
  | CNone => (None, None)
  | CDict d => (Some (map fst d), Some (dict_getitem d))
  | CList l => (Some (int_keys (length l)), Some (list_getitem l))
  | CNumber n => (None, Some (constant_function n))
  | CCallable f => (None, Some f)
  end.

(** Two-dimensional containers; the rows are one-dimensional ones. *)
Inductive Container2 : Type :=
| C2None
| C2Dict (d : list (key * Container))
| C2List (l : list Container)
| C2Callable (f : key -> key -> res Z).

(** [row[item]] *)
Definition subscript (row : Container) (item : key) : res Z :=
  match row with
  | CDict d => dict_getitem d item
  | CList l => list_getitem l item
  | CNone | CNumber _ | CCallable _ => Err TypeError
  end.

Definition get_keys_and_mapping_2d (container : Container2)
  : res (option (list key) * option (list key) * option (key -> key -> res Z)) :=
  match container with
  | C2None => Val (None, None, None)
  | C2Dict d =>
      let f := fun agent item => res_bind (dict_getitem d agent) (fun row => subscript row item) in
      match d with
      | [] => Err StopIteration
      | (_, row) :: _ => Val (Some (map fst d), fst (get_keys_and_mapping row), Some f)
      end
  | C2List l =>
      let f := fun agent item => res_bind (list_getitem l agent) (fun row => subscript row item) in
      match l with
      | [] => Err IndexError
      | row :: _ => Val (Some (int_keys (length l)), fst (get_keys_and_mapping row), Some f)
      end
  | C2Callable f => Val (None, None, Some f)
  end.

(** [a or b] on values that are [None] or a sequence of keys *)
Definition keys_or (a b : option (list key)) : option (list key) :=
  match a with
  | Some (_ :: _) => a
  | _ => b
  end.

(** [f or g] on values that are [None] or a function *)
Definition func_or {A} (f : option A) (g : A) : A :=
  match f with
  | Some f' => f'
  | None => g
  end.

Record Instance : Type := mkInstance {
  agents : list key;
  num_of_agents : nat;
  items : list key;
  num_of_items : nat;
  agent_capacity : key -> res Z;
  agent_priority : key -> res Z;
  agent_entitlement : key -> res Z;
  item_capacity : key -> res Z;
  agent_item_value : option (key -> key -> res Z)
}.

(** [Instance.__init__] *)
Definition init (valuations : Container2)
           (agent_capacities agent_priorities agent_entitlements item_capacities : Container)
           (agents_arg items_arg : option (list key)) : res Instance :=
  res_bind (get_keys_and_mapping_2d valuations) (fun '(agent_value_keys, item_value_keys, agent_item_value_func) =>
  let '(agent_capacity_keys, agent_capacity_func) := get_keys_and_mapping agent_capacities in
  let '(agent_priority_keys, agent_priority_func) := get_keys_and_mapping agent_priorities in
  let '(agent_entitlement_keys, agent_entitlement_func) := get_keys_and_mapping agent_entitlements in
  let '(item_capacity_keys, item_capacity_func) := get_keys_and_mapping item_capacities in
  match keys_or agents_arg (keys_or agent_capacity_keys (keys_or agent_priority_keys agent_value_keys)) with
  | None => Err AssertionError
  | Some self_agents =>
      match keys_or items_arg (keys_or item_capacity_keys item_value_keys) with
      | None => Err AssertionError
      | Some self_items =>
          Val (mkInstance self_agents (length self_agents) self_items (length self_items)
                 (func_or agent_capacity_func
                          (constant_function (Z.of_nat (length self_items))))
                 (func_or agent_priority_func (constant_function 1%Z))
                 (func_or agent_entitlement_func (constant_function 1%Z))
                 (func_or item_capacity_func (constant_function 1%Z))
                 agent_item_value_func)
      end
  end).

(** [self.agent_item_value(agent, item)]; calling [None] raises [TypeError]. *)
Definition call_value (self : Instance) (agent item : key) : res Z :=
  match agent_item_value self with
  | Some f => f agent item
  | None => Err TypeError
  end.

Definition agent_bundle_value (self : Instance) (agent : key) (bundle : list key) : res Z :=
  res_bind (comprehension (call_value self agent) bundle) (fun values => Val (sum values)).

Definition agent_maximum_value (self : Instance) (agent : key) : res Z :=
  res_bind (comprehension (call_value self agent) (items self)) (fun values =>
  res_bind (agent_capacity self agent) (fun capacity =>
  Val (sum (slice_to (sorted_reverse values) capacity)))).

(** The instances of the doctests *)
Definition dict_of_dicts : res Instance :=
  init (C2Dict [(KStr "Alice", CDict [(KStr "c1", 11%Z); (KStr "c2", 22%Z)]);
                (KStr "Bob", CDict [(KStr "c1", 33%Z); (KStr "c2", 44%Z)])])
       (CDict [(KStr "Alice", 2%Z); (KStr "Bob", 3%Z)]) CNone CNone
       (CDict [(KStr "c1", 4%Z); (KStr "c2", 5%Z)]) None None.

Definition dict_of_lists : res Instance :=
  init (C2Dict [(KStr "Alice", CList [22; 33; 44; 55]%Z);
                (KStr "Bob", CList [66; 77; 88; 99]%Z)])
       (CDict [(KStr "Alice", 2%Z); (KStr "Bob", 3%Z)]) CNone CNone
       (CList [1; 2; 3; 4]%Z) None None.

Definition avi_beni_valuations : list (key * Container) :=
  [(KStr "avi", CDict [(KStr "x", 5%Z); (KStr "y", 4%Z)]);
   (KStr "beni", CDict [(KStr "x", 2%Z); (KStr "y", 3%Z)])].

Definition default_capacities : res Instance :=
  init (C2Dict avi_beni_valuations) CNone CNone CNone CNone None None.

(** The first of them, as [init] leaves it *)
Definition alice_bob : Instance :=
  let valuations := [(KStr "Alice", CDict [(KStr "c1", 11%Z); (KStr "c2", 22%Z)]);
                     (KStr "Bob", CDict [(KStr "c1", 33%Z); (KStr "c2", 44%Z)])] in
  mkInstance [KStr "Alice"; KStr "Bob"] 2 [KStr "c1"; KStr "c2"] 2
    (dict_getitem [(KStr "Alice", 2%Z); (KStr "Bob", 3%Z)])
    (constant_function 1%Z) (constant_function 1%Z)
    (dict_getitem [(KStr "c1", 4%Z); (KStr "c2", 5%Z)])
    (Some (fun agent item =>
             res_bind (dict_getitem valuations agent) (fun row => subscript row item))).

(** The instance with default capacities, as [init] leaves it *)
Definition avi_beni : Instance :=
  mkInstance [KStr "avi"; KStr "beni"] 2 [KStr "x"; KStr "y"] 2
    (constant_function 2%Z) (constant_function 1%Z) (constant_function 1%Z)
    (constant_function 1%Z)
    (Some (fun agent item =>
             res_bind (dict_getitem avi_beni_valuations agent)
                      (fun row => subscript row item))).

End Courses.

(** ** The loop over the matching *)

(** [mechine, job = name] on a string: the characters of the name, each a
    string of its own. *)
Fixpoint unpack (name : string) : list string :=
  match name with
  | EmptyString => []
  | String c r => String c EmptyString :: unpack r
  end.

(** The answers of networkx on a graph whose edges share no node: a node
    without an edge is a component of its own, the two ends of an edge are
    one, every edge is in the matching, and the loop over the matching, a
    dict, receives its keys: the names of the matched nodes. *)
Definition disjoint_edges_engine {num} (value : matrix num) : Engines num := {|
  solve := fun _ => Ok (Some value);
  is_bipartite := fun _ => true;
  connected_components := fun G =>
    (map (fun n => [n])
         (filter (fun n => negb (existsb (fun e => String.eqb n (fst e) || String.eqb n (snd e))
                                         (edges G)))
                 (nodes G))
     ++ map (fun e => [fst e; snd e]) (edges G))%list;
  maximum_matching := fun G =>
    flat_map (fun e => [unpack (fst e); unpack (snd e)]) (edges G)
|}.

(** * Properties *)

(** ** Matrices *)

Lemma length_list_set {A} (l : list A) i x : length (list_set l i x) = length l.
Proof.
  revert i; induction l as [|y r IH]; intros [|i]; simpl; auto.
Qed.

Lemma nth_error_list_set_eq {A} (l : list A) i x y :
  nth_error l i = Some y -> nth_error (list_set l i x) i = Some x.
Proof.
  revert i; induction l as [|z r IH]; intros [|i]; simpl; try discriminate; auto.
Qed.

Lemma nth_error_list_set_ne {A} (l : list A) i k x :
  i <> k -> nth_error (list_set l i x) k = nth_error l k.
Proof.
  revert i k; induction l as [|z r IH]; intros [|i] [|k] Hne; simpl; auto;
    try congruence.
Qed.

Lemma cell_set_cell_eq {A} (a : matrix A) m j x y :
  cell a m j = Ok y -> cell (set_cell a m j x) m j = Ok x.
Proof.
  unfold cell, set_cell.
  destruct (nth_error a m) as [row|] eqn:Hrow; try discriminate.
  destruct (nth_error row j) as [z|] eqn:Hz; try discriminate.
  intros _.
  rewrite (nth_error_list_set_eq _ _ _ Hrow).
  now rewrite (nth_error_list_set_eq _ _ _ Hz).
Qed.

Lemma cell_set_cell_ne {A} (a : matrix A) m j m' j' x :
  (m', j') <> (m, j) -> cell (set_cell a m j x) m' j' = cell a m' j'.
Proof.
  intros Hne. unfold cell, set_cell.
  destruct (nth_error a m) as [row|] eqn:Hrow; auto.
  destruct (Nat.eq_dec m m') as [->|Hm].
  - rewrite (nth_error_list_set_eq _ _ _ Hrow), Hrow.
    rewrite nth_error_list_set_ne; [reflexivity | congruence].
  - rewrite nth_error_list_set_ne by assumption. reflexivity.
Qed.

(** ** The assign operation *)

(** C6. On a valid index pair, [scedual] raises [KeyError] when the cell
    is already true; when the cell is false it returns normally, the cell
    is true afterwards and no other cell has changed. *)
Theorem scedual_duplicate_or_set :
  forall (num : Type) (A : Arith num) (st : Scedual num) (mechine job : nat) (b : bool),
    cell (assignments st) mechine job = Ok b ->
    (b = true -> snd (scedual mechine job st) = Raise KeyError) /\
    (b = false ->
     exists st', scedual mechine job st = (st', Ok tt) /\
                 cell (assignments st') mechine job = Ok true /\
                 costs st' = costs st /\
                 forall m' j', (m', j') <> (mechine, job) ->
                               cell (assignments st') m' j' = cell (assignments st) m' j').
Proof.
  intros num A st m j b Hcell. split; intros ->.
  - unfold scedual. now rewrite Hcell.
  - eexists. split; [|split; [|split]].
    + unfold scedual. rewrite Hcell. reflexivity.
    + simpl. eapply cell_set_cell_eq; eauto.
    + reflexivity.
    + intros m' j' Hne. simpl. apply cell_set_cell_ne. exact Hne.
Qed.

Lemma scedual_duplicate_or_set_witness :
  (snd (scedual 0 0 doctest_scedual) = Raise KeyError) /\
  (exists st', scedual 1 0 doctest_scedual = (st', Ok tt) /\
               cell (assignments st') 1 0 = Ok true /\
               costs st' = costs doctest_scedual /\
               forall m' j', (m', j') <> (1, 0) ->
                             cell (assignments st') m' j'
                             = cell (assignments doctest_scedual) m' j').
Proof.
  split.
  - apply (proj1 (@scedual_duplicate_or_set Q Q_Arith doctest_scedual 0 0 true eq_refl)
                 eq_refl).
  - apply (proj2 (@scedual_duplicate_or_set Q Q_Arith doctest_scedual 1 0 false eq_refl)
                 eq_refl).
Defined.

(** C10. A duplicate assignment raises and leaves the schedule object, and
    so the whole assignment matrix, as it was. *)
Theorem scedual_duplicate_atomic :
  forall (num : Type) (A : Arith num) (st : Scedual num) (mechine job : nat),
    cell (assignments st) mechine job = Ok true ->
    scedual mechine job st = (st, Raise KeyError).
Proof.
  intros num A st m j Hcell. unfold scedual. now rewrite Hcell.
Qed.

Lemma scedual_duplicate_atomic_witness :
  scedual 1 1 doctest_scedual = (doctest_scedual, Raise KeyError).
Proof.
  apply (@scedual_duplicate_atomic Q Q_Arith doctest_scedual 1 1). reflexivity.
Defined.

(** ** Results and builtins *)

Lemma rmap_total {A B} (f : A -> result B) (g : A -> B) (xs : list A) :
  (forall x, In x xs -> f x = Ok (g x)) -> rmap f xs = Ok (map g xs).
Proof.
  induction xs as [|x r IH]; intros Hf; simpl; auto.
  rewrite (Hf x) by (left; reflexivity). simpl.
  rewrite IH by (intros; apply Hf; right; assumption). reflexivity.
Qed.

Section BuiltinFacts.
Context {num : Type} {arith : Arith num}.

Lemma py_min_from_In {A} (best : A) (kbest : num) (xs : list (A * num)) :
  py_min_from best kbest xs = best \/ In (py_min_from best kbest xs) (map fst xs).
Proof.
  revert best kbest; induction xs as [|[x k] r IH]; intros best kbest; simpl; auto.
  destruct (ltb k kbest).
  - destruct (IH x k) as [-> | Hin]; auto.
  - destruct (IH best kbest) as [-> | Hin]; auto.
Qed.

Lemma py_min_key_total {A} (key : A -> result num) (k : A -> num) (x : A) (r : list A) :
  (forall y, In y (x :: r) -> key y = Ok (k y)) ->
  py_min_key key (x :: r) = Ok (py_min_from x (k x) (map (fun y => (y, k y)) r)).
Proof.
  intros Hk. unfold py_min_key.
  rewrite (@rmap_total _ _ _ (fun y => (y, k y))).
  - reflexivity.
  - intros y Hy. rewrite (Hk y Hy). reflexivity.
Qed.
End BuiltinFacts.

(** ** Shapes and loads *)

Lemma count_eqb_seq (m a n : nat) :
  a <= m < a + n -> length (filter (fun m' => m' =? m) (seq a n)) = 1.
Proof.
  revert a; induction n as [|n IH]; intros a Hm; [lia|].
  simpl. destruct (Nat.eqb_spec a m) as [->|Hne].
  - simpl. f_equal.
    assert (Hnil : forall k b, m < b -> filter (fun m' => m' =? m) (seq b k) = []).
    { induction k as [|k IHk]; intros b Hb; simpl; auto.
      destruct (Nat.eqb_spec b m); [lia|]. apply IHk; lia. }
    rewrite Hnil by lia. reflexivity.
  - apply IH; lia.
Qed.

Section ShapeFacts.
Context {num : Type} {arith : Arith num}.

Lemma well_shaped_cell (st : Scedual num) m j :
  well_shaped st -> m < Mechines st -> j < Jobs st ->
  cell (assignments st) m j = Ok (assigned st m j).
Proof.
  intros [Hlen Hrows] Hm Hj. unfold assigned, cell.
  destruct (nth_error (assignments st) m) as [row|] eqn:Hrow.
  - assert (Hl : length row = Jobs st).
    { rewrite Forall_forall in Hrows. apply Hrows. eapply nth_error_In; eauto. }
    destruct (nth_error row j) as [b|] eqn:Hb; auto.
    apply nth_error_None in Hb. lia.
  - apply nth_error_None in Hrow. lia.
Qed.

Lemma build_well_shaped (c : ValuationMatrix num) : well_shaped (build c).
Proof.
  unfold well_shaped, build, np_zeros, shape, Mechines, Jobs; simpl. split.
  - apply repeat_length.
  - apply Forall_forall. intros row Hin. apply repeat_spec in Hin. subst.
    apply repeat_length.
Qed.

Lemma clear_well_shaped (st : Scedual num) : well_shaped (clear st).
Proof. apply (build_well_shaped (costs st)). Qed.

Lemma np_zeros_cell (sh : nat * nat) m j : cell (np_zeros sh) m j <> Ok true.
Proof.
  unfold cell, np_zeros.
  destruct (nth_error (repeat (repeat false (snd sh)) (fst sh)) m) as [row|] eqn:Hrow;
    try discriminate.
  apply nth_error_In, repeat_spec in Hrow. subst.
  destruct (nth_error (repeat false (snd sh)) j) as [b|] eqn:Hb; try discriminate.
  apply nth_error_In, repeat_spec in Hb. subst. discriminate.
Qed.

Lemma build_unassigned (c : ValuationMatrix num) m j : assigned (build c) m j = false.
Proof.
  unfold assigned. simpl.
  destruct (cell (np_zeros (shape (mkScedual c []))) m j) as [[|]|] eqn:E; auto.
  now apply np_zeros_cell in E.
Qed.

Lemma assign_well_shaped (st : Scedual num) m j :
  well_shaped st -> well_shaped (assign st m j).
Proof.
  intros [Hlen Hrows]. unfold well_shaped, assign, set_cell, Mechines, Jobs in *; simpl.
  destruct (nth_error (assignments st) m) as [row|] eqn:Hrow; [|split; assumption].
  split.
  - now rewrite length_list_set.
  - rewrite Forall_forall in *. intros r Hin.
    apply In_nth_error in Hin. destruct Hin as [k Hk].
    destruct (Nat.eq_dec m k) as [->|Hne].
    + rewrite (nth_error_list_set_eq _ _ _ Hrow) in Hk. inversion Hk.
      rewrite length_list_set. apply Hrows. eapply nth_error_In; eauto.
    + rewrite nth_error_list_set_ne in Hk by assumption.
      apply Hrows. eapply nth_error_In; eauto.
Qed.

Lemma assigned_assign_cell (st : Scedual num) m j b m' j' :
  cell (assignments st) m j = Ok b ->
  assigned (assign st m j) m' j' =
  if (m' =? m) && (j' =? j) then true else assigned st m' j'.
Proof.
  intros Hcell. unfold assigned at 1. simpl.
  destruct (Nat.eqb_spec m' m) as [->|Hm']; simpl.
  - destruct (Nat.eqb_spec j' j) as [->|Hj']; simpl.
    + erewrite cell_set_cell_eq; [reflexivity | exact Hcell].
    + rewrite cell_set_cell_ne by congruence. reflexivity.
  - rewrite cell_set_cell_ne by congruence. reflexivity.
Qed.

Lemma assigned_assign (st : Scedual num) m j m' j' :
  well_shaped st -> m < Mechines st -> j < Jobs st ->
  assigned (assign st m j) m' j' =
  if (m' =? m) && (j' =? j) then true else assigned st m' j'.
Proof.
  intros Hws Hm Hj. eapply assigned_assign_cell. apply well_shaped_cell; eauto.
Qed.

Lemma assigned_costs_total (st : Scedual num) m (jobs : list nat) :
  well_shaped st -> m < Mechines st -> (forall j, In j jobs -> j < Jobs st) ->
  assigned_costs st m jobs
  = Ok (map (vm_at (costs st) m) (filter (assigned st m) jobs)).
Proof.
  intros Hws Hm. induction jobs as [|j r IH]; intros Hjobs; simpl; auto.
  rewrite well_shaped_cell by (auto; apply Hjobs; left; reflexivity). simpl.
  rewrite IH by (intros; apply Hjobs; right; assumption). simpl.
  destruct (assigned st m j); reflexivity.
Qed.

Lemma loadOf_total (st : Scedual num) m :
  well_shaped st -> m < Mechines st -> loadOf st m = Ok (load st m).
Proof.
  intros Hws Hm. unfold loadOf, objects.
  rewrite assigned_costs_total; auto.
  intros j Hj. apply in_seq in Hj. unfold Jobs. lia.
Qed.
End ShapeFacts.

(** ** The greedy assigner *)

Section GreedyFacts.
Context {num : Type} {arith : Arith num}.

Lemma greedy_choice_lt (st : Scedual num) job :
  0 < Mechines st -> greedy_choice st job < Mechines st.
Proof.
  intros HM. unfold greedy_choice.
  destruct (py_min_from_In 0 (completion st job 0)
              (map (fun m => (m, completion st job m)) (seq 1 (Mechines st - 1))))
    as [-> | Hin]; auto.
  rewrite map_map in Hin. simpl in Hin. rewrite map_id in Hin.
  apply in_seq in Hin. lia.
Qed.

(** One iteration of the loop of [greedy] on a job whose column is empty. *)
Lemma greedy_job_step (st : Scedual num) job :
  well_shaped st -> job < Jobs st -> 0 < Mechines st ->
  (forall m, m < Mechines st -> assigned st m job = false) ->
  greedy_job job st = (assign st (greedy_choice st job) job, Ok tt).
Proof.
  intros Hws Hjob HM Hcol. unfold greedy_job, bind, reading.
  assert (Hrange : range (Mechines st) = 0 :: seq 1 (Mechines st - 1)).
  { unfold range. destruct (Mechines st) as [|M]; [lia|]. simpl.
    now rewrite Nat.sub_0_r. }
  rewrite Hrange.
  rewrite (@py_min_key_total _ _ _ _ (completion st job)).
  - fold (greedy_choice st job).
    pose proof (greedy_choice_lt st job HM) as Hlt.
    unfold scedual. rewrite well_shaped_cell by auto.
    rewrite Hcol by auto. reflexivity.
  - intros m Hm. rewrite <- Hrange in Hm. apply in_seq in Hm.
    unfold greedy_key. rewrite loadOf_total by (auto; lia). reflexivity.
Qed.

Lemma column_count_assign_same (st : Scedual num) m job :
  well_shaped st -> m < Mechines st -> job < Jobs st ->
  (forall m', m' < Mechines st -> assigned st m' job = false) ->
  column_count (assign st m job) job = 1.
Proof.
  intros Hws Hm Hjob Hcol. unfold column_count.
  change (Mechines (assign st m job)) with (Mechines st).
  rewrite <- (@count_eqb_seq m 0 (Mechines st)) by lia.
  f_equal. apply filter_ext_in. intros m' Hm'. apply in_seq in Hm'.
  rewrite assigned_assign by auto. rewrite Nat.eqb_refl, andb_true_r.
  destruct (m' =? m); auto. apply Hcol. lia.
Qed.

Lemma column_count_assign_other (st : Scedual num) m job j :
  well_shaped st -> m < Mechines st -> job < Jobs st -> j <> job ->
  column_count (assign st m job) j = column_count st j.
Proof.
  intros Hws Hm Hjob Hne. unfold column_count.
  change (Mechines (assign st m job)) with (Mechines st).
  f_equal. apply filter_ext. intros m'.
  rewrite assigned_assign by auto.
  destruct (Nat.eqb_spec j job); [congruence|]. now rewrite andb_false_r.
Qed.

Lemma greedy_progress_step (c : ValuationMatrix num) k st :
  greedy_progress c k st -> k < Jobs st -> 0 < Mechines st ->
  greedy_job k st = (assign st (greedy_choice st k) k, Ok tt) /\
  greedy_progress c (S k) (assign st (greedy_choice st k) k).
Proof.
  intros (Hc & Hws & Hdone & Htodo) Hk HM.
  pose proof (greedy_choice_lt st k HM) as Hlt.
  split; [apply greedy_job_step; auto|].
  repeat split.
  - exact Hc.
  - apply assign_well_shaped, Hws.
  - apply assign_well_shaped, Hws.
  - intros j Hj. destruct (Nat.eq_dec j k) as [->|Hne].
    + apply column_count_assign_same; auto.
    + rewrite column_count_assign_other by auto. apply Hdone. lia.
  - intros m j Hj. rewrite assigned_assign by auto.
    destruct (Nat.eqb_spec j k); [lia|]. rewrite andb_false_r. apply Htodo. lia.
Qed.

Lemma greedy_loop_progress (c : ValuationMatrix num) n k st :
  greedy_progress c k st -> k + n = Jobs st -> (0 < n -> 0 < Mechines st) ->
  exists st', for_each (seq k n) greedy_job st = (st', Ok tt) /\
              greedy_progress c (k + n) st'.
Proof.
  revert k st; induction n as [|n IH]; intros k st Hinv Hkn HM.
  - exists st. rewrite Nat.add_0_r. split; [reflexivity | assumption].
  - destruct (greedy_progress_step Hinv) as [Hstep Hinv']; [lia | apply HM; lia |].
    destruct (IH (S k) (assign st (greedy_choice st k) k) Hinv') as (st' & Hrun & Hfin).
    + unfold Jobs in *. simpl. lia.
    + intros _. unfold Mechines in *. simpl. apply HM. lia.
    + exists st'. split.
      * simpl. unfold bind. rewrite Hstep. exact Hrun.
      * replace (k + S n) with (S k + n) by lia. exact Hfin.
Qed.

Lemma build_progress (c : ValuationMatrix num) : greedy_progress c 0 (build c).
Proof.
  repeat split.
  - apply build_well_shaped.
  - apply build_well_shaped.
  - intros j Hj. lia.
  - intros m j _. apply build_unassigned.
Qed.

(** A table with a job has a machine. *)
Lemma jobs_have_mechines (c : ValuationMatrix num) :
  0 < num_of_objects c -> 0 < num_of_agents c.
Proof.
  unfold num_of_objects, num_of_agents. destruct (vm_rows c); simpl; lia.
Qed.

(** A greedy run on a freshly built schedule returns normally, and
    afterwards every job column has exactly one true entry. *)
Lemma greedy_coverage (c : ValuationMatrix num) :
  exists st, greedy (build c) = (st, Ok tt) /\ costs st = c /\ well_shaped st /\
             forall job, job < Jobs st -> column_count st job = 1.
Proof.
  destruct (@greedy_loop_progress c (Jobs (build c)) 0 (build c)) as (st & Hrun & Hfin).
  - apply build_progress.
  - reflexivity.
  - intros Hn. apply jobs_have_mechines. exact Hn.
  - exists st. destruct Hfin as (Hc & Hws & Hdone & _).
    repeat split; auto; try apply Hws.
    intros job Hjob. apply Hdone. unfold Jobs in *. rewrite Hc in Hjob.
    simpl. exact Hjob.
Qed.
End GreedyFacts.

(** ** Order facts over exact numbers *)

Lemma Q_ltb_true (a b : Q) : ltb a b = true -> (a < b)%Q.
Proof.
  simpl. intros Hlt. apply Qnot_le_lt. intros Hle.
  apply Qle_bool_iff in Hle. rewrite Hle in Hlt. discriminate.
Qed.

Lemma Q_ltb_false (a b : Q) : ltb a b = false -> (b <= a)%Q.
Proof.
  simpl. intros Hlt. apply Qle_bool_iff.
  destruct (Qle_bool b a); [reflexivity | discriminate].
Qed.

Lemma Q_leb_false (a b : Q) : Qle_bool a b = false -> (b < a)%Q.
Proof.
  intros Hle. apply Qnot_le_lt. intros Hab. apply Qle_bool_iff in Hab.
  rewrite Hab in Hle. discriminate.
Qed.

Lemma value_at_nonneg (x : matrix Q) (c : nat * nat) :
  forallb (forallb (leb 0%Q)) x = true -> (0 <= value_at x c)%Q.
Proof.
  intros Hpos. unfold value_at, cell.
  destruct (nth_error x (fst c)) as [row|] eqn:Hrow; [|apply Qle_refl].
  destruct (nth_error row (snd c)) as [v|] eqn:Hv; [|apply Qle_refl].
  rewrite forallb_forall in Hpos. apply nth_error_In in Hrow, Hv.
  specialize (Hpos row Hrow). rewrite forallb_forall in Hpos.
  apply Qle_bool_iff. exact (Hpos v Hv).
Qed.

(** [min] over a range of machines: the result is the lowest index among
    those of least key. *)
Lemma py_min_from_range (key : nat -> Q) (n a b : nat) :
  b < a ->
  (forall m', m' < b -> (key b < key m')%Q) ->
  (forall m', b <= m' < a -> (key b <= key m')%Q) ->
  let r := py_min_from b (key b) (map (fun m => (m, key m)) (seq a n)) in
  r < a + n /\
  (forall m', m' < r -> (key r < key m')%Q) /\
  (forall m', r <= m' < a + n -> (key r <= key m')%Q).
Proof.
  revert a b. induction n as [|n IH]; intros a b Hba Hbefore Hsince; simpl.
  - repeat split; auto; try lia. intros m' Hm'. apply Hsince. lia.
  - destruct (negb (Qle_bool (key b) (key a))) eqn:Hcmp.
    + apply (Q_ltb_true (key a) (key b)) in Hcmp.
      replace (a + S n) with (S a + n) by lia. apply IH; [lia | |].
      * intros m' Hm'. destruct (Nat.lt_ge_cases m' b) as [Hlt|Hge].
        -- eapply Qlt_trans; [exact Hcmp | apply Hbefore; exact Hlt].
        -- eapply Qlt_le_trans; [exact Hcmp | apply Hsince; lia].
      * intros m' Hm'. assert (m' = a) by lia. subst. apply Qle_refl.
    + apply (Q_ltb_false (key a) (key b)) in Hcmp.
      replace (a + S n) with (S a + n) by lia. apply IH; [lia | exact Hbefore |].
      intros m' Hm'. destruct (Nat.eq_dec m' a) as [->|Hne]; [exact Hcmp|].
      apply Hsince. lia.
Qed.

Lemma greedy_choice_lowest_argmin (st : Scedual Q) (job : nat) :
  0 < Mechines st -> lowest_argmin st job (greedy_choice st job).
Proof.
  intros HM. unfold lowest_argmin, greedy_choice.
  destruct (@py_min_from_range (completion st job) (Mechines st - 1) 1 0)
    as (Hlt & Hbefore & Hsince).
  - lia.
  - intros m' Hm'. lia.
  - intros m' Hm'. assert (m' = 0) by lia. subst. apply Qle_refl.
  - repeat split.
    + lia.
    + intros m' Hm'. destruct (Nat.lt_ge_cases m'
        (py_min_from 0 (completion st job 0)
           (map (fun m => (m, completion st job m)) (seq 1 (Mechines st - 1)))))
        as [Hl|Hg].
      * apply Qlt_le_weak, Hbefore, Hl.
      * apply Hsince. lia.
    + exact Hbefore.
Qed.

Lemma greedy_loop_spec (c : ValuationMatrix Q) n k st :
  greedy_progress c k st -> k + n = Jobs st -> (0 < n -> 0 < Mechines st) ->
  exists st', for_each (seq k n) greedy_job st = (st', Ok tt) /\
              greedy_spec st (seq k n) st'.
Proof.
  revert k st; induction n as [|n IH]; intros k st Hinv Hkn HM.
  - exists st. split; [reflexivity | constructor].
  - destruct (greedy_progress_step Hinv) as [Hstep Hinv']; [lia | apply HM; lia |].
    destruct (IH (S k) (assign st (greedy_choice st k) k) Hinv') as (st' & Hrun & Hspec).
    + unfold Jobs in *. simpl. lia.
    + intros _. unfold Mechines in *. simpl. apply HM. lia.
    + exists st'. split.
      * simpl. unfold bind. rewrite Hstep. exact Hrun.
      * simpl. econstructor; [|exact Hspec].
        apply greedy_choice_lowest_argmin. apply HM. lia.
Qed.

(** C5. Started on a freshly built (cleared) schedule, [greedy] returns
    normally after taking the jobs in the order 0..Jobs-1 and giving each
    to the machine that minimises cost(m, j) + load(m), the lowest index
    among equals; on [[1,2,5],[2,2,1],[2,3,5]] the makespan is 3. *)
Theorem greedy_follows_rule :
  (forall c : ValuationMatrix Q,
      exists st, greedy (build c) = (st, Ok tt) /\
                 greedy_spec (build c) (range (num_of_objects c)) st) /\
  scedual_makespan.extract_result
    (fst (greedy (build (Qcosts [[1; 2; 5]; [2; 2; 1]; [2; 3; 5]]%Z)))) = Ok 3%Q.
Proof.
  split.
  - intros c.
    destruct (@greedy_loop_spec c (Jobs (build c)) 0 (build c)) as (st & Hrun & Hspec).
    + apply build_progress.
    + reflexivity.
    + intros Hn. apply jobs_have_mechines. exact Hn.
    + exists st. split; [exact Hrun | exact Hspec].
  - vm_compute. reflexivity.
Qed.

(** ** The makespan *)

Lemma py_max_from_spec (best : Q) (xs : list Q) :
  (py_max_from best xs = best \/ In (py_max_from best xs) xs) /\
  (best <= py_max_from best xs)%Q /\
  (forall x, In x xs -> (x <= py_max_from best xs)%Q).
Proof.
  revert best; induction xs as [|x r IH]; intros best; simpl.
  - repeat split; auto. apply Qle_refl. intros x [].
  - destruct (negb (Qle_bool x best)) eqn:Hcmp.
    + apply (Q_ltb_true best x) in Hcmp. destruct (IH x) as (Hin & Hle & Hall).
      repeat split.
      * destruct Hin as [-> | Hin]; auto.
      * eapply Qle_trans; [apply Qlt_le_weak; exact Hcmp | exact Hle].
      * intros y [<- | Hy]; auto.
    + apply (Q_ltb_false best x) in Hcmp. destruct (IH best) as (Hin & Hle & Hall).
      repeat split.
      * destruct Hin as [-> | Hin]; auto.
      * exact Hle.
      * intros y [<- | Hy]; auto. eapply Qle_trans; eauto.
Qed.

Lemma load_unassigned (st : Scedual Q) m :
  (forall j, assigned st m j = false) -> load st m = 0%Q.
Proof.
  intros Hnone. unfold load.
  assert (Hnil : forall l, filter (assigned st m) l = []).
  { induction l as [|j r IHl]; simpl; auto. now rewrite Hnone. }
  rewrite Hnil. reflexivity.
Qed.

(** C8. On a schedule with at least one machine, [extract_result] of
    [scedual_makespan] returns the largest load: the value returned is
    the sum of the costs of the jobs assigned to some machine, and no
    machine has jobs whose costs sum to more; [loadOf] returns that sum
    for every machine; with no job assigned the value is 0. *)
Theorem makespan_is_max_load :
  forall st : Scedual Q,
    well_shaped st -> 0 < Mechines st ->
    exists v, scedual_makespan.extract_result st = Ok v /\
              (exists m, m < Mechines st /\
                         v = py_sum (map (vm_at (costs st) m)
                                         (filter (assigned st m) (range (Jobs st))))) /\
              (forall m, m < Mechines st ->
                         (py_sum (map (vm_at (costs st) m)
                                      (filter (assigned st m) (range (Jobs st))))
                          <= v)%Q) /\
              (forall m, m < Mechines st ->
                         loadOf st m
                         = Ok (py_sum (map (vm_at (costs st) m)
                                           (filter (assigned st m) (range (Jobs st)))))) /\
              ((forall m j, assigned st m j = false) -> v = 0%Q).
Proof.
  intros st Hws HM.
  assert (H : exists v, scedual_makespan.extract_result st = Ok v /\
                        (exists m, m < Mechines st /\ v = load st m) /\
                        (forall m, m < Mechines st -> (load st m <= v)%Q) /\
                        (forall m, m < Mechines st -> loadOf st m = Ok (load st m)) /\
                        ((forall m j, assigned st m j = false) -> v = 0%Q)).
  { assert (Hload : forall m, m < Mechines st -> loadOf st m = Ok (load st m))
      by (intros m Hm; apply loadOf_total; assumption).
    revert Hload. unfold scedual_makespan.extract_result.
    rewrite (@rmap_total _ _ _ (load st)).
    2:{ intros m Hm. apply in_seq in Hm.
        rewrite assigned_costs_total.
        - reflexivity.
        - exact Hws.
        - lia.
        - intros j Hj. apply in_seq in Hj. lia. }
    unfold range. destruct (Mechines st) as [|M] eqn:EM; [lia|].
    change (seq 0 (S M)) with (0 :: seq 1 M). simpl.
    destruct (py_max_from_spec (load st 0) (map (load st) (seq 1 M))) as (Hin & Hle & Hall).
    intros Hload. eexists. split; [reflexivity|]. split; [|split; [|split]].
    - destruct Hin as [Heq | Hin].
      + exists 0. split; [lia | exact Heq].
      + apply in_map_iff in Hin. destruct Hin as (m & Hm & Hmin).
        apply in_seq in Hmin. exists m. split; [lia | symmetry; exact Hm].
    - intros m Hm. destruct m as [|m]; [exact Hle|].
      apply Hall. apply in_map. apply in_seq. lia.
    - exact Hload.
    - intros Hnone. destruct Hin as [-> | Hin].
      + apply load_unassigned. intros j. apply Hnone.
      + apply in_map_iff in Hin. destruct Hin as (m & <- & _).
        apply load_unassigned. intros j. apply Hnone. }
  exact H.
Qed.

Lemma makespan_is_max_load_witness :
  exists v, scedual_makespan.extract_result doctest_scedual = Ok v /\
            (exists m, m < Mechines doctest_scedual /\
                       v = py_sum (map (vm_at (costs doctest_scedual) m)
                                       (filter (assigned doctest_scedual m)
                                               (range (Jobs doctest_scedual))))) /\
            (forall m, m < Mechines doctest_scedual ->
                       (py_sum (map (vm_at (costs doctest_scedual) m)
                                    (filter (assigned doctest_scedual m)
                                            (range (Jobs doctest_scedual))))
                        <= v)%Q) /\
            (forall m, m < Mechines doctest_scedual ->
                       loadOf doctest_scedual m
                       = Ok (py_sum (map (vm_at (costs doctest_scedual) m)
                                         (filter (assigned doctest_scedual m)
                                                 (range (Jobs doctest_scedual)))))) /\
            ((forall m j, assigned doctest_scedual m j = false) -> v = 0%Q).
Proof.
  apply (@makespan_is_max_load doctest_scedual).
  - split; [reflexivity | repeat constructor].
  - unfold Mechines, num_of_agents. simpl. lia.
Defined.

(** ** The rounder *)

Section RoundFacts.
Context {num : Type} {arith : Arith num} {engines : Engines num}.

(** The first loop of [Round] only sets cells whose fractional value
    equals 1, whether it completes or raises. *)
Lemma adopt_integral_cells (fractional_sol : matrix num) (cells : list (nat * nat)) :
  forall (G : Graph) (st st1 : Scedual num) (r : result Graph),
    adopt_integral fractional_sol cells G st = (st1, r) ->
    costs st1 = costs st /\
    forall m j, assigned st1 m j = true ->
                assigned st m j = true \/
                (In (m, j) cells /\
                 exists x, cell fractional_sol m j = Ok x /\ eqb x one = true).
Proof.
  induction cells as [|[m0 j0] rest IH]; intros G st st1 r Hrun.
  - inversion Hrun; subst. auto.
  - cbn [adopt_integral] in Hrun. unfold bind, lift in Hrun.
    destruct (cell fractional_sol m0 j0) as [x|e] eqn:Hx.
    2:{ inversion Hrun; subst. auto. }
    destruct (eqb x one) eqn:Hone.
    + unfold scedual in Hrun.
      destruct (cell (assignments st) m0 j0) as [[|]|e] eqn:Hc.
      * inversion Hrun; subst. auto.
      * fold (assign st m0 j0) in Hrun.
        assert (Hset : forall m j, assigned (assign st m0 j0) m j = true ->
                  assigned st m j = true \/
                  (In (m, j) ((m0, j0) :: rest) /\
                   exists x, cell fractional_sol m j = Ok x /\ eqb x one = true)).
        { intros m j. rewrite (assigned_assign_cell _ _ _ _ _ Hc).
          destruct (Nat.eqb_spec m m0) as [->|]; simpl; auto.
          destruct (Nat.eqb_spec j j0) as [->|]; simpl; auto.
          intros _. right. split; [left; reflexivity | eauto]. }
        destruct (remove_edge G (int_to_node m0 false) (int_to_node j0 true))
          as [G'|e] eqn:Hrem.
        -- destruct (IH _ _ _ _ Hrun) as [Hcosts Hcells]. split; [exact Hcosts|].
           intros m j Hmj. destruct (Hcells m j Hmj) as [Hold | (Hin & Hval)].
           ++ apply Hset, Hold.
           ++ right. split; [right; exact Hin | exact Hval].
        -- inversion Hrun; subst. split; [reflexivity | exact Hset].
      * inversion Hrun; subst. auto.
    + destruct (IH _ _ _ _ Hrun) as [Hcosts Hcells]. split; [exact Hcosts|].
      intros m j Hmj. destruct (Hcells m j Hmj) as [Hold | (Hin & Hval)]; auto.
      right. split; [right; exact Hin | exact Hval].
Qed.
End RoundFacts.

(** A call of the oracle that raises ends the loop of [apprx] with that
    exception. *)
Lemma oracle_error_aborts_run {num : Type} {arith : Arith num} {engines : Engines num}
      (fuel : nat) (lower upper : num) (st st' : Scedual num) (e : exn) :
  leb lower upper = true ->
  LinearProgram upper st = (st', Raise e) ->
  apprx_loop (S fuel) lower upper st = Some (st', Raise e).
Proof.
  intros Hle HLP. cbn [apprx_loop]. rewrite Hle.
  unfold apprx_iteration, bind. rewrite HLP. reflexivity.
Qed.

(** C7. When the graph left by the integral step is reported not
    bipartite, [Round] raises [RuntimeError] at once: the schedule is the
    one the integral step left, in which every set cell was set before or
    has fractional value 1, so no assignment comes from a matching; and
    the exception ends the run of the driver that called the rounder. *)
Theorem round_rejects_non_bipartite :
  forall (num : Type) (A : Arith num) (E : Engines num)
         (fractional_sol : matrix num) (st st1 : Scedual num) (G0 G : Graph),
    build_graph st fractional_sol = Ok G0 ->
    adopt_integral fractional_sol (iter_cells st) G0 st = (st1, Ok G) ->
    is_bipartite G = false ->
    Round fractional_sol st = (st1, Raise RuntimeError) /\
    (forall m j, assigned st1 m j = true ->
                 assigned st m j = true \/
                 exists x, cell fractional_sol m j = Ok x /\ eqb x one = true) /\
    (forall (st0 : Scedual num) (p : Problem num) (lower upper : num) (fuel : nat),
        st = clear st0 ->
        build_problem st0 upper = Some p ->
        solve p = Ok (Some fractional_sol) ->
        leb lower upper = true ->
        apprx_loop (S fuel) lower upper st0 = Some (st1, Raise RuntimeError)).
Proof.
  intros num A E frac st st1 G0 G Hgraph Hadopt Hbip.
  assert (HR : Round frac st = (st1, Raise RuntimeError)).
  { unfold Round, bind, reading. rewrite Hgraph, Hadopt, Hbip. reflexivity. }
  split; [exact HR|]. split.
  - intros m j Hmj.
    destruct (adopt_integral_cells _ _ _ _ Hadopt) as [_ Hcells].
    destruct (Hcells m j Hmj) as [Hold | (_ & Hval)]; auto.
  - intros st0 p lower upper fuel -> Hp Hsolve Hle.
    apply oracle_error_aborts_run; [exact Hle|].
    unfold LinearProgram. rewrite Hp, Hsolve. unfold bind. rewrite HR. reflexivity.
Qed.

Lemma round_rejects_non_bipartite_witness :
  exists st1,
    Round (engines := rejecting_engine Qfrac_one_half) Qfrac_one_half (clear (build Q15))
    = (st1, Raise RuntimeError) /\
    (forall m j, assigned st1 m j = true ->
                 assigned (clear (build Q15)) m j = true \/
                 exists x, cell Qfrac_one_half m j = Ok x /\ eqb x one = true) /\
    (forall (st0 : Scedual Q) (p : Problem Q) (lower upper : Q) (fuel : nat),
        clear (build Q15) = clear st0 ->
        build_problem st0 upper = Some p ->
        solve (Engines := rejecting_engine Qfrac_one_half) p = Ok (Some Qfrac_one_half) ->
        leb lower upper = true ->
        apprx_loop (engines := rejecting_engine Qfrac_one_half) (S fuel) lower upper st0
        = Some (st1, Raise RuntimeError)).
Proof.
  eexists.
  eapply (@round_rejects_non_bipartite Q Q_Arith (rejecting_engine Qfrac_one_half)
            Qfrac_one_half (clear (build Q15))).
  - vm_compute. reflexivity.
  - vm_compute. reflexivity.
  - reflexivity.
Defined.

(** ** The oracle and the driver *)

Section DriverFacts.
Context {num : Type} {arith : Arith num} {engines : Engines num}.

(** The three ways out of [LinearProgram]. *)
Lemma LinearProgram_cases (bound : num) (st st' : Scedual num) (r : result bool) :
  LinearProgram bound st = (st', r) ->
  (r = Ok false /\ st' = st) \/
  (exists e, r = Raise e /\ st' = st) \/
  (exists p fractional_sol,
      build_problem st bound = Some p /\ solve p = Ok (Some fractional_sol) /\
      ((r = Ok true /\ Round fractional_sol (clear st) = (st', Ok tt)) \/
       (exists e, r = Raise e /\ Round fractional_sol (clear st) = (st', Raise e)))).
Proof.
  unfold LinearProgram. intros Hrun.
  destruct (build_problem st bound) as [p|] eqn:Hp.
  2:{ inversion Hrun; subst. auto. }
  destruct (solve p) as [[fractional_sol|]|e] eqn:Hsolve.
  - right. right. exists p, fractional_sol. repeat split; auto.
    unfold bind, ret in Hrun.
    destruct (Round fractional_sol (clear st)) as [st2 [[]|e]] eqn:HR;
      inversion Hrun; subst; eauto.
  - inversion Hrun; subst. auto.
  - inversion Hrun; subst. right. left. eauto.
Qed.

Lemma apprx_iteration_cases (lower upper : num) (st st' : Scedual num)
      (feasable : bool) (lower' upper' : num) :
  apprx_iteration lower upper st = (st', Ok (feasable, (lower', upper'))) ->
  LinearProgram upper st = (st', Ok feasable) /\
  (lower', upper') =
  (if feasable then (lower, sub (divide (add upper lower) (of_nat 2)) step_eps)
   else (add (divide (add upper lower) (of_nat 2)) step_eps, upper)).
Proof.
  unfold apprx_iteration, bind, ret. intros Hrun.
  destruct (LinearProgram upper st) as [st2 [[|]|e]]; simpl in Hrun;
    inversion Hrun; subst; auto.
Qed.

(** A run in which [feasable] was never true leaves the schedule alone. *)
Lemma apprx_loop_never_feasible (fuel : nat) :
  forall (lower upper : num) (st st' : Scedual num),
    apprx_loop fuel lower upper st = Some (st', Ok tt) ->
    (forall b, In b (apprx_reports fuel lower upper st) -> b = false) ->
    st' = st.
Proof.
  induction fuel as [|fuel IH]; intros lower upper st st' Hrun Hrep; simpl in *.
  - destruct (leb lower upper); [discriminate | now inversion Hrun].
  - destruct (leb lower upper); [|now inversion Hrun].
    destruct (apprx_iteration lower upper st) as [st1 [[f [l' u']]|e]] eqn:Hit;
      [|discriminate].
    assert (Hf : f = false) by (apply Hrep; left; reflexivity). subst f.
    apply apprx_iteration_cases in Hit. destruct Hit as [HLP _].
    apply LinearProgram_cases in HLP.
    assert (st1 = st).
    { destruct HLP as [[_ ->] | [(e & He & _) | (p & x & _ & _ & [[Ht _] | (e & He & _)])]];
        auto; discriminate. }
    subst st1. eapply IH; [exact Hrun|].
    intros b Hb. apply Hrep. right. exact Hb.
Qed.
End DriverFacts.

(** C1, as the code has it.  An iteration computes the midpoint and
    consults the oracle once, on the schedule as the previous iteration
    left it.  When the oracle reports failure the schedule is untouched and
    [lower] becomes midpoint + 0.0001; when it reports success the schedule
    was cleared inside the oracle, after the solver's answer and before the
    rounding, and [upper] becomes midpoint - 0.0001. *)
Theorem iteration_consults_oracle :
  forall (num : Type) (A : Arith num) (E : Engines num)
         (lower upper : num) (st st' : Scedual num)
         (feasable : bool) (lower' upper' : num),
    apprx_iteration lower upper st = (st', Ok (feasable, (lower', upper'))) ->
    let middle := divide (add upper lower) (of_nat 2) in
    exists bound,
      LinearProgram bound st = (st', Ok feasable) /\
      (lower', upper') =
      (if feasable then (lower, sub middle step_eps) else (add middle step_eps, upper)) /\
      (if feasable
       then exists p fractional_sol,
           build_problem st bound = Some p /\
           solve p = Ok (Some fractional_sol) /\
           Round fractional_sol (clear st) = (st', Ok tt)
       else st' = st).
Proof.
  intros num A E lower upper st st' feasable lower' upper' Hrun middle.
  apply apprx_iteration_cases in Hrun. destruct Hrun as [HLP Hbounds].
  exists upper. split; [exact HLP|]. split; [exact Hbounds|].
  apply LinearProgram_cases in HLP.
  destruct HLP as [[Hr ->] | [(e & He & _) | (p & x & Hp & Hs & [[Hr HR] | (e & He & _)])]];
    try discriminate.
  - inversion Hr; subst. reflexivity.
  - inversion Hr; subst. exists p, x. auto.
Qed.

Lemma iteration_consults_oracle_witness :
  exists bound,
    LinearProgram (engines := constant_solver Qidentity) bound (build Q1551)
    = (mkScedual Q1551 [[true; false]; [false; true]], Ok true) /\
    ((1 # 2)%Q, (29996 # 40000)%Q) =
    ((1 # 2)%Q, sub (divide (add 1%Q (1 # 2)%Q) (of_nat 2)) step_eps) /\
    exists p fractional_sol,
      build_problem (build Q1551) bound = Some p /\
      solve (Engines := constant_solver Qidentity) p = Ok (Some fractional_sol) /\
      Round (engines := constant_solver Qidentity) fractional_sol (clear (build Q1551))
      = (mkScedual Q1551 [[true; false]; [false; true]], Ok tt).
Proof.
  apply (@iteration_consults_oracle Q Q_Arith (constant_solver Qidentity)
           (1 # 2)%Q 1%Q (build Q1551) (mkScedual Q1551 [[true; false]; [false; true]])
           true (1 # 2)%Q (29996 # 40000)%Q).
  vm_compute. reflexivity.
Defined.

(** Every candidate that the program for [Q1551] at bound 1 admits has
    objective at least 1: job 0 must be wholly on machine 0. *)
Lemma Q1551_problem_objective (x : matrix Q) (a : matrix bool) :
  feasible Q1551_problem x a = true ->
  (1 <= eval_expr x (minimize Q1551_problem))%Q.
Proof.
  unfold feasible, Q1551_problem. cbn [constraints minimize forallb].
  intros Hf.
  apply andb_prop in Hf. destruct Hf as [Hpos Hf].
  do 2 (apply andb_prop in Hf; destruct Hf as [_ Hf]).
  apply andb_prop in Hf. destruct Hf as [Hrow0 _].
  assert (H01 : (0 <= value_at x (0%nat, 1%nat))%Q).
  { apply value_at_nonneg. exact Hpos. }
  revert Hrow0 H01.
  unfold satisfies, eval_expr, eval_terms, py_sum, py_max.
  cbn [map fold_left py_max_from fst snd].
  generalize (value_at x (0, 0)) (value_at x (0, 1))
             (value_at x (1, 0)) (value_at x (1, 1)).
  intros v00 v01 v10 v11 Heq H01.
  apply Qeq_bool_iff in Heq. simpl in Heq. simpl.
  destruct (Qle_bool (0 + 1 * v10 + 1 * v11) (0 + 1 * v00 + 1 * v01)) eqn:Hcmp; simpl.
  - lra.
  - apply Q_leb_false in Hcmp. lra.
Qed.

(** C1 as stated fails.  Costs [[1,5],[5,1]]: greedy gives upper = 1 and
    lower = 1/2, so the midpoint is 3/4.  The solver's answer, each job on
    its own machine, is an optimum of the program built at bound 1.  In the
    first iteration the code reports the range feasible and sets (0,0) and
    (1,1), where an oracle consulted at 3/4 finds no machine for job 0.  In
    the second iteration the oracle fails and the schedule still holds both
    assignments: it was not cleared before the call. *)
Lemma iteration_not_at_midpoint_nor_cleared :
  let engines := constant_solver Qidentity in
  let st0 := build Q1551 in
  let st1 := mkScedual Q1551 [[true; false]; [false; true]] in
  greedy_bounds st0 = Ok ((1 # 2)%Q, 1%Q) /\
  build_problem st0 1%Q = Some Q1551_problem /\
  feasible Q1551_problem Qidentity [[true; false]; [false; true]] = true /\
  (forall x a, feasible Q1551_problem x a = true ->
               (eval_expr Qidentity (minimize Q1551_problem)
                <= eval_expr x (minimize Q1551_problem))%Q) /\
  apprx_iteration (engines := engines) (1 # 2)%Q 1%Q st0
  = (st1, Ok (true, ((1 # 2)%Q, (29996 # 40000)%Q))) /\
  spec_iteration (engines := engines) (1 # 2)%Q 1%Q st0
  = (st0, Ok (false, ((30004 # 40000)%Q, 1%Q))) /\
  apprx_iteration (engines := engines) (1 # 2)%Q 1%Q st0
  <> spec_iteration (engines := engines) (1 # 2)%Q 1%Q st0 /\
  fst (apprx_iteration (engines := engines) (1 # 2)%Q (29996 # 40000)%Q st1) = st1 /\
  fst (spec_iteration (engines := engines) (1 # 2)%Q (29996 # 40000)%Q st1) = clear st1 /\
  st1 <> clear st1.
Proof.
  intros engines st0 st1.
  split; [vm_compute; reflexivity|].
  split; [vm_compute; reflexivity|].
  split; [vm_compute; reflexivity|].
  split.
  { intros x a Hf. apply Q1551_problem_objective in Hf.
    change (eval_expr Qidentity (minimize Q1551_problem)) with ((0 + 1 * 1 + 1 * 0)%Q).
    lra. }
  split; [vm_compute; reflexivity|].
  split; [vm_compute; reflexivity|].
  split; [intros Heq; vm_compute in Heq; discriminate|].
  split; [vm_compute; reflexivity|].
  split; [vm_compute; reflexivity|].
  intros Heq. vm_compute in Heq. discriminate.
Qed.

(** C4, as the code has it.  When the search ends normally and [feasable]
    was never true, the schedule is the one the driver was given: after
    [build], no job is assigned. *)
Theorem no_feasible_bound_leaves_schedule :
  forall (num : Type) (A : Arith num) (E : Engines num)
         (fuel : nat) (c : ValuationMatrix num) (st' : Scedual num),
    apprx fuel (build c) = Some (st', Ok tt) ->
    (forall b, In b (reports fuel (build c)) -> b = false) ->
    st' = build c /\ forall m j, assigned st' m j = false.
Proof.
  intros num A E fuel c st' Hrun Hrep.
  assert (Hst : st' = build c).
  { unfold apprx in Hrun. unfold reports in Hrep.
    destruct (greedy_bounds (build c)) as [[lower upper]|e]; [|discriminate].
    eapply apprx_loop_never_feasible; eauto. }
  split; [exact Hst|]. subst st'. intros m j. apply build_unassigned.
Qed.

Lemma no_feasible_bound_leaves_schedule_witness :
  build Qdoctest = build Qdoctest /\
  forall m j, assigned (build Qdoctest) m j = false.
Proof.
  apply (@no_feasible_bound_leaves_schedule Q Q_Arith (never_optimal Q) 100 Qdoctest
           (build Qdoctest)).
  - vm_compute. reflexivity.
  - intros b Hb. vm_compute in Hb.
    repeat (destruct Hb as [<- | Hb]; [reflexivity|]). destruct Hb.
Defined.

(** C4 as stated fails.  On the doctest costs with a solver that never
    reaches 'optimal', no bound is reported feasible, the run ends
    normally, and its makespan result is 0; the greedy result is 3. *)
Lemma no_greedy_fallback :
  let run := MinMakespan (apprx (engines := never_optimal Q) 100) Qdoctest
                         scedual_makespan.extract_result in
  let greedy_run := MinMakespan greedy_algo Qdoctest scedual_makespan.extract_result in
  existsb (fun b => b) (reports (engines := never_optimal Q) 100 (build Qdoctest)) = false /\
  option_map snd run = Some (Ok 0%Q) /\
  option_map snd greedy_run = Some (Ok 3%Q) /\
  option_map snd run <> option_map snd greedy_run.
Proof.
  intros run greedy_run. repeat split.
  intros Heq. vm_compute in Heq. discriminate.
Qed.

(** ** The search on binary64 numbers *)

Section FailingOracle.
Context {num : Type} {arith : Arith num} {engines : Engines num}.
Variables (upper : num) (st : Scedual num).
Hypothesis oracle_fails : LinearProgram upper st = (st, Ok false).

(** While the oracle fails, neither [upper] nor the schedule changes, so it
    fails again in the next iteration. *)
Lemma apprx_loop_failing (fuel : nat) (lower : num) :
  leb lower upper = true ->
  apprx_loop (S fuel) lower upper st = apprx_loop fuel (next_lower upper lower) upper st.
Proof.
  intros Hle. cbn [apprx_loop]. rewrite Hle.
  unfold apprx_iteration, bind. rewrite oracle_fails. reflexivity.
Qed.

(** If the failing iterations keep [lower <= upper] until [lower] reaches
    a value from which the loop never ends, the loop never ends. *)
Lemma failing_chain (k : nat) :
  forall lower : num,
    (forall i, i < k -> leb (Nat.iter i (next_lower upper) lower) upper = true) ->
    (forall fuel, apprx_loop fuel (Nat.iter k (next_lower upper) lower) upper st = None) ->
    forall fuel, apprx_loop fuel lower upper st = None.
Proof.
  induction k as [|k IH]; intros lower Hle Hstuck fuel; [apply Hstuck|].
  assert (Hle0 : leb lower upper = true) by (apply (Hle 0); lia).
  destruct fuel as [|fuel].
  - cbn [apprx_loop]. rewrite Hle0. reflexivity.
  - rewrite apprx_loop_failing by exact Hle0.
    apply IH.
    + intros i Hi. rewrite <- Nat.iter_succ_r. apply Hle. lia.
    + intros fuel'. rewrite <- Nat.iter_succ_r. apply Hstuck.
Qed.

Lemma failing_fixpoint (lower : num) :
  leb lower upper = true -> next_lower upper lower = lower ->
  forall fuel, apprx_loop fuel lower upper st = None.
Proof.
  intros Hle Hfix fuel. induction fuel as [|fuel IH].
  - cbn [apprx_loop]. rewrite Hle. reflexivity.
  - rewrite apprx_loop_failing by exact Hle. rewrite Hfix. exact IH.
Qed.
End FailingOracle.

(** The search on binary64 numbers of ordinary size ends: costs
    [[1,5],[5,1]], each job put on its own machine by the solver. *)
Lemma binary_search_ends_on_small_floats :
  apprx (engines := constant_solver b64_identity) 20 (build (b64costs [[1; 5]; [5; 1]]%Z))
  = Some (mkScedual (b64costs [[1; 5]; [5; 1]]%Z) [[true; false]; [false; true]], Ok tt).
Proof. vm_compute. reflexivity. Qed.

(** C9.  On Python's numbers (binary64) the loop of [apprx] does not end
    for every input: the step 0.0001 is absolute, and rounding absorbs it
    when the bounds are large.  Costs 1e20 * [[1,5],[5,1]]: greedy gives
    upper = 1e20 and lower = 5e19.  At bound 1e20 each job has one
    eligible machine, and each job on its own machine is the only optimal
    answer of the program built; the rounder sets (0,0) and (1,1) and
    upper becomes 7.5e19.  From then on no machine can do job 0 within
    upper, the oracle returns False without calling the solver, and lower
    moves up.  After 52 iterations lower = upper = 7.5e19, and
    (7.5e19 + 7.5e19) / 2 + 0.0001 is 7.5e19 again: [lower <= upper] holds
    for ever, whatever the number of iterations allowed.  With a solver
    that reports no optimum at all the loop does not end either: upper
    stays 1e20 and lower is stuck at 1e20 after 53 iterations. *)
Lemma binary_search_stuck_on_floats :
  let engines := constant_solver b64_identity in
  let st1 := mkScedual b64_huge [[true; false]; [false; true]] in
  greedy_bounds (build b64_huge) = Ok (b64_lower, b64_upper) /\
  (exists p, build_problem (build b64_huge) b64_upper = Some p /\
             feasible p b64_identity [[true; false]; [false; true]] = true) /\
  apprx_iteration (engines := engines) b64_lower b64_upper (build b64_huge)
  = (st1, Ok (true, (b64_lower, b64_upper_next))) /\
  build_problem st1 b64_upper_next = None /\
  Nat.iter 52 (next_lower b64_upper_next) b64_lower = b64_upper_next /\
  next_lower b64_upper_next b64_upper_next = b64_upper_next /\
  (~ exists fuel, apprx (engines := engines) fuel (build b64_huge) <> None) /\
  (~ exists fuel, apprx (engines := never_optimal spec_float) fuel (build b64_huge) <> None).
Proof.
  intros engines st1.
  assert (Hbounds : greedy_bounds (build b64_huge) = Ok (b64_lower, b64_upper))
    by (vm_compute; reflexivity).
  assert (Hfirst : apprx_iteration (engines := engines) b64_lower b64_upper (build b64_huge)
                   = (st1, Ok (true, (b64_lower, b64_upper_next))))
    by (vm_compute; reflexivity).
  assert (Hnone : build_problem st1 b64_upper_next = None)
    by (vm_compute; reflexivity).
  assert (Hreach : Nat.iter 52 (next_lower b64_upper_next) b64_lower = b64_upper_next)
    by (vm_compute; reflexivity).
  assert (Hfix : next_lower b64_upper_next b64_upper_next = b64_upper_next)
    by (vm_compute; reflexivity).
  split; [exact Hbounds|].
  split; [eexists; split; vm_compute; reflexivity|].
  split; [exact Hfirst|].
  split; [exact Hnone|].
  split; [exact Hreach|].
  split; [exact Hfix|].
  assert (Hfails : LinearProgram (engines := engines) b64_upper_next st1 = (st1, Ok false)).
  { unfold LinearProgram. rewrite Hnone. reflexivity. }
  assert (Hstuck : forall fuel,
             apprx_loop (engines := engines) fuel b64_lower b64_upper_next st1 = None).
  { apply (@failing_chain _ _ _ _ _ Hfails 52).
    - assert (Hall : forallb (fun i => leb (Nat.iter i (next_lower b64_upper_next) b64_lower)
                                          b64_upper_next) (seq 0 52) = true)
        by (vm_compute; reflexivity).
      rewrite forallb_forall in Hall.
      intros i Hi. apply Hall. apply in_seq. lia.
    - rewrite Hreach. apply (@failing_fixpoint _ _ _ _ _ Hfails); [reflexivity | exact Hfix]. }
  split.
  - intros [fuel Hends]. apply Hends. unfold apprx. rewrite Hbounds.
    destruct fuel as [|fuel]; [reflexivity|].
    cbn [apprx_loop].
    change (leb b64_lower b64_upper) with true. cbv iota.
    rewrite Hfirst. apply Hstuck.
  - assert (Hnever : LinearProgram (engines := never_optimal spec_float) b64_upper
                                   (build b64_huge)
                     = (build b64_huge, Ok false))
      by (vm_compute; reflexivity).
    intros [fuel Hends]. apply Hends. unfold apprx. rewrite Hbounds.
    apply (@failing_chain _ _ _ _ _ Hnever 53).
    + assert (Hall : forallb (fun i => leb (Nat.iter i (next_lower b64_upper) b64_lower)
                                            b64_upper) (seq 0 53) = true)
        by (vm_compute; reflexivity).
      rewrite forallb_forall in Hall.
      intros i Hi. apply Hall. apply in_seq. lia.
    + assert (Hreach' : Nat.iter 53 (next_lower b64_upper) b64_lower = b64_upper)
        by (vm_compute; reflexivity).
      rewrite Hreach'.
      apply (@failing_fixpoint _ _ _ _ _ Hnever); vm_compute; reflexivity.
Qed.

(** ** The program built by the oracle *)

Section OracleFacts.
Context {num : Type} {arith : Arith num}.

(** Every load constraint that the oracle writes weighs its variables
    by one. *)
Lemma mechine_constraints_unweighted (st : Scedual num) (apprx_bound : num)
      (c : Constraint num) :
  In c (mechine_constraints st apprx_bound) ->
  exists mechine, c = CLe (sum_of (map (fun j => (mechine, j))
                                       (mechine_mask st apprx_bound mechine)))
                          apprx_bound.
Proof.
  unfold mechine_constraints. intros Hin. apply in_flat_map in Hin.
  destruct Hin as (mechine & _ & Hin). exists mechine.
  destruct (mechine_mask st apprx_bound mechine) as [|j r]; [destruct Hin|].
  destruct Hin as [<- | []]. reflexivity.
Qed.
End OracleFacts.

(** C2 on costs [[2,2],[2,2]] at bound 2, the greedy makespan.  The load
    constraint written for machine 0 is x00 + x01 <= 2; the cost-weighted
    2*x00 + 2*x01 <= 2 is not among the constraints.  Putting both jobs on
    machine 0 satisfies every constraint written, and breaks the weighted
    one. *)
Lemma load_constraint_is_unweighted :
  let st := build Q2222 in
  let actives := [[true; true]; [false; false]] in
  greedy_bounds st = Ok ((2 # 2)%Q, 2%Q) /\
  exists p, build_problem st 2%Q = Some p /\
            In (CLe (Sum [(1%Q, (0, 0)); (1%Q, (0, 1))]) 2%Q) (constraints p) /\
            paper_load_constraint st 2%Q 0
            = CLe (Sum [(2%Q, (0, 0)); (2%Q, (0, 1))]) 2%Q /\
            ~ In (paper_load_constraint st 2%Q 0) (constraints p) /\
            feasible p Qboth_on_first actives = true /\
            satisfies Qboth_on_first actives (paper_load_constraint st 2%Q 0) = false.
Proof.
  intros st actives. split; [vm_compute; reflexivity|].
  eexists. split; [vm_compute; reflexivity|].
  split; [vm_compute; auto 10|].
  split; [vm_compute; reflexivity|].
  split; [|split; vm_compute; reflexivity].
  intros Hin. vm_compute in Hin.
  repeat (destruct Hin as [Hin | Hin]; [discriminate Hin|]). exact Hin.
Qed.

(** ** Coverage *)

(** Every candidate that the program for [Q15] admits has objective at
    least 1: job 0 must be wholly on machine 0. *)
Lemma Q15_problem_objective (x : matrix Q) (a : matrix bool) :
  feasible Q15_problem x a = true ->
  (1 <= eval_expr x (minimize Q15_problem))%Q.
Proof.
  unfold feasible, Q15_problem. cbn [constraints minimize forallb].
  intros Hf.
  do 3 (apply andb_prop in Hf; destruct Hf as [_ Hf]).
  apply andb_prop in Hf. destruct Hf as [Hrow0 _].
  revert Hrow0.
  unfold satisfies, eval_expr, eval_terms, py_sum, py_max.
  cbn [map fold_left py_max_from fst snd].
  generalize (value_at x (0, 0)) (value_at x (1, 0)). intros v0 v1 Heq.
  apply Qeq_bool_iff in Heq. simpl in Heq. simpl.
  destruct (Qle_bool (0 + 1 * v1) (0 + 1 * v0)) eqn:Hcmp; simpl.
  - lra.
  - apply Q_leb_false in Hcmp. lra.
Qed.

(** Coverage after rounding rests on the solver's choice.  Costs
    [[1],[5]]: greedy puts the job on machine 0, so the search starts at
    upper = 1, where only machine 0 is eligible.  The program built leaves
    x[1][0] free: x = [[1],[1]] satisfies it and is optimal, and so is
    x = [[1],[0]].  With a solver that returns the former, [Round] sets
    both (0,0) and (1,0) and the run ends normally with job 0 on two
    machines; with one that returns the latter, job 0 is on machine 0
    alone.  The source does not say which answer the solver gives. *)
Lemma coverage_rests_on_solver :
  let final := mkScedual Q15 [[true]; [true]] in
  let final' := mkScedual Q15 [[true]; [false]] in
  greedy_bounds (build Q15) = Ok ((1 # 2)%Q, 1%Q) /\
  build_problem (build Q15) 1%Q = Some Q15_problem /\
  feasible Q15_problem Qones [[true]; [true]] = true /\
  feasible Q15_problem Qfirst_only [[true]; [false]] = true /\
  (forall x a, feasible Q15_problem x a = true ->
               (eval_expr Qones (minimize Q15_problem)
                <= eval_expr x (minimize Q15_problem))%Q /\
               (eval_expr Qfirst_only (minimize Q15_problem)
                <= eval_expr x (minimize Q15_problem))%Q) /\
  apprx (engines := constant_solver Qones) 100 (build Q15) = Some (final, Ok tt) /\
  column_count final 0 = 2 /\
  apprx (engines := constant_solver Qfirst_only) 100 (build Q15) = Some (final', Ok tt) /\
  column_count final' 0 = 1.
Proof.
  intros final final'.
  split; [vm_compute; reflexivity|].
  split; [vm_compute; reflexivity|].
  split; [vm_compute; reflexivity|].
  split; [vm_compute; reflexivity|].
  split.
  - intros x a Hf. apply Q15_problem_objective in Hf.
    change (eval_expr Qones (minimize Q15_problem)) with ((0 + 1 * 1)%Q).
    change (eval_expr Qfirst_only (minimize Q15_problem)) with ((0 + 1 * 1)%Q).
    split; lra.
  - repeat split; vm_compute; reflexivity.
Qed.

(** Coverage on the greedy path: a greedy run on a freshly built
    schedule returns normally and leaves exactly one true entry in every
    job column. *)
Lemma greedy_run_covers :
  forall (num : Type) (A : Arith num) (c : ValuationMatrix num),
  exists st, MinMakespan greedy_algo c scedual_assignment.extract_result
             = Some (st, scedual_assignment.extract_result st) /\
             forall job, job < Jobs st -> column_count st job = 1.
Proof.
  intros num A c. destruct (greedy_coverage c) as (st & Hrun & _ & _ & Hcov).
  exists st. split; [|exact Hcov].
  unfold MinMakespan, greedy_algo. rewrite Hrun. reflexivity.
Qed.


(** ** The doctests of the source, replayed *)

Example doctest_scedual_assignment :
  scedual_assignment.extract_result doctest_scedual = Ok [(0, 0); (1, 1)].
Proof. reflexivity. Qed.

Example doctest_scedual_makespan :
  scedual_makespan.extract_result doctest_scedual = Ok 1%Q /\
  scedual_makespan.extract_result (fst (scedual 0 1 doctest_scedual)) = Ok 2%Q.
Proof. split; vm_compute; reflexivity. Qed.

Example doctest_greedy_makespan :
  map (fun rows => option_map snd
                     (MinMakespan greedy_algo (Qcosts rows) scedual_makespan.extract_result))
      [[[1; 2; 5]; [2; 2; 1]; [2; 3; 5]];
       [[1; 2; 1]; [4; 2; 4]; [2; 3; 2]];
       [[1; 2; 1]; [4; 2; 4]; [2; 3; 2]; [3; 1; 2]];
       [[1; 5; 1; 10]; [2; 4; 4; 3]; [2; 5; 3; 3]; [3; 3; 7; 10]]]%Z
  = [Some (Ok 3%Q); Some (Ok 2%Q); Some (Ok 2%Q); Some (Ok 3%Q)].
Proof. vm_compute. reflexivity. Qed.

Example doctest_greedy_assignment :
  map (fun rows => option_map snd
                     (MinMakespan greedy_algo (Qcosts rows) scedual_assignment.extract_result))
      [[[1; 2; 5]; [2; 2; 1]; [2; 3; 5]];
       [[1; 2; 1]; [4; 2; 4]; [2; 3; 2]];
       [[1; 2; 1]; [4; 2; 4]; [2; 3; 2]; [3; 1; 2]];
       [[1; 5; 1; 10]; [2; 4; 4; 3]; [2; 5; 3; 3]; [3; 3; 7; 10]]]%Z
  = [Some (Ok [(0, 0); (1, 1); (1, 2)]);
     Some (Ok [(0, 0); (0, 2); (1, 1)]);
     Some (Ok [(0, 0); (0, 2); (3, 1)]);
     Some (Ok [(0, 0); (0, 2); (1, 3); (3, 1)])].
Proof. vm_compute. reflexivity. Qed.

(** [node_to_int] reads the character at index 1 only. *)
Example node_to_int_one_digit :
  node_to_int (int_to_node 7 false) = Ok 7 /\
  node_to_int (int_to_node 12 true) = Ok 1 /\
  node_to_int "M" = Raise IndexError.
Proof. repeat split. Qed.


(** * Further properties of the schedule object *)

(** ** Iteration over the cells *)

Lemma in_product {A B} (xs : list A) (ys : list B) (x : A) (y : B) :
  In (x, y) (product xs ys) <-> In x xs /\ In y ys.
Proof.
  unfold product. rewrite in_flat_map. split.
  - intros (x' & Hx' & Hin). apply in_map_iff in Hin.
    destruct Hin as (y' & Heq & Hy'). inversion Heq; subst. auto.
  - intros [Hx Hy]. exists x. split; [exact Hx|]. apply in_map. exact Hy.
Qed.

Lemma NoDup_product {A B} (xs : list A) (ys : list B) :
  NoDup xs -> NoDup ys -> NoDup (product xs ys).
Proof.
  intros Hxs Hys. induction Hxs as [|x xs Hx Hxs IH]; simpl; [constructor|].
  change (NoDup (map (fun y => (x, y)) ys ++ product xs ys)).
  apply NoDup_app.
  - apply Finite.Injective_map_NoDup; [|exact Hys].
    intros y1 y2 Heq. now inversion Heq.
  - exact IH.
  - intros [x' y'] Hin1 Hin2. apply in_map_iff in Hin1.
    destruct Hin1 as (y0 & Heq & _). inversion Heq; subst.
    apply in_product in Hin2. destruct Hin2 as [Hin2 _]. contradiction.
Qed.

Section ExtractionFacts.
Context {num : Type} {arith : Arith num}.

Lemma in_iter_cells (st : Scedual num) m j :
  In (m, j) (iter_cells st) <-> m < Mechines st /\ j < Jobs st.
Proof.
  unfold iter_cells, agents, objects, range, Mechines, Jobs.
  rewrite in_product, !in_seq. lia.
Qed.

(** On a well-shaped schedule the extraction of [scedual_assignment]
    returns the cells of the iteration whose entry is true. *)
Lemma extract_assignment_total (st : Scedual num) :
  well_shaped st ->
  scedual_assignment.extract_result st
  = Ok (filter (fun mj => assigned st (fst mj) (snd mj)) (iter_cells st)).
Proof.
  intros Hws. unfold scedual_assignment.extract_result.
  rewrite (@rmap_total _ _ _ (fun mj => (mj, assigned st (fst mj) (snd mj)))).
  - simpl. f_equal. induction (iter_cells st) as [|mj r IH]; simpl; auto.
    destruct (assigned st (fst mj) (snd mj)); simpl; now rewrite IH.
  - intros [m j] Hin. apply in_iter_cells in Hin. simpl.
    rewrite well_shaped_cell by tauto. reflexivity.
Qed.

Lemma clear_unassigned (st : Scedual num) m j : assigned (clear st) m j = false.
Proof. apply (build_unassigned (costs st)). Qed.
End ExtractionFacts.

(** X1. [clear] gives a schedule of the shape of the cost matrix, over
    the same costs, with no cell set: the extracted set of pairs is
    empty. *)
Theorem clear_is_empty :
  forall (num : Type) (A : Arith num) (st : Scedual num),
    well_shaped (clear st) /\
    costs (clear st) = costs st /\
    (forall m j, assigned (clear st) m j = false) /\
    scedual_assignment.extract_result (clear st) = Ok [].
Proof.
  intros num A st. split; [apply clear_well_shaped|]. split; [reflexivity|].
  split; [apply clear_unassigned|].
  rewrite extract_assignment_total by apply clear_well_shaped.
  f_equal. induction (iter_cells (clear st)) as [|mj r IH]; simpl; auto.
  now rewrite clear_unassigned.
Qed.

(** X2. On a schedule of the right shape, the extraction of
    [scedual_assignment] returns, without repetition, exactly the pairs
    (mechine, job) inside the matrix whose cell is true. *)
Theorem assignment_pairs_exact :
  forall (num : Type) (A : Arith num) (st : Scedual num),
    well_shaped st ->
    exists pairs,
      scedual_assignment.extract_result st = Ok pairs /\
      NoDup pairs /\
      forall m j, In (m, j) pairs <->
                  m < Mechines st /\ j < Jobs st /\
                  cell (assignments st) m j = Ok true.
Proof.
  intros num A st Hws. eexists. split; [apply extract_assignment_total, Hws|]. split.
  - apply NoDup_filter. apply NoDup_product; apply seq_NoDup.
  - intros m j. rewrite filter_In, in_iter_cells. simpl. split.
    + intros [[Hm Hj] Ha]. repeat split; auto.
      rewrite well_shaped_cell by auto. now rewrite Ha.
    + intros (Hm & Hj & Hc). split; [auto|]. unfold assigned. now rewrite Hc.
Qed.

Lemma assignment_pairs_exact_witness :
  exists pairs,
    scedual_assignment.extract_result doctest_scedual = Ok pairs /\
    NoDup pairs /\
    forall m j, In (m, j) pairs <->
                m < Mechines doctest_scedual /\ j < Jobs doctest_scedual /\
                cell (assignments doctest_scedual) m j = Ok true.
Proof.
  apply (@assignment_pairs_exact Q Q_Arith doctest_scedual).
  split; [reflexivity | repeat constructor].
Defined.

(** X3. After a successful [scedual(mechine, job)] on a schedule of the
    right shape, the extracted set is the former set with (mechine, job)
    added; the pair was not in it before. *)
Theorem scedual_adds_pair :
  forall (num : Type) (A : Arith num) (st st' : Scedual num) (mechine job : nat)
         (before : list (nat * nat)),
    well_shaped st ->
    scedual_assignment.extract_result st = Ok before ->
    scedual mechine job st = (st', Ok tt) ->
    exists after,
      scedual_assignment.extract_result st' = Ok after /\
      ~ In (mechine, job) before /\
      forall m j, In (m, j) after <-> (m, j) = (mechine, job) \/ In (m, j) before.
Proof.
  intros num A st st' m0 j0 before Hws Hbefore Hrun.
  unfold scedual in Hrun.
  destruct (cell (assignments st) m0 j0) as [[|]|e] eqn:Hc; inversion Hrun; subst; clear Hrun.
  fold (assign st m0 j0).
  assert (Hm0 : m0 < Mechines st /\ j0 < Jobs st).
  { destruct Hws as [Hlen Hrows]. unfold cell in Hc.
    destruct (nth_error (assignments st) m0) as [row|] eqn:Hrow; [|discriminate].
    destruct (nth_error row j0) as [b|] eqn:Hb; [|discriminate].
    split.
    - rewrite <- Hlen. apply nth_error_Some. congruence.
    - rewrite Forall_forall in Hrows. rewrite <- (Hrows row).
      + apply nth_error_Some. congruence.
      + eapply nth_error_In; eauto. }
  destruct Hm0 as [Hm0 Hj0].
  rewrite extract_assignment_total in Hbefore by exact Hws. inversion Hbefore; subst.
  eexists. split; [apply extract_assignment_total, assign_well_shaped, Hws|]. split.
  - rewrite filter_In. simpl. unfold assigned. rewrite Hc. intros [_ H]. discriminate.
  - intros m j. rewrite !filter_In. simpl.
    change (iter_cells (assign st m0 j0)) with (iter_cells st).
    rewrite assigned_assign by auto. rewrite in_iter_cells.
    destruct (Nat.eqb_spec m m0) as [->|Hm]; simpl.
    + destruct (Nat.eqb_spec j j0) as [->|Hj]; simpl.
      * split; auto.
      * split; [tauto|]. intros [Heq | H]; [inversion Heq; congruence | exact H].
    + split; [tauto|]. intros [Heq | H]; [inversion Heq; congruence | exact H].
Qed.

Lemma scedual_adds_pair_witness :
  exists after,
    scedual_assignment.extract_result
      (mkScedual (costs doctest_scedual) (set_cell (assignments doctest_scedual) 0 1 true))
    = Ok after /\
    ~ In (0, 1) [(0, 0); (1, 1)] /\
    forall m j, In (m, j) after <-> (m, j) = (0, 1) \/ In (m, j) [(0, 0); (1, 1)].
Proof.
  apply (@scedual_adds_pair Q Q_Arith doctest_scedual _ 0 1 [(0, 0); (1, 1)]).
  - split; [reflexivity | repeat constructor].
  - reflexivity.
  - reflexivity.
Defined.

(** X4. On a schedule of the right shape, [scedual] with a machine or a
    job index beyond the matrix raises [IndexError] and leaves the schedule
    as it was. *)
Theorem scedual_out_of_range :
  forall (num : Type) (A : Arith num) (st : Scedual num) (mechine job : nat),
    well_shaped st ->
    Mechines st <= mechine \/ Jobs st <= job ->
    scedual mechine job st = (st, Raise IndexError).
Proof.
  intros num A st m j [Hlen Hrows] Hout. unfold scedual, cell.
  destruct (nth_error (assignments st) m) as [row|] eqn:Hrow; [|reflexivity].
  assert (Hm : m < Mechines st).
  { rewrite <- Hlen. apply nth_error_Some. congruence. }
  destruct Hout as [Hout | Hout]; [lia|].
  rewrite Forall_forall in Hrows.
  assert (Hl : length row = Jobs st) by (apply Hrows; eapply nth_error_In; eauto).
  destruct (nth_error row j) as [b|] eqn:Hb; [|reflexivity].
  assert (j < length row) by (apply nth_error_Some; congruence). lia.
Qed.

Lemma scedual_out_of_range_witness :
  scedual 2 0 doctest_scedual = (doctest_scedual, Raise IndexError).
Proof.
  apply (@scedual_out_of_range Q Q_Arith doctest_scedual 2 0).
  - split; [reflexivity | repeat constructor].
  - left. unfold Mechines, num_of_agents. simpl. lia.
Defined.

(** ** Sums over exact numbers *)

Lemma fold_left_Qplus_acc (l : list Q) (a : Q) :
  (fold_left Qplus l a == a + fold_left Qplus l 0)%Q.
Proof.
  revert a. induction l as [|x r IH]; intros a; simpl.
  - lra.
  - rewrite (IH (a + x)%Q), (IH (0 + x)%Q). lra.
Qed.

Lemma py_sum_cons (x : Q) (l : list Q) : (py_sum (x :: l) == x + py_sum l)%Q.
Proof.
  unfold py_sum. simpl. rewrite fold_left_Qplus_acc. lra.
Qed.

Lemma py_sum_app (l1 l2 : list Q) : (py_sum (l1 ++ l2) == py_sum l1 + py_sum l2)%Q.
Proof.
  induction l1 as [|x r IH]; simpl.
  - unfold py_sum at 2. simpl. lra.
  - rewrite !py_sum_cons, IH. lra.
Qed.

Lemma py_sum_nonneg (l : list Q) :
  (forall x, In x l -> (0 <= x)%Q) -> (0 <= py_sum l)%Q.
Proof.
  induction l as [|x r IH]; intros Hpos.
  - unfold py_sum. simpl. lra.
  - rewrite py_sum_cons.
    assert (0 <= x)%Q by (apply Hpos; left; reflexivity).
    assert (0 <= py_sum r)%Q by (apply IH; intros; apply Hpos; right; assumption).
    lra.
Qed.

Lemma py_sum_ge_member (l : list Q) (x : Q) :
  (forall y, In y l -> (0 <= y)%Q) -> In x l -> (x <= py_sum l)%Q.
Proof.
  induction l as [|y r IH]; intros Hpos Hin; [destruct Hin|].
  rewrite py_sum_cons. destruct Hin as [-> | Hin].
  - assert (0 <= py_sum r)%Q
      by (apply py_sum_nonneg; intros; apply Hpos; right; assumption).
    lra.
  - assert (0 <= y)%Q by (apply Hpos; left; reflexivity).
    assert (x <= py_sum r)%Q by (apply IH; auto; intros; apply Hpos; right; assumption).
    lra.
Qed.

(** Adding one index to a selection adds its term to the sum. *)
Lemma py_sum_filter_insert (c : nat -> Q) (p : nat -> bool) (j : nat) (l : list nat) :
  NoDup l -> p j = false ->
  (py_sum (map c (filter (fun x => (x =? j) || p x) l))
   == py_sum (map c (filter p l)) + (if in_dec Nat.eq_dec j l then c j else 0))%Q.
Proof.
  intros Hnd Hpj. induction Hnd as [|x r Hx Hnd IH]; simpl.
  - unfold py_sum. simpl. lra.
  - destruct (Nat.eqb_spec x j) as [Heq|Hne]; simpl.
    + subst x. rewrite Hpj. destruct (Nat.eq_dec j j) as [e|]; [|congruence].
      rewrite py_sum_cons, IH.
      destruct (in_dec Nat.eq_dec j r) as [Hin|_]; [contradiction|]. lra.
    + destruct (Nat.eq_dec x j) as [|n]; [congruence|].
      destruct (p x); simpl.
      * rewrite !py_sum_cons, IH.
        destruct (in_dec Nat.eq_dec j r); lra.
      * rewrite IH. destruct (in_dec Nat.eq_dec j r); lra.
Qed.

(** A table of integers that are not negative has no negative cost. *)
Lemma Qcosts_nonneg (rows : list (list Z)) :
  Forall (Forall (fun z => (0 <= z)%Z)) rows -> nonneg_costs (Qcosts rows).
Proof.
  intros Hrows m j. unfold vm_at, Qcosts. simpl.
  destruct (nth_in_or_default m (map (map inject_Z) rows) []) as [Hin | Hd].
  - apply in_map_iff in Hin. destruct Hin as (row & Hrow & Hin). rewrite <- Hrow.
    rewrite Forall_forall in Hrows. specialize (Hrows row Hin).
    destruct (nth_in_or_default j (map inject_Z row) 0%Q) as [Hin' | Hd'].
    + apply in_map_iff in Hin'. destruct Hin' as (z & Hz & Hin'). rewrite <- Hz.
      rewrite Forall_forall in Hrows. specialize (Hrows z Hin').
      unfold Qle. simpl. lia.
    + rewrite Hd'. apply Qle_refl.
  - rewrite Hd. destruct j; apply Qle_refl.
Qed.

(** ** Loads and makespan under an assignment *)

Section AssignFacts.
Context {num : Type} {arith : Arith num}.

(** What a successful [scedual] says about its arguments. *)
Lemma scedual_success (st st' : Scedual num) m j :
  well_shaped st -> scedual m j st = (st', Ok tt) ->
  m < Mechines st /\ j < Jobs st /\ assigned st m j = false /\ st' = assign st m j.
Proof.
  intros [Hlen Hrows] Hrun. unfold scedual in Hrun.
  destruct (cell (assignments st) m j) as [[|]|e] eqn:Hc; inversion Hrun; subst; clear Hrun.
  unfold cell in Hc.
  destruct (nth_error (assignments st) m) as [row|] eqn:Hrow; [|discriminate].
  destruct (nth_error row j) as [b|] eqn:Hb; [|discriminate].
  inversion Hc; subst. repeat split.
  - rewrite <- Hlen. apply nth_error_Some. congruence.
  - rewrite Forall_forall in Hrows. rewrite <- (Hrows row).
    + apply nth_error_Some. congruence.
    + eapply nth_error_In; eauto.
  - unfold assigned, cell. now rewrite Hrow, Hb.
Qed.

Lemma load_assign_other (st : Scedual num) m j m' :
  well_shaped st -> m < Mechines st -> j < Jobs st -> m' <> m ->
  load (assign st m j) m' = load st m'.
Proof.
  intros Hws Hm Hj Hne. unfold load.
  change (Jobs (assign st m j)) with (Jobs st).
  change (costs (assign st m j)) with (costs st).
  f_equal. f_equal. apply filter_ext. intros j'.
  rewrite assigned_assign by auto.
  destruct (Nat.eqb_spec m' m); [congruence|]. reflexivity.
Qed.
End AssignFacts.

Lemma load_assign_same (st : Scedual Q) m j :
  well_shaped st -> m < Mechines st -> j < Jobs st -> assigned st m j = false ->
  (load (assign st m j) m == load st m + vm_at (costs st) m j)%Q.
Proof.
  intros Hws Hm Hj Hfree. unfold load.
  change (Jobs (assign st m j)) with (Jobs st).
  change (costs (assign st m j)) with (costs st).
  rewrite (filter_ext (assigned (assign st m j) m)
                      (fun x => (x =? j) || assigned st m x)).
  2:{ intros j'. rewrite assigned_assign by auto. rewrite Nat.eqb_refl. simpl.
      destruct (j' =? j); reflexivity. }
  rewrite py_sum_filter_insert by (auto; apply seq_NoDup).
  destruct (in_dec Nat.eq_dec j (range (Jobs st))) as [_|Hout]; [reflexivity|].
  exfalso. apply Hout. apply in_seq. lia.
Qed.

(** X5. A successful [scedual(mechine, job)] raises the load of that
    machine by cost(mechine, job) and leaves the load of every other
    machine as it was. *)
Theorem load_after_scedual :
  forall (st st' : Scedual Q) (mechine job : nat),
    well_shaped st ->
    scedual mechine job st = (st', Ok tt) ->
    exists l l',
      loadOf st mechine = Ok l /\ loadOf st' mechine = Ok l' /\
      (l' == l + vm_at (costs st) mechine job)%Q /\
      forall m', m' < Mechines st -> m' <> mechine -> loadOf st' m' = loadOf st m'.
Proof.
  intros st st' m j Hws Hrun.
  destruct (scedual_success _ _ Hws Hrun) as (Hm & Hj & Hfree & ->).
  pose proof (assign_well_shaped m j Hws) as Hws'.
  exists (load st m), (load (assign st m j) m). repeat split.
  - apply loadOf_total; auto.
  - apply loadOf_total; auto.
  - apply load_assign_same; auto.
  - intros m' Hm' Hne. rewrite !loadOf_total by auto.
    rewrite load_assign_other by auto. reflexivity.
Qed.

Lemma load_after_scedual_witness :
  exists l l',
    loadOf doctest_scedual 0 = Ok l /\
    loadOf (assign doctest_scedual 0 1) 0 = Ok l' /\
    (l' == l + vm_at (costs doctest_scedual) 0 1)%Q /\
    forall m', m' < Mechines doctest_scedual -> m' <> 0 ->
               loadOf (assign doctest_scedual 0 1) m' = loadOf doctest_scedual m'.
Proof.
  apply (@load_after_scedual doctest_scedual (assign doctest_scedual 0 1) 0 1).
  - split; [reflexivity | repeat constructor].
  - reflexivity.
Defined.

(** The makespan of a schedule with a machine is the load of one of its
    machines and bounds the load of each. *)
Lemma makespan_of_loads (st : Scedual Q) :
  well_shaped st -> 0 < Mechines st ->
  exists v, scedual_makespan.extract_result st = Ok v /\
            (exists m, m < Mechines st /\ v = load st m) /\
            (forall m, m < Mechines st -> (load st m <= v)%Q).
Proof.
  intros Hws HM. unfold scedual_makespan.extract_result.
  rewrite (@rmap_total _ _ _ (load st)).
  2:{ intros m Hm. apply in_seq in Hm.
      rewrite assigned_costs_total.
      - reflexivity.
      - exact Hws.
      - lia.
      - intros j Hj. apply in_seq in Hj. lia. }
  unfold range. destruct (Mechines st) as [|M] eqn:EM; [lia|].
  change (seq 0 (S M)) with (0 :: seq 1 M). simpl.
  destruct (py_max_from_spec (load st 0) (map (load st) (seq 1 M))) as (Hin & Hle & Hall).
  eexists. split; [reflexivity|]. split.
  - destruct Hin as [Heq | Hin].
    + exists 0. split; [lia | exact Heq].
    + apply in_map_iff in Hin. destruct Hin as (m & Hm & Hmin).
      apply in_seq in Hmin. exists m. split; [lia | now rewrite Hm].
  - intros m Hm. destruct m as [|m]; [exact Hle|].
    apply Hall. apply in_map. apply in_seq. lia.
Qed.

(** X6. With costs that are not negative, a successful
    [scedual(mechine, job)] does not lower the makespan and raises it by
    at most cost(mechine, job). *)
Theorem makespan_after_scedual :
  forall (st st' : Scedual Q) (mechine job : nat),
    nonneg_costs (costs st) ->
    well_shaped st ->
    scedual mechine job st = (st', Ok tt) ->
    exists v v',
      scedual_makespan.extract_result st = Ok v /\
      scedual_makespan.extract_result st' = Ok v' /\
      (v <= v')%Q /\ (v' <= v + vm_at (costs st) mechine job)%Q.
Proof.
  intros st st' m j Hpos Hws Hrun.
  destruct (scedual_success _ _ Hws Hrun) as (Hm & Hj & Hfree & ->).
  pose proof (assign_well_shaped m j Hws) as Hws'.
  assert (HM : 0 < Mechines st) by lia.
  destruct (makespan_of_loads Hws HM) as (v & Hv & (mv & Hmv & Hveq) & Hvall).
  destruct (@makespan_of_loads (assign st m j) Hws' HM) as (v' & Hv' & (mv' & Hmv' & Hveq') & Hvall').
  pose proof (load_assign_same Hws Hm Hj Hfree) as Hsame.
  pose proof (Hpos m j) as Hc.
  exists v, v'. repeat split; auto.
  - subst v. destruct (Nat.eq_dec mv m) as [->|Hne].
    + specialize (Hvall' m Hm). lra.
    + specialize (Hvall' mv Hmv). rewrite load_assign_other in Hvall' by auto. exact Hvall'.
  - subst v'. destruct (Nat.eq_dec mv' m) as [->|Hne].
    + specialize (Hvall m Hm). lra.
    + rewrite load_assign_other by auto. specialize (Hvall mv' Hmv'). lra.
Qed.

Lemma makespan_after_scedual_witness :
  exists v v',
    scedual_makespan.extract_result doctest_scedual = Ok v /\
    scedual_makespan.extract_result (assign doctest_scedual 0 1) = Ok v' /\
    (v <= v')%Q /\ (v' <= v + vm_at (costs doctest_scedual) 0 1)%Q.
Proof.
  apply (@makespan_after_scedual doctest_scedual (assign doctest_scedual 0 1) 0 1).
  - apply Qcosts_nonneg. repeat constructor; lia.
  - split; [reflexivity | repeat constructor].
  - reflexivity.
Defined.

(** ** What the greedy assigner keeps and bounds *)

Section ExtendsFacts.
Context {num : Type} {arith : Arith num}.

Lemma extends_refl (st : Scedual num) : extends st st.
Proof. split; [reflexivity | split; auto]. Qed.

Lemma extends_trans (st1 st2 st3 : Scedual num) :
  extends st1 st2 -> extends st2 st3 -> extends st1 st3.
Proof.
  intros (Hc1 & Hs1 & Ha1) (Hc2 & Hs2 & Ha2). split; [congruence|]. split.
  - intros H. apply Hs2, Hs1, H.
  - intros m j H. apply Ha2, Ha1, H.
Qed.

Lemma scedual_extends (m j : nat) (st st' : Scedual num) (r : result unit) :
  scedual m j st = (st', r) -> extends st st'.
Proof.
  unfold scedual. destruct (cell (assignments st) m j) as [[|]|e] eqn:Hc;
    intros Hrun; inversion Hrun; subst; try apply extends_refl.
  fold (assign st m j). split; [reflexivity|]. split.
  - intros H. apply assign_well_shaped, H.
  - intros m' j' Hset. rewrite (assigned_assign_cell _ _ _ _ _ Hc), Hset.
    destruct ((m' =? m) && (j' =? j)); reflexivity.
Qed.

Lemma for_each_extends {A} (body : A -> M num unit) (xs : list A) :
  (forall x st st' r, body x st = (st', r) -> extends st st') ->
  forall st st' r, for_each xs body st = (st', r) -> extends st st'.
Proof.
  intros Hbody. induction xs as [|x xs IH]; intros st st' r Hrun.
  - inversion Hrun; subst. apply extends_refl.
  - simpl in Hrun. unfold bind in Hrun.
    destruct (body x st) as [st1 [[]|e]] eqn:Hx.
    + eapply extends_trans; [eapply Hbody; exact Hx | eapply IH; exact Hrun].
    + inversion Hrun; subst. eapply Hbody; exact Hx.
Qed.

Lemma greedy_job_extends (job : nat) (st st' : Scedual num) (r : result unit) :
  greedy_job job st = (st', r) -> extends st st'.
Proof.
  unfold greedy_job, bind, reading. intros Hrun.
  destruct (py_min_key (greedy_key st job) (range (Mechines st))) as [m|e].
  - eapply scedual_extends; exact Hrun.
  - inversion Hrun; subst. apply extends_refl.
Qed.
End ExtendsFacts.

(** X7. Whatever schedule [greedy] is started on and however it ends,
    it keeps the cost matrix and the shape, and every cell that was set
    stays set: it only adds assignments. *)
Theorem greedy_only_adds :
  forall (num : Type) (A : Arith num) (st st' : Scedual num) (r : result unit),
    greedy st = (st', r) ->
    costs st' = costs st /\
    (well_shaped st -> well_shaped st') /\
    forall m j, assigned st m j = true -> assigned st' m j = true.
Proof.
  intros num A st st' r Hrun. unfold greedy in Hrun.
  exact (for_each_extends greedy_job _ (@greedy_job_extends _ _) _ Hrun).
Qed.

Lemma greedy_only_adds_witness :
  costs doctest_scedual = costs doctest_scedual /\
  (well_shaped doctest_scedual -> well_shaped doctest_scedual) /\
  forall m j, assigned doctest_scedual m j = true -> assigned doctest_scedual m j = true.
Proof.
  apply (@greedy_only_adds Q Q_Arith doctest_scedual doctest_scedual (Raise KeyError)).
  vm_compute. reflexivity.
Defined.

Section GreedyInvariant.
Context {num : Type} {arith : Arith num}.
Variable c : ValuationMatrix num.
Variable P : nat -> Scedual num -> Prop.
Hypothesis P_step :
  forall k st, greedy_progress c k st -> P k st -> k < Jobs st ->
               P (S k) (assign st (greedy_choice st k) k).

(** A property kept by every step of the greedy loop holds at its end. *)
Lemma greedy_loop_invariant (n : nat) :
  forall k st,
    greedy_progress c k st -> P k st -> k + n = Jobs st -> (0 < n -> 0 < Mechines st) ->
    exists st', for_each (seq k n) greedy_job st = (st', Ok tt) /\
                greedy_progress c (k + n) st' /\ P (k + n) st'.
Proof.
  induction n as [|n IH]; intros k st Hinv HP Hkn HM.
  - exists st. rewrite Nat.add_0_r. auto.
  - destruct (greedy_progress_step Hinv) as [Hstep Hinv']; [lia | apply HM; lia |].
    destruct (IH (S k) (assign st (greedy_choice st k) k) Hinv') as (st' & Hrun & Hfin & HPfin).
    + apply P_step; auto. lia.
    + unfold Jobs in *. simpl. lia.
    + intros _. unfold Mechines in *. simpl. apply HM. lia.
    + exists st'. replace (k + S n) with (S k + n) by lia.
      split; [|split; assumption].
      simpl. unfold bind. rewrite Hstep. exact Hrun.
Qed.
End GreedyInvariant.

Lemma total_cost_succ (c : ValuationMatrix Q) (pick : nat -> nat) (k : nat) :
  (total_cost c pick (S k) == total_cost c pick k + vm_at c (pick k) k)%Q.
Proof.
  unfold total_cost, range. rewrite seq_S, map_app, py_sum_app.
  cbn [map Nat.add]. rewrite py_sum_cons.
  change (py_sum (@nil Q)) with 0%Q. lra.
Qed.

(** After a greedy run on a freshly built schedule, no machine carries
    more than the total cost of any way of giving every job to some
    machine. *)
Lemma greedy_loads_bound (c : ValuationMatrix Q) (pick : nat -> nat) :
  nonneg_costs c ->
  0 < num_of_agents c ->
  (forall j, pick j < num_of_agents c) ->
  exists st,
    greedy (build c) = (st, Ok tt) /\ costs st = c /\ well_shaped st /\
    forall m, m < Mechines st -> (load st m <= total_cost c pick (num_of_objects c))%Q.
Proof.
  intros Hpos HM Hpick.
  destruct (@greedy_loop_invariant Q Q_Arith c
              (fun k st => forall m, m < Mechines st -> (load st m <= total_cost c pick k)%Q))
    with (n := Jobs (build c)) (k := 0) (st := build c)
    as (st & Hrun & (Hc & Hws & _ & _) & Hload).
  - intros k st (Hc & Hws & Hdone & Htodo) HP Hk m Hm.
    change (Mechines (assign st (greedy_choice st k) k)) with (Mechines st) in Hm.
    assert (HMst : 0 < Mechines st) by lia.
    pose proof (greedy_choice_lt st k HMst) as Hlt.
    rewrite total_cost_succ.
    pose proof (Hpos (pick k) k) as Hck.
    destruct (Nat.eq_dec m (greedy_choice st k)) as [->|Hne].
    + rewrite load_assign_same; auto.
      destruct (greedy_choice_lowest_argmin st k HMst) as (_ & Hmin & _).
      assert (Hp : pick k < Mechines st).
      { unfold Mechines. rewrite Hc. apply Hpick. }
      specialize (Hmin (pick k) Hp). unfold completion in Hmin. simpl in Hmin.
      specialize (HP (pick k) Hp). rewrite Hc in Hmin. rewrite Hc. lra.
    + rewrite load_assign_other by auto. specialize (HP m Hm). lra.
  - apply build_progress.
  - intros m _. rewrite load_unassigned by (intros; apply build_unassigned).
    unfold total_cost, py_sum. simpl. lra.
  - reflexivity.
  - intros _. exact HM.
  - exists st. repeat split; try assumption; apply Hws.
Qed.


(** X8. With costs that are not negative, the makespan of a greedy run on
    a freshly built schedule is at most the total cost of any way of
    giving every job to some machine. *)
Theorem greedy_makespan_bound :
  forall (c : ValuationMatrix Q) (pick : nat -> nat),
    nonneg_costs c ->
    0 < num_of_agents c ->
    (forall j, pick j < num_of_agents c) ->
    exists st v,
      greedy (build c) = (st, Ok tt) /\
      scedual_makespan.extract_result st = Ok v /\
      (v <= total_cost c pick (num_of_objects c))%Q.
Proof.
  intros c pick Hpos HM Hpick.
  destruct (@greedy_loads_bound c pick Hpos HM Hpick) as (st & Hrun & Hc & Hws & Hload).
  assert (HMst : 0 < Mechines st) by (unfold Mechines; rewrite Hc; exact HM).
  destruct (makespan_of_loads Hws HMst) as (v & Hv & (m & Hm & ->) & _).
  exists st, (load st m). repeat split; auto.
Qed.

Lemma greedy_makespan_bound_witness :
  exists st v,
    greedy (build Qdoctest) = (st, Ok tt) /\
    scedual_makespan.extract_result st = Ok v /\
    (v <= total_cost Qdoctest (fun _ => 0%nat) (num_of_objects Qdoctest))%Q.
Proof.
  apply (@greedy_makespan_bound Qdoctest (fun _ => 0)).
  - apply Qcosts_nonneg. repeat constructor; lia.
  - unfold num_of_agents. simpl. lia.
  - intros j. unfold num_of_agents. simpl. lia.
Defined.

(** ** The eligibility test of the oracle *)

Section EligibilityFacts.
Context {num : Type} {arith : Arith num}.

Lemma filter_nil_iff {A} (p : A -> bool) (l : list A) :
  filter p l = [] <-> forall x, In x l -> p x = false.
Proof.
  induction l as [|x r IH]; simpl.
  - split; [intros _ y [] | reflexivity].
  - destruct (p x) eqn:Hp; split.
    + discriminate.
    + intros H. specialize (H x (or_introl eq_refl)). congruence.
    + intros Hnil y [<- | Hy]; [exact Hp | apply IH; assumption].
    + intros H. apply IH. intros y Hy. apply H. right. exact Hy.
Qed.

Lemma job_mask_nil_iff (st : Scedual num) (bound : num) (job : nat) :
  job_mask st bound job = [] <->
  forall m, m < Mechines st -> leb (vm_at (costs st) m job) bound = false.
Proof.
  unfold job_mask. rewrite filter_nil_iff. split.
  - intros H m Hm. apply H. apply in_seq. lia.
  - intros H m Hm. apply H. apply in_seq in Hm. lia.
Qed.

Lemma job_constraints_none_iff (st : Scedual num) (bound : num) (jobs : list nat) :
  job_constraints st bound jobs = None <->
  exists job, In job jobs /\ job_mask st bound job = [].
Proof.
  induction jobs as [|job r IH]; simpl.
  - split; [discriminate | intros (j & [] & _)].
  - destruct (job_mask st bound job) as [|m mask] eqn:Hmask.
    + split; [|reflexivity]. intros _. exists job. auto.
    + destruct (job_constraints st bound r) as [cs|] eqn:Hr.
      * split; [discriminate|]. intros (j & [<- | Hj] & Hnil).
        -- congruence.
        -- assert (Hbad : Some cs = None) by (apply IH; exists j; auto).
           discriminate.
      * split; [|reflexivity]. intros _.
        destruct (proj1 IH eq_refl) as (j & Hj & Hnil). exists j. auto.
Qed.

Lemma build_problem_none_iff (st : Scedual num) (bound : num) :
  build_problem st bound = None <->
  exists job, job < Jobs st /\
              forall m, m < Mechines st -> leb (vm_at (costs st) m job) bound = false.
Proof.
  unfold build_problem.
  destruct (job_constraints st bound (range (Jobs st))) as [cs|] eqn:Hjc.
  - split; [discriminate|]. intros (job & Hjob & Hnone). exfalso.
    assert (Hn : job_constraints st bound (range (Jobs st)) = None).
    { apply job_constraints_none_iff. exists job. split.
      - apply in_seq. lia.
      - apply job_mask_nil_iff. exact Hnone. }
    congruence.
  - split; [|reflexivity]. intros _.
    apply job_constraints_none_iff in Hjc. destruct Hjc as (job & Hjob & Hnil).
    exists job. split; [apply in_seq in Hjob; lia|].
    apply job_mask_nil_iff. exact Hnil.
Qed.

(** The equalities of the built program, job after job. *)
Lemma job_constraints_some (st : Scedual num) (bound : num) (jobs : list nat)
      (cs : list (Constraint num)) :
  job_constraints st bound jobs = Some cs ->
  cs = map (fun job => CEq (sum_of (map (fun m => (m, job)) (job_mask st bound job))) one)
           jobs.
Proof.
  revert cs. induction jobs as [|job r IH]; intros cs; simpl.
  - intros Heq. now inversion Heq.
  - destruct (job_mask st bound job) as [|m mask] eqn:Hmask; [discriminate|].
    destruct (job_constraints st bound r) as [cs'|]; [|discriminate].
    intros Heq. inversion Heq; subst. rewrite (IH cs' eq_refl). reflexivity.
Qed.
End EligibilityFacts.

(** X9. [LinearProgram] returns False without calling the solver, and
    without touching the schedule, exactly when some job has no machine
    able to do it within the bound; whatever the solver would do. *)
Theorem oracle_fails_early :
  forall (num : Type) (A : Arith num) (st : Scedual num) (bound : num),
    (build_problem st bound = None <->
     exists job, job < Jobs st /\
                 forall m, m < Mechines st -> leb (vm_at (costs st) m job) bound = false) /\
    (forall E : Engines num,
        build_problem st bound = None ->
        LinearProgram bound st = (st, Ok false)) /\
    (forall (E : Engines num) (p : Problem num),
        build_problem st bound = Some p ->
        LinearProgram bound st
        = match solve p with
          | Raise e => (st, Raise e)
          | Ok None => (st, Ok false)
          | Ok (Some value) => (Round value ;;; ret true) (clear st)
          end).
Proof.
  intros num A st bound. split; [apply build_problem_none_iff|]. split.
  - intros E Hnone. unfold LinearProgram. now rewrite Hnone.
  - intros E p Hsome. unfold LinearProgram. now rewrite Hsome.
Qed.

Lemma oracle_fails_early_witness :
  LinearProgram (engines := constant_solver Qidentity) (3 # 4)%Q (build Q1551)
  = (build Q1551, Ok false).
Proof.
  apply (proj1 (proj2 (@oracle_fails_early Q Q_Arith (build Q1551) (3 # 4)%Q))
               (constant_solver Qidentity)).
  reflexivity.
Defined.

(** X10. Over exact numbers the eligibility test is monotone: if it
    passes at a bound, it passes at every larger bound. *)
Theorem eligibility_monotone :
  forall (st : Scedual Q) (bound bound' : Q),
    (bound <= bound')%Q ->
    build_problem st bound <> None -> build_problem st bound' <> None.
Proof.
  intros st bound bound' Hle Hsome Hnone. apply Hsome.
  apply build_problem_none_iff. apply build_problem_none_iff in Hnone.
  destruct Hnone as (job & Hjob & Hall). exists job. split; [exact Hjob|].
  intros m Hm. specialize (Hall m Hm). simpl in *.
  destruct (Qle_bool (vm_at (costs st) m job) bound) eqn:Hb; [|reflexivity].
  apply Qle_bool_iff in Hb. apply Q_leb_false in Hall. exfalso. lra.
Qed.

Lemma eligibility_monotone_witness :
  build_problem (build Q1551) 2%Q <> None.
Proof.
  apply (@eligibility_monotone (build Q1551) 1%Q 2%Q).
  - unfold Qle. simpl. lia.
  - discriminate.
Defined.

(** X11. In the program that the oracle builds, the equalities are one
    per job, in the order of the jobs, and every variable that occurs in
    an equality or in a load inequality has coefficient one and belongs
    to a pair (mechine, job) of the matrix with cost(mechine, job) within
    the bound: the other variables occur in the makespan expression only. *)
Theorem built_problem_constrains_eligible :
  forall (num : Type) (A : Arith num) (st : Scedual num) (bound : num) (p : Problem num),
    build_problem st bound = Some p ->
    constraints p =
    ([VariablesGe0; ActivesGeVariables; SumActivesLe (Jobs st + Mechines st)]
       ++ map (fun job => CEq (sum_of (map (fun m => (m, job)) (job_mask st bound job))) one)
              (range (Jobs st))
       ++ mechine_constraints st bound
       ++ [CLe (makespan_expr st) bound])%list /\
    forall ts rhs,
      In (CEq (Sum ts) rhs) (constraints p) \/ In (CLe (Sum ts) rhs) (constraints p) ->
      forall coef m j,
        In (coef, (m, j)) ts ->
        coef = one /\ m < Mechines st /\ j < Jobs st /\
        leb (vm_at (costs st) m j) bound = true.
Proof.
  intros num A st bound p Hp. unfold build_problem in Hp.
  destruct (job_constraints st bound (range (Jobs st))) as [jcs|] eqn:Hjc; [|discriminate].
  inversion Hp; subst; clear Hp. simpl constraints.
  apply job_constraints_some in Hjc. subst jcs. split; [reflexivity|].
  intros ts rhs Hin coef m j Hterm.
  assert (Hcase :
            (exists job, job < Jobs st /\
                         ts = map (fun c => (one, c))
                                  (map (fun m => (m, job)) (job_mask st bound job))) \/
            (exists mechine, mechine < Mechines st /\
                             ts = map (fun c => (one, c))
                                      (map (fun j => (mechine, j))
                                           (mechine_mask st bound mechine)))).
  { destruct Hin as [Hin | Hin].
    - simpl in Hin. destruct Hin as [Hin | [Hin | [Hin | Hin]]]; try discriminate.
      apply in_app_or in Hin. destruct Hin as [Hin | Hin].
      + apply in_map_iff in Hin. destruct Hin as (job & Heq & Hjob).
        apply in_seq in Hjob. left. exists job. split; [lia|].
        unfold sum_of in Heq. now inversion Heq.
      + apply in_app_or in Hin. destruct Hin as [Hin | Hin].
        * apply mechine_constraints_unweighted in Hin. destruct Hin as (k & Heq).
          discriminate.
        * destruct Hin as [Hin | []]. discriminate.
    - simpl in Hin. destruct Hin as [Hin | [Hin | [Hin | Hin]]]; try discriminate.
      apply in_app_or in Hin. destruct Hin as [Hin | Hin].
      + apply in_map_iff in Hin. destruct Hin as (job & Heq & _). discriminate.
      + apply in_app_or in Hin. destruct Hin as [Hin | Hin].
        * unfold mechine_constraints in Hin. apply in_flat_map in Hin.
          destruct Hin as (k & Hk & Hin). apply in_seq in Hk.
          destruct (mechine_mask st bound k) as [|j0 mask] eqn:Hmask; [destruct Hin|].
          destruct Hin as [Heq | []]. right. exists k. split; [lia|].
          rewrite Hmask. unfold sum_of in Heq. inversion Heq. reflexivity.
        * destruct Hin as [Hin | []]. unfold makespan_expr in Hin. discriminate. }
  destruct Hcase as [(job & Hjob & ->) | (mechine & Hmech & ->)].
  - rewrite map_map in Hterm. apply in_map_iff in Hterm.
    destruct Hterm as (m' & Heq & Hm'). inversion Heq; subst.
    unfold job_mask in Hm'. apply filter_In in Hm'. destruct Hm' as [Hm' Hleb].
    apply in_seq in Hm'. repeat split; auto; lia.
  - rewrite map_map in Hterm. apply in_map_iff in Hterm.
    destruct Hterm as (j' & Heq & Hj'). inversion Heq; subst.
    unfold mechine_mask in Hj'. apply filter_In in Hj'. destruct Hj' as [Hj' Hleb].
    apply in_seq in Hj'. repeat split; auto; lia.
Qed.

Lemma built_problem_constrains_eligible_witness :
  constraints Q1551_problem =
  ([VariablesGe0; ActivesGeVariables;
    SumActivesLe (Jobs (build Q1551) + Mechines (build Q1551))]
     ++ map (fun job => CEq (sum_of (map (fun m => (m, job))
                                         (job_mask (build Q1551) 1%Q job))) one)
            (range (Jobs (build Q1551)))
     ++ mechine_constraints (build Q1551) 1%Q
     ++ [CLe (makespan_expr (build Q1551)) 1%Q])%list /\
  forall ts rhs,
    In (CEq (Sum ts) rhs) (constraints Q1551_problem) \/
    In (CLe (Sum ts) rhs) (constraints Q1551_problem) ->
    forall coef m j,
      In (coef, (m, j)) ts ->
      coef = one /\ m < Mechines (build Q1551) /\ j < Jobs (build Q1551) /\
      leb (vm_at (costs (build Q1551)) m j) 1%Q = true.
Proof.
  apply (@built_problem_constrains_eligible Q Q_Arith (build Q1551) 1%Q Q1551_problem).
  reflexivity.
Defined.

(** ** The bounds that the driver starts from *)

Lemma column_count_pos {num : Type} {arith : Arith num} (st : Scedual num) (job : nat) :
  0 < column_count st job ->
  exists m, m < Mechines st /\ assigned st m job = true.
Proof.
  unfold column_count. intros Hpos.
  destruct (filter (fun mechine => assigned st mechine job) (range (Mechines st)))
    as [|m r] eqn:Hf; [simpl in Hpos; lia|].
  assert (Hin : In m (filter (fun mechine => assigned st mechine job)
                             (range (Mechines st)))) by (rewrite Hf; left; reflexivity).
  apply filter_In in Hin. destruct Hin as [Hin Ha]. apply in_seq in Hin.
  exists m. split; [lia | exact Ha].
Qed.

Lemma load_nonneg (st : Scedual Q) (m : nat) :
  nonneg_costs (costs st) -> (0 <= load st m)%Q.
Proof.
  intros Hpos. unfold load. apply py_sum_nonneg.
  intros x Hx. apply in_map_iff in Hx. destruct Hx as (j & <- & _). apply Hpos.
Qed.

Lemma load_ge_cost (st : Scedual Q) (m j : nat) :
  nonneg_costs (costs st) -> j < Jobs st -> assigned st m j = true ->
  (vm_at (costs st) m j <= load st m)%Q.
Proof.
  intros Hpos Hj Ha. unfold load. apply py_sum_ge_member.
  - intros x Hx. apply in_map_iff in Hx. destruct Hx as (j' & <- & _). apply Hpos.
  - apply in_map. apply filter_In. split; [apply in_seq; lia | exact Ha].
Qed.

Lemma Q_div_by_count (v : Q) (n : nat) :
  (0 <= v)%Q -> 0 < n ->
  (0 <= v / inject_Z (Z.of_nat n))%Q /\ (v / inject_Z (Z.of_nat n) <= v)%Q.
Proof.
  intros Hv Hn.
  assert (Hd : (1 <= inject_Z (Z.of_nat n))%Q).
  { unfold Qle. simpl. lia. }
  split.
  - apply Qle_shift_div_l; lra.
  - apply Qle_shift_div_r; [lra|]. nra.
Qed.

(** X12. With costs that are not negative and at least one machine, the
    driver gets its bounds from the greedy run with 0 <= lower <= upper,
    so its loop is entered, and at upper, the bound of the first call of
    the oracle, every job has an eligible machine: the first call does not
    return False at the eligibility test, and its outcome is the one of
    building and solving the program. *)
Theorem first_call_passes_eligibility :
  forall st : Scedual Q,
    nonneg_costs (costs st) ->
    0 < Mechines st ->
    exists lower upper p,
      greedy_bounds st = Ok (lower, upper) /\
      (0 <= lower)%Q /\ (lower <= upper)%Q /\
      (forall job, job < Jobs st ->
                   exists m, m < Mechines st /\
                             leb (vm_at (costs st) m job) upper = true) /\
      build_problem st upper = Some p /\
      forall E : Engines Q,
        LinearProgram upper st
        = match solve p with
          | Raise e => (st, Raise e)
          | Ok None => (st, Ok false)
          | Ok (Some value) => (Round value ;;; ret true) (clear st)
          end.
Proof.
  intros st Hpos HM.
  destruct (greedy_coverage (costs st)) as (g & Hrun & Hc & Hws & Hcov).
  assert (HMg : 0 < Mechines g) by (unfold Mechines in *; now rewrite Hc).
  destruct (makespan_of_loads Hws HMg) as (v & Hv & (m0 & Hm0 & Hveq) & Hall).
  assert (Hposg : nonneg_costs (costs g)) by (now rewrite Hc).
  assert (Hv0 : (0 <= v)%Q) by (rewrite Hveq; apply load_nonneg; exact Hposg).
  destruct (Q_div_by_count Hv0 HM) as [Hl0 Hlv].
  assert (Helig : forall job, job < Jobs st ->
                              exists m, m < Mechines st /\
                                        leb (vm_at (costs st) m job) v = true).
  { intros job Hjob.
    assert (Hjobg : job < Jobs g) by (unfold Jobs in *; now rewrite Hc).
    destruct (@column_count_pos _ _ g job) as (m & Hm & Ha).
    { rewrite Hcov by exact Hjobg. lia. }
    assert (Hmst : m < Mechines st) by (unfold Mechines in *; now rewrite <- Hc).
    exists m. split; [exact Hmst|].
    pose proof (@load_ge_cost g m job Hposg Hjobg Ha) as Hcost.
    specialize (Hall m Hm). rewrite Hc in Hcost.
    apply Qle_bool_iff. lra. }
  destruct (build_problem st v) as [p|] eqn:Hp.
  - exists (v / inject_Z (Z.of_nat (Mechines st)))%Q, v, p.
    split; [unfold greedy_bounds; rewrite Hrun, Hv; reflexivity|].
    split; [exact Hl0|]. split; [exact Hlv|]. split; [exact Helig|].
    split; [exact Hp|].
    intros E. unfold LinearProgram. rewrite Hp. reflexivity.
  - exfalso. apply build_problem_none_iff in Hp. destruct Hp as (job & Hjob & Hnone).
    destruct (Helig job Hjob) as (m & Hm & Hle).
    rewrite (Hnone m Hm) in Hle. discriminate.
Qed.

Lemma first_call_passes_eligibility_witness :
  exists lower upper p,
    greedy_bounds (build Q1551) = Ok (lower, upper) /\
    (0 <= lower)%Q /\ (lower <= upper)%Q /\
    (forall job, job < Jobs (build Q1551) ->
                 exists m, m < Mechines (build Q1551) /\
                           leb (vm_at (costs (build Q1551)) m job) upper = true) /\
    build_problem (build Q1551) upper = Some p /\
    forall E : Engines Q,
      LinearProgram upper (build Q1551)
      = match solve p with
        | Raise e => (build Q1551, Raise e)
        | Ok None => (build Q1551, Ok false)
        | Ok (Some value) => (Round value ;;; ret true) (clear (build Q1551))
        end.
Proof.
  apply (@first_call_passes_eligibility (build Q1551)).
  - apply Qcosts_nonneg. repeat constructor; lia.
  - unfold Mechines, num_of_agents. simpl. lia.
Defined.

(** ** What the rounder, the oracle and the driver keep *)

Section FrameFacts.
Context {num : Type} {arith : Arith num} {engines : Engines num}.

Lemma adopt_integral_extends (fractional_sol : matrix num) (cells : list (nat * nat)) :
  forall (G : Graph) (st st' : Scedual num) (r : result Graph),
    adopt_integral fractional_sol cells G st = (st', r) -> extends st st'.
Proof.
  induction cells as [|[m j] rest IH]; intros G st st' r Hrun.
  - inversion Hrun; subst. apply extends_refl.
  - cbn [adopt_integral] in Hrun. unfold bind, lift in Hrun.
    destruct (cell fractional_sol m j) as [x|e].
    2:{ inversion Hrun; subst. apply extends_refl. }
    destruct (eqb x one).
    + destruct (scedual m j st) as [st1 [[]|e]] eqn:Hs.
      * apply scedual_extends in Hs.
        destruct (remove_edge G (int_to_node m false) (int_to_node j true)) as [G'|e].
        -- eapply extends_trans; [exact Hs | eapply IH; exact Hrun].
        -- inversion Hrun; subst. exact Hs.
      * inversion Hrun; subst. eapply scedual_extends; exact Hs.
    + eapply IH; exact Hrun.
Qed.

Lemma scedual_item_extends (item : list string) (st st' : Scedual num) (r : result unit) :
  scedual_item item st = (st', r) -> extends st st'.
Proof.
  unfold scedual_item. intros Hrun.
  destruct item as [|mechine [|job [|x rest]]];
    try (inversion Hrun; subst; apply extends_refl).
  unfold bind, lift in Hrun.
  destruct (node_to_int mechine) as [m|e]; [|inversion Hrun; subst; apply extends_refl].
  destruct (node_to_int job) as [j|e]; [|inversion Hrun; subst; apply extends_refl].
  eapply scedual_extends; exact Hrun.
Qed.

Lemma match_component_extends (G : Graph) (component : list string)
      (st st' : Scedual num) (r : result unit) :
  match_component G component st = (st', r) -> extends st st'.
Proof.
  unfold match_component. destruct (length component <? 2); intros Hrun.
  - inversion Hrun; subst. apply extends_refl.
  - eapply for_each_extends; [|exact Hrun].
    intros item s s' r'. apply scedual_item_extends.
Qed.

(** [Round] only adds assignments, whether it returns or raises. *)
Lemma Round_extends (fractional_sol : matrix num) (st st' : Scedual num) (r : result unit) :
  Round fractional_sol st = (st', r) -> extends st st'.
Proof.
  unfold Round, bind, reading. intros Hrun.
  destruct (build_graph st fractional_sol) as [G0|e].
  2:{ inversion Hrun; subst. apply extends_refl. }
  destruct (adopt_integral fractional_sol (iter_cells st) G0 st) as [st1 [G|e]] eqn:Ha.
  - apply adopt_integral_extends in Ha.
    destruct (negb (is_bipartite G)).
    + inversion Hrun; subst. exact Ha.
    + eapply extends_trans; [exact Ha|].
      eapply for_each_extends; [|exact Hrun].
      intros comp s s' r'. apply match_component_extends.
  - inversion Hrun; subst. eapply adopt_integral_extends; exact Ha.
Qed.

Lemma LinearProgram_frame (bound : num) (st st' : Scedual num) (r : result bool) :
  LinearProgram bound st = (st', r) ->
  costs st' = costs st /\ (well_shaped st -> well_shaped st').
Proof.
  unfold LinearProgram. intros Hrun.
  destruct (build_problem st bound) as [p|].
  2:{ inversion Hrun; subst. auto. }
  destruct (solve p) as [[value|]|e]; try (inversion Hrun; subst; auto; fail).
  unfold bind, ret in Hrun.
  destruct (Round value (clear st)) as [st1 [[]|e]] eqn:HR;
    inversion Hrun; subst; apply Round_extends in HR;
    destruct HR as (Hc & Hs & _); (split; [exact Hc | intros _; apply Hs, clear_well_shaped]).
Qed.

Lemma apprx_loop_frame (fuel : nat) :
  forall (lower upper : num) (st st' : Scedual num) (r : result unit),
    apprx_loop fuel lower upper st = Some (st', r) ->
    costs st' = costs st /\ (well_shaped st -> well_shaped st').
Proof.
  induction fuel as [|fuel IH]; intros lower upper st st' r Hrun; simpl in Hrun.
  - destruct (leb lower upper); [discriminate|]. inversion Hrun; subst. auto.
  - destruct (leb lower upper); [|inversion Hrun; subst; auto].
    unfold apprx_iteration, bind in Hrun.
    destruct (LinearProgram upper st) as [st1 [b|e]] eqn:HLP.
    + apply LinearProgram_frame in HLP. destruct HLP as [Hc1 Hs1].
      assert (Hnext : exists l' u', apprx_loop fuel l' u' st1 = Some (st', r)).
      { destruct (negb b); simpl in Hrun; eauto. }
      destruct Hnext as (l' & u' & Hnext).
      destruct (IH _ _ _ _ _ Hnext) as [Hc2 Hs2]. split; [congruence | auto].
    + inversion Hrun; subst. eapply LinearProgram_frame; exact HLP.
Qed.

Lemma build_problem_costs (st1 st2 : Scedual num) (bound : num) :
  costs st1 = costs st2 -> build_problem st1 bound = build_problem st2 bound.
Proof.
  intros Hc.
  assert (Hmask : forall job, job_mask st1 bound job = job_mask st2 bound job).
  { intros job. unfold job_mask, Mechines. now rewrite Hc. }
  assert (Hjobs : forall jobs, job_constraints st1 bound jobs = job_constraints st2 bound jobs).
  { induction jobs as [|job r IH]; simpl; auto. now rewrite Hmask, IH. }
  unfold build_problem, mechine_constraints, mechine_mask, makespan_expr, Jobs, Mechines.
  unfold Jobs in Hjobs. rewrite Hjobs, Hc. reflexivity.
Qed.

Lemma clear_costs (st1 st2 : Scedual num) :
  costs st1 = costs st2 -> clear st1 = clear st2.
Proof.
  intros Hc. unfold clear, shape, Mechines, Jobs. now rewrite Hc.
Qed.

(** The schedule returned by the loop is the one it was given or the
    rounding of a solver answer on the cleared schedule. *)
Lemma apprx_loop_result (st : Scedual num) (fuel : nat) :
  forall (lower upper : num) (st1 st' : Scedual num),
    costs st1 = costs st ->
    apprx_loop fuel lower upper st1 = Some (st', Ok tt) ->
    st' = st1 \/
    exists bound p fractional_sol,
      build_problem st bound = Some p /\
      solve p = Ok (Some fractional_sol) /\
      Round fractional_sol (clear st) = (st', Ok tt).
Proof.
  induction fuel as [|fuel IH]; intros lower upper st1 st' Hc Hrun; simpl in Hrun.
  - destruct (leb lower upper); [discriminate|]. inversion Hrun; subst. auto.
  - destruct (leb lower upper); [|inversion Hrun; subst; auto].
    destruct (apprx_iteration lower upper st1) as [st2 [[f [l' u']]|e]] eqn:Hit;
      [|discriminate].
    apply apprx_iteration_cases in Hit. destruct Hit as [HLP _].
    pose proof (LinearProgram_frame _ _ HLP) as [Hc2 _].
    destruct (IH l' u' st2 st' (eq_trans Hc2 Hc) Hrun) as [-> | Hround]; [|right; exact Hround].
    apply LinearProgram_cases in HLP.
    destruct HLP as [[_ ->] | [(e & He & _) | (p & x & Hp & Hs & [[_ HR] | (e & He & _)])]];
      try discriminate; auto.
    right. exists upper, p, x.
    rewrite <- (@build_problem_costs st1 st upper Hc), <- (@clear_costs st1 st Hc). auto.
Qed.
End FrameFacts.

(** X13. However the driver ends, for every solver and graph engine, it
    keeps the cost matrix, and a schedule of the right shape stays one. *)
Theorem apprx_keeps_costs_and_shape :
  forall (num : Type) (A : Arith num) (E : Engines num)
         (fuel : nat) (st st' : Scedual num) (r : result unit),
    apprx fuel st = Some (st', r) ->
    costs st' = costs st /\ (well_shaped st -> well_shaped st').
Proof.
  intros num A E fuel st st' r Hrun. unfold apprx in Hrun.
  destruct (greedy_bounds st) as [[lower upper]|e].
  - eapply apprx_loop_frame; exact Hrun.
  - inversion Hrun; subst. auto.
Qed.

Lemma apprx_keeps_costs_and_shape_witness :
  costs (mkScedual Q15 [[true]; [true]]) = costs (build Q15) /\
  (well_shaped (build Q15) -> well_shaped (mkScedual Q15 [[true]; [true]])).
Proof.
  apply (@apprx_keeps_costs_and_shape Q Q_Arith (constant_solver Qones) 100
           (build Q15) (mkScedual Q15 [[true]; [true]]) (Ok tt)).
  vm_compute. reflexivity.
Defined.

(** X14. When the driver returns normally, the schedule it leaves is
    either the one it was given, untouched, or exactly what [Round] made
    of one answer of the solver on the cleared schedule: results of
    different iterations are never mixed. *)
Theorem apprx_result_is_one_rounding :
  forall (num : Type) (A : Arith num) (E : Engines num)
         (fuel : nat) (st st' : Scedual num),
    apprx fuel st = Some (st', Ok tt) ->
    st' = st \/
    exists bound p fractional_sol,
      build_problem st bound = Some p /\
      solve p = Ok (Some fractional_sol) /\
      Round fractional_sol (clear st) = (st', Ok tt).
Proof.
  intros num A E fuel st st' Hrun. unfold apprx in Hrun.
  destruct (greedy_bounds st) as [[lower upper]|e]; [|discriminate].
  eapply apprx_loop_result; [reflexivity | exact Hrun].
Qed.

Lemma apprx_result_is_one_rounding_witness :
  mkScedual Q1551 [[true; false]; [false; true]] = build Q1551 \/
  exists bound p fractional_sol,
    build_problem (build Q1551) bound = Some p /\
    solve (Engines := constant_solver Qidentity) p = Ok (Some fractional_sol) /\
    Round (engines := constant_solver Qidentity) fractional_sol (clear (build Q1551))
    = (mkScedual Q1551 [[true; false]; [false; true]], Ok tt).
Proof.
  apply (@apprx_result_is_one_rounding Q Q_Arith (constant_solver Qidentity) 100
           (build Q1551) (mkScedual Q1551 [[true; false]; [false; true]])).
  vm_compute. reflexivity.
Defined.

(** * Further properties of the rounder *)

(** ** Node names *)

Lemma to_uint_nonnil (n : nat) : Nat.to_uint n <> Decimal.Nil.
Proof.
  intros Hnil. pose proof (DecimalNat.Unsigned.of_to n) as Hof.
  rewrite Hnil in Hof. simpl in Hof. subst n. discriminate Hnil.
Qed.

Lemma str_inj (i i' : nat) : str i = str i' -> i = i'.
Proof.
  unfold str. intros Heq.
  apply DecimalNat.Unsigned.to_uint_inj.
  pose proof (DecimalString.NilZero.usu (Nat.to_uint i) (to_uint_nonnil i)) as H1.
  pose proof (DecimalString.NilZero.usu (Nat.to_uint i') (to_uint_nonnil i')) as H2.
  rewrite Heq in H1. congruence.
Qed.

Lemma digit_of_ascii_bound (c : ascii) (d : nat) : digit_of_ascii c = Some d -> d <= 9.
Proof.
  unfold digit_of_ascii.
  destruct ((48 <=? nat_of_ascii c) && (nat_of_ascii c <=? 57)) eqn:Hb; [|discriminate].
  apply andb_prop in Hb. destruct Hb as [H1 H2].
  apply Nat.leb_le in H1, H2. intros Heq. inversion Heq. lia.
Qed.

(** X16. Reading back the index of a node name gives the index exactly
    when the index has one digit: [node_to_int] looks at one character. *)
Theorem node_name_round_trip :
  forall (ind : nat) (job : bool),
    node_to_int (int_to_node ind job) = Ok ind <-> ind < 10.
Proof.
  intros ind job. split.
  - unfold node_to_int. intros Hread.
    destruct (String.get 1 (int_to_node ind job)) as [c|]; [|discriminate].
    destruct (digit_of_ascii c) as [d|] eqn:Hd; [|discriminate].
    apply digit_of_ascii_bound in Hd. inversion Hread. lia.
  - intros Hlt.
    do 10 (destruct ind as [|ind]; [destruct job; reflexivity|]). lia.
Qed.

(** X17. Different nodes have different names: the name determines the
    index and the side (machine or job). *)
Theorem node_names_distinct :
  forall (ind ind' : nat) (job job' : bool),
    int_to_node ind job = int_to_node ind' job' -> ind = ind' /\ job = job'.
Proof.
  intros ind ind' job job' Heq. unfold int_to_node in Heq.
  destruct job, job'; simpl in Heq; inversion Heq as [Hstr];
    (split; [apply str_inj; exact Hstr | reflexivity]).
Qed.

Lemma node_names_distinct_witness : 12 = 12 /\ true = true.
Proof.
  apply (@node_names_distinct 12 12 true true). reflexivity.
Defined.

(** ** The graph of the rounder *)

Lemma add_nodes_from_edges (G : Graph) (ns : list string) :
  edges (add_nodes_from G ns) = edges G.
Proof.
  unfold add_nodes_from. revert G. induction ns as [|n r IH]; intros G; simpl; auto.
  rewrite IH. destruct (in_nodes (nodes G) n); reflexivity.
Qed.

Lemma add_edges_from_sub (es : list (string * string)) :
  forall (G : Graph) (e : string * string),
    In e (edges (add_edges_from G es)) -> In e (edges G) \/ In e es.
Proof.
  unfold add_edges_from. induction es as [|e0 r IH]; intros G e Hin.
  - left. exact Hin.
  - cbn [fold_left] in Hin. apply IH in Hin.
    destruct Hin as [Hin | Hin]; [|right; right; exact Hin].
    pose proof (add_nodes_from_edges G [fst e0; snd e0]) as Hsame.
    destruct (has_edge (add_nodes_from G [fst e0; snd e0]) e0).
    + rewrite Hsame in Hin. left. exact Hin.
    + cbn [edges] in Hin. rewrite Hsame in Hin.
      apply in_app_or in Hin. destruct Hin as [Hin | [<- | []]].
      * left. exact Hin.
      * right. left. reflexivity.
Qed.

Section GraphFacts.
Context {num : Type} {arith : Arith num} {engines : Engines num}.

Lemma positive_edges_spec (fractional_sol : matrix num) (cells : list (nat * nat)) :
  forall es, positive_edges fractional_sol cells = Ok es ->
  forall e, In e es <->
            exists m j x, In (m, j) cells /\ e = (int_to_node m false, int_to_node j true) /\
                          cell fractional_sol m j = Ok x /\ ltb zero x = true.
Proof.
  induction cells as [|[m j] r IH]; intros es Hes e; simpl in Hes.
  - inversion Hes; subst. split; [intros [] | intros (m & j & x & [] & _)].
  - destruct (cell fractional_sol m j) as [x|err] eqn:Hx; [|discriminate]. simpl in Hes.
    destruct (positive_edges fractional_sol r) as [es'|err] eqn:Hr; [|discriminate].
    simpl in Hes. inversion Hes; subst; clear Hes. specialize (IH es' eq_refl e).
    destruct (ltb zero x) eqn:Hpos.
    + split.
      * intros [<- | Hin].
        -- exists m, j, x. repeat split; auto. left. reflexivity.
        -- apply IH in Hin. destruct Hin as (m' & j' & x' & Hin & Hrest).
           exists m', j', x'. split; [right; exact Hin | exact Hrest].
      * intros (m' & j' & x' & [Heq | Hin] & He & Hx' & Hp').
        -- inversion Heq; subst. left. reflexivity.
        -- right. apply IH. exists m', j', x'. auto.
    + split.
      * intros Hin. apply IH in Hin. destruct Hin as (m' & j' & x' & Hin & Hrest).
        exists m', j', x'. split; [right; exact Hin | exact Hrest].
      * intros (m' & j' & x' & [Heq | Hin] & He & Hx' & Hp').
        -- inversion Heq; subst. congruence.
        -- apply IH. exists m', j', x'. auto.
Qed.

Lemma build_graph_edges (st : Scedual num) (fractional_sol : matrix num) (G0 : Graph) :
  build_graph st fractional_sol = Ok G0 ->
  forall e, In e (edges G0) ->
            exists m j x, In (m, j) (iter_cells st) /\
                          e = (int_to_node m false, int_to_node j true) /\
                          cell fractional_sol m j = Ok x /\ ltb zero x = true.
Proof.
  unfold build_graph. intros Hb e Hin.
  destruct (positive_edges fractional_sol (iter_cells st)) as [es|err] eqn:Hes;
    [|discriminate].
  simpl in Hb. inversion Hb; subst; clear Hb.
  apply add_edges_from_sub in Hin. rewrite !add_nodes_from_edges in Hin.
  destruct Hin as [[] | Hin].
  apply (positive_edges_spec _ _ Hes). exact Hin.
Qed.

Lemma same_edge_refl (e : string * string) : same_edge e e = true.
Proof. unfold same_edge. now rewrite !String.eqb_refl. Qed.

(** The first loop of [Round] removes edges only, and removes the edge of
    every cell whose value equals 1. *)
Lemma adopt_integral_edges (fractional_sol : matrix num) (cells : list (nat * nat)) :
  forall (G G' : Graph) (st st' : Scedual num),
    adopt_integral fractional_sol cells G st = (st', Ok G') ->
    forall e, In e (edges G') ->
              In e (edges G) /\
              forall m j x, In (m, j) cells -> cell fractional_sol m j = Ok x ->
                            eqb x one = true ->
                            same_edge (int_to_node m false, int_to_node j true) e = false.
Proof.
  induction cells as [|[m0 j0] rest IH]; intros G G' st st' Hrun e Hin.
  - inversion Hrun; subst. split; [exact Hin | intros m j x []].
  - cbn [adopt_integral] in Hrun. unfold bind, lift in Hrun.
    destruct (cell fractional_sol m0 j0) as [x0|err] eqn:Hx0; [|discriminate].
    destruct (eqb x0 one) eqn:Hone.
    + destruct (scedual m0 j0 st) as [st1 [[]|err]]; [|discriminate].
      destruct (remove_edge G (int_to_node m0 false) (int_to_node j0 true))
        as [G1|err] eqn:Hrem; [|discriminate].
      destruct (IH _ _ _ _ Hrun e Hin) as [Hin1 Hrest].
      unfold remove_edge in Hrem.
      destruct (has_edge G (int_to_node m0 false, int_to_node j0 true)); [|discriminate].
      inversion Hrem; subst; clear Hrem. simpl in Hin1.
      apply filter_In in Hin1. destruct Hin1 as [HinG Hneq].
      split; [exact HinG|].
      intros m j x [Heq | Hmj] Hx Hx1.
      * inversion Heq; subst. now apply negb_true_iff in Hneq.
      * eapply Hrest; eauto.
    + destruct (IH _ _ _ _ Hrun e Hin) as [Hin1 Hrest]. split; [exact Hin1|].
      intros m j x [Heq | Hmj] Hx Hx1.
      * inversion Heq; subst. congruence.
      * eapply Hrest; eauto.
Qed.
End GraphFacts.

(** X18. Every edge of the graph that [Round] hands to the bipartiteness
    test joins the node of a machine to the node of a job of the matrix,
    for a pair whose fractional value is positive and not equal to 1: no
    edge joins two machines or two jobs. *)
Theorem rounding_graph_is_machine_job :
  forall (num : Type) (A : Arith num) (E : Engines num)
         (fractional_sol : matrix num) (st st1 : Scedual num) (G0 G : Graph),
    build_graph st fractional_sol = Ok G0 ->
    adopt_integral fractional_sol (iter_cells st) G0 st = (st1, Ok G) ->
    forall u v, In (u, v) (edges G) ->
                exists m j x,
                  m < Mechines st /\ j < Jobs st /\
                  u = int_to_node m false /\ v = int_to_node j true /\
                  cell fractional_sol m j = Ok x /\
                  ltb zero x = true /\ eqb x one = false.
Proof.
  intros num A E frac st st1 G0 G Hgraph Hadopt u v Hin.
  destruct (adopt_integral_edges _ _ _ _ Hadopt _ Hin) as [Hin0 Hrem].
  destruct (build_graph_edges _ _ Hgraph _ Hin0) as (m & j & x & Hcell & He & Hx & Hpos).
  inversion He; subst.
  pose proof (proj1 (in_iter_cells st m j) Hcell) as [Hm Hj].
  exists m, j, x. repeat split; auto.
  destruct (eqb x one) eqn:Hone; [|reflexivity].
  specialize (Hrem m j x Hcell Hx Hone). rewrite same_edge_refl in Hrem. discriminate.
Qed.

Lemma rounding_graph_is_machine_job_witness :
  exists m j x,
    m < Mechines (build Q15) /\ j < Jobs (build Q15) /\
    "M1" = int_to_node m false /\ "J0" = int_to_node j true /\
    cell Qfrac_one_half m j = Ok x /\
    ltb zero x = true /\ eqb x one = false.
Proof.
  apply (@rounding_graph_is_machine_job Q Q_Arith (constant_solver Qfrac_one_half)
           Qfrac_one_half (build Q15) (mkScedual Q15 [[true]; [false]])
           (mkGraph ["M0"; "M1"; "J0"] [("M0", "J0"); ("M1", "J0")])
           (mkGraph ["M0"; "M1"; "J0"] [("M1", "J0")])).
  - vm_compute. reflexivity.
  - vm_compute. reflexivity.
  - left. reflexivity.
Defined.

(** * Further properties of the generic entry point *)

Lemma filter_length_one {A} (p : A -> bool) (l : list A) :
  length (filter p l) = 1 -> exists a, filter p l = [a].
Proof.
  destruct (filter p l) as [|a [|b r]]; simpl; intros H; try discriminate.
  exists a. reflexivity.
Qed.

(** X19. [MinMakespan] with the greedy assigner and the assignment
    extractor always returns: its result lists each pair once, all pairs
    lie inside the cost matrix, and every job occurs with exactly one
    machine. *)
Theorem greedy_assignment_is_function :
  forall (num : Type) (A : Arith num) (c : ValuationMatrix num),
  exists st pairs,
    MinMakespan greedy_algo c scedual_assignment.extract_result = Some (st, Ok pairs) /\
    NoDup pairs /\
    (forall m j, In (m, j) pairs -> m < num_of_agents c /\ j < num_of_objects c) /\
    (forall j, j < num_of_objects c ->
               exists m, In (m, j) pairs /\ forall m', In (m', j) pairs -> m' = m).
Proof.
  intros num A c. destruct (greedy_coverage c) as (st & Hrun & Hc & Hws & Hcov).
  exists st, (filter (fun mj => assigned st (fst mj) (snd mj)) (iter_cells st)).
  split.
  { unfold MinMakespan, greedy_algo. rewrite Hrun.
    now rewrite extract_assignment_total. }
  split.
  { apply NoDup_filter. apply NoDup_product; apply seq_NoDup. }
  assert (Hin : forall m j,
             In (m, j) (filter (fun mj => assigned st (fst mj) (snd mj)) (iter_cells st))
             <-> m < num_of_agents c /\ j < num_of_objects c /\ assigned st m j = true).
  { intros m j. rewrite filter_In, in_iter_cells. unfold Mechines, Jobs.
    rewrite Hc. simpl. tauto. }
  split.
  - intros m j Hmj. apply Hin in Hmj. tauto.
  - intros j Hj.
    assert (Hj' : j < Jobs st) by (unfold Jobs; now rewrite Hc).
    destruct (filter_length_one _ _ (Hcov j Hj')) as [m Hm].
    assert (Hmem : forall m', In m' [m] <-> m' < Mechines st /\ assigned st m' j = true).
    { intros m'. rewrite <- Hm, filter_In. unfold range. rewrite in_seq.
      intuition lia. }
    exists m. split.
    + apply Hin. destruct (proj1 (Hmem m) (or_introl eq_refl)) as [Hlt Ha].
      unfold Mechines in Hlt. rewrite Hc in Hlt. auto.
    + intros m' Hm'. apply Hin in Hm'. destruct Hm' as (Hlt & _ & Ha).
      assert (Hin' : In m' [m]).
      { apply Hmem. unfold Mechines. rewrite Hc. auto. }
      destruct Hin' as [Heq | []]. now symmetry.
Qed.

(** * The first loop of the rounder on a cleared schedule *)

Lemma same_edge_spec (e1 e2 : string * string) :
  same_edge e1 e2 = true <->
  (fst e1 = fst e2 /\ snd e1 = snd e2) \/ (fst e1 = snd e2 /\ snd e1 = fst e2).
Proof.
  unfold same_edge. rewrite orb_true_iff, !andb_true_iff, !String.eqb_eq. tauto.
Qed.

Lemma int_to_node_inj (ind ind' : nat) (job job' : bool) :
  int_to_node ind job = int_to_node ind' job' -> ind = ind' /\ job = job'.
Proof.
  intros Heq. unfold int_to_node in Heq.
  destruct job, job'; simpl in Heq; inversion Heq as [Hstr];
    (split; [apply str_inj; exact Hstr | reflexivity]).
Qed.

(** Two machine-job edges that match a common edge are the same pair. *)
Lemma same_edge_nodes (m0 j0 m j : nat) (e : string * string) :
  same_edge (int_to_node m0 false, int_to_node j0 true) e = true ->
  same_edge (int_to_node m false, int_to_node j true) e = true ->
  m = m0 /\ j = j0.
Proof.
  rewrite !same_edge_spec. cbn [fst snd].
  intros [[H1 H2] | [H1 H2]] [[H3 H4] | [H3 H4]].
  - rewrite <- H1 in H3. rewrite <- H2 in H4.
    apply int_to_node_inj in H3, H4. tauto.
  - rewrite <- H2 in H3. apply int_to_node_inj in H3. destruct H3; discriminate.
  - rewrite <- H2 in H3. apply int_to_node_inj in H3. destruct H3; discriminate.
  - rewrite <- H1 in H3. rewrite <- H2 in H4.
    apply int_to_node_inj in H3, H4. tauto.
Qed.

Lemma has_edge_add_edges_from (es : list (string * string)) :
  forall (G : Graph) (e : string * string),
    has_edge G e = true \/ In e es -> has_edge (add_edges_from G es) e = true.
Proof.
  unfold add_edges_from. induction es as [|e0 r IH]; intros G e [Hhas | Hin].
  - exact Hhas.
  - destruct Hin.
  - cbn [fold_left]. apply IH. left.
    pose proof (add_nodes_from_edges G [fst e0; snd e0]) as Hsame.
    destruct (has_edge (add_nodes_from G [fst e0; snd e0]) e0);
      unfold has_edge in *; cbn [edges]; rewrite Hsame.
    + exact Hhas.
    + rewrite existsb_app, Hhas. reflexivity.
  - cbn [fold_left]. apply IH. destruct Hin as [-> | Hin]; [left | right; exact Hin].
    pose proof (add_nodes_from_edges G [fst e; snd e]) as Hsame.
    destruct (has_edge (add_nodes_from G [fst e; snd e]) e) eqn:Hhas.
    + exact Hhas.
    + unfold has_edge. cbn [edges]. rewrite existsb_app. cbn [existsb].
      rewrite same_edge_refl. now rewrite orb_true_r.
Qed.

Section IntegralStep.
Context {num : Type} {arith : Arith num}.

Lemma positive_edges_total (fractional_sol : matrix num) (cells : list (nat * nat)) :
  (forall m j, In (m, j) cells -> exists x, cell fractional_sol m j = Ok x) ->
  exists es, positive_edges fractional_sol cells = Ok es.
Proof.
  induction cells as [|[m j] r IH]; intros Hread.
  - exists []. reflexivity.
  - destruct (Hread m j (or_introl eq_refl)) as [x Hx].
    destruct IH as [es Hes]; [intros; apply Hread; right; assumption|].
    cbn [positive_edges]. rewrite Hx, Hes. simpl. eauto.
Qed.

(** On a schedule where the listed cells are free, and with a graph that
    has the edge of every listed cell of value 1, the first loop of
    [Round] runs to its end and sets exactly those cells. *)
Lemma adopt_integral_runs (fractional_sol : matrix num) (cells : list (nat * nat)) :
  forall (G : Graph) (st : Scedual num),
    NoDup cells -> well_shaped st ->
    (forall m j, In (m, j) cells ->
                 m < Mechines st /\ j < Jobs st /\ assigned st m j = false) ->
    (forall m j, In (m, j) cells -> exists x, cell fractional_sol m j = Ok x) ->
    (forall m j x, In (m, j) cells -> cell fractional_sol m j = Ok x ->
                   eqb x one = true ->
                   has_edge G (int_to_node m false, int_to_node j true) = true) ->
    exists st1 G1,
      adopt_integral fractional_sol cells G st = (st1, Ok G1) /\
      forall m j, assigned st1 m j = true <->
                  assigned st m j = true \/
                  (In (m, j) cells /\
                   exists x, cell fractional_sol m j = Ok x /\ eqb x one = true).
Proof.
  induction cells as [|[m0 j0] rest IH]; intros G st Hnd Hws Hfree Hread Hedge.
  - exists st, G. split; [reflexivity|]. intros m j. split; [auto|].
    intros [H | [[] _]]. exact H.
  - inversion Hnd as [|c l Hnotin Hnd']; subst.
    destruct (Hread m0 j0 (or_introl eq_refl)) as [x Hx].
    destruct (Hfree m0 j0 (or_introl eq_refl)) as (Hm0 & Hj0 & Hfree0).
    cbn [adopt_integral]. unfold bind at 1. unfold lift at 1. rewrite Hx.
    destruct (eqb x one) eqn:Hone.
    + pose proof (well_shaped_cell Hws Hm0 Hj0) as Hcell. rewrite Hfree0 in Hcell.
      unfold bind at 1. unfold scedual at 1. rewrite Hcell.
      fold (assign st m0 j0).
      pose proof (Hedge m0 j0 x (or_introl eq_refl) Hx Hone) as Hhas.
      unfold bind at 1. unfold lift at 1. unfold remove_edge. rewrite Hhas.
      set (G' := mkGraph (nodes G)
                   (filter (fun e => negb (same_edge (int_to_node m0 false,
                                                      int_to_node j0 true) e))
                           (edges G))).
      assert (Hother : forall m j, In (m, j) rest -> (m =? m0) && (j =? j0) = false).
      { intros m j Hin.
        destruct (Nat.eqb_spec m m0) as [->|]; [|reflexivity].
        destruct (Nat.eqb_spec j j0) as [->|]; [|reflexivity].
        contradiction. }
      destruct (IH G' (assign st m0 j0)) as (st1 & G1 & Hrun & Hset).
      * exact Hnd'.
      * apply assign_well_shaped, Hws.
      * intros m j Hin. destruct (Hfree m j (or_intror Hin)) as (Hm & Hj & Hf).
        repeat split; [exact Hm | exact Hj |].
        rewrite (assigned_assign_cell _ _ _ _ _ Hcell), (Hother m j Hin). exact Hf.
      * intros m j Hin. apply Hread. right. exact Hin.
      * intros m j y Hin Hy Hyone.
        pose proof (Hedge m j y (or_intror Hin) Hy Hyone) as Hmj.
        unfold has_edge in *. apply existsb_exists in Hmj.
        destruct Hmj as (e' & He' & Hsame).
        apply existsb_exists. exists e'. split; [|exact Hsame].
        unfold G'. cbn [edges]. apply filter_In. split; [exact He'|].
        destruct (same_edge (int_to_node m0 false, int_to_node j0 true) e') eqn:Hs0;
          [|reflexivity].
        destruct (same_edge_nodes _ _ _ _ _ Hs0 Hsame) as [-> ->]. contradiction.
      * exists st1, G1. split; [exact Hrun|].
        intros m j. rewrite Hset, (assigned_assign_cell _ _ _ _ _ Hcell).
        destruct ((m =? m0) && (j =? j0)) eqn:Hmj.
        -- apply andb_prop in Hmj. destruct Hmj as [Hm Hj].
           apply Nat.eqb_eq in Hm, Hj. subst. split; intros _.
           ++ right. split; [left; reflexivity | eauto].
           ++ left. reflexivity.
        -- split.
           ++ intros [Hold | [Hin Hval]]; [left; exact Hold|].
              right. split; [right; exact Hin | exact Hval].
           ++ intros [Hold | [Hin Hval]]; [left; exact Hold|].
              destruct Hin as [Heq | Hin]; [|right; split; assumption].
              inversion Heq; subst. rewrite !Nat.eqb_refl in Hmj. discriminate.
    + destruct (IH G st) as (st1 & G1 & Hrun & Hset); auto.
      * intros m j Hin. apply Hfree. right. exact Hin.
      * intros m j Hin. apply Hread. right. exact Hin.
      * intros m j y Hin. apply Hedge. right. exact Hin.
      * exists st1, G1. split; [exact Hrun|].
        intros m j. rewrite Hset. split.
        -- intros [Hold | [Hin Hval]]; [left; exact Hold|].
           right. split; [right; exact Hin | exact Hval].
        -- intros [Hold | [Hin Hval]]; [left; exact Hold|].
           destruct Hin as [Heq | Hin]; [|right; split; assumption].
           inversion Heq; subst. destruct Hval as (y & Hy & Hyone). congruence.
Qed.
End IntegralStep.

(** X20. [Round] on a cleared schedule, with a fractional solution that
    has a value for every cell (exact rationals): its first loop does not
    raise, neither [KeyError] from [scedual] nor [NetworkXError] from
    [remove_edge]; when the bipartiteness test is reached, exactly the
    cells of value 1 are set, and the rest of [Round] runs from there. *)
Theorem integral_step_succeeds :
  forall (E : Engines Q) (fractional_sol : matrix Q) (st : Scedual Q),
    (forall m j, m < Mechines st -> j < Jobs st ->
                 exists x, cell fractional_sol m j = Ok x) ->
    exists (st1 : Scedual Q) (G : Graph),
      (forall m j, assigned st1 m j = true <->
                   m < Mechines st /\ j < Jobs st /\
                   exists x, cell fractional_sol m j = Ok x /\ eqb x one = true) /\
      Round fractional_sol (clear st)
      = (if negb (is_bipartite G) then raise RuntimeError
         else for_each (connected_components G) (match_component G)) st1.
Proof.
  intros E frac st Hread.
  assert (Hcells : forall m j, In (m, j) (iter_cells (clear st)) <->
                               m < Mechines st /\ j < Jobs st).
  { intros m j. apply (in_iter_cells (clear st)). }
  destruct (@positive_edges_total Q Q_Arith frac (iter_cells (clear st))) as [es Hes].
  { intros m j Hin. apply Hcells in Hin. apply Hread; tauto. }
  set (G0 := add_edges_from
               (add_nodes_from
                  (add_nodes_from (mkGraph [] [])
                     (map (fun i => String.append "M" (str i)) (range (Mechines (clear st)))))
                  (map (fun i => String.append "J" (str i)) (range (Jobs (clear st)))))
               es).
  assert (Hgraph : build_graph (clear st) frac = Ok G0).
  { unfold build_graph. rewrite Hes. reflexivity. }
  destruct (@adopt_integral_runs Q Q_Arith frac (iter_cells (clear st)) G0 (clear st))
    as (st1 & G & Hrun & Hset).
  - apply NoDup_product; apply seq_NoDup.
  - apply clear_well_shaped.
  - intros m j Hin. apply Hcells in Hin. destruct Hin as [Hm Hj].
    repeat split; [exact Hm | exact Hj | apply clear_unassigned].
  - intros m j Hin. apply Hcells in Hin. apply Hread; tauto.
  - intros m j x Hin Hx Hone. unfold G0. apply has_edge_add_edges_from. right.
    apply (proj2 (positive_edges_spec frac (iter_cells (clear st)) Hes _)).
    exists m, j, x. repeat split; auto.
    simpl in Hone. apply Qeq_bool_iff in Hone.
    simpl. destruct (Qle_bool x 0) eqn:Hle; [|reflexivity].
    apply Qle_bool_iff in Hle. lra.
  - exists st1, G. split.
    + intros m j. rewrite Hset, clear_unassigned, Hcells. split.
      * intros [Hold | [[Hm Hj] Hval]]; [discriminate | auto].
      * intros (Hm & Hj & Hval). right. auto.
    + unfold Round. unfold bind at 1. unfold reading at 1. rewrite Hgraph.
      unfold bind at 1. rewrite Hrun. reflexivity.
Qed.

Lemma integral_step_succeeds_witness :
  exists (st1 : Scedual Q) (G : Graph),
    (forall m j, assigned st1 m j = true <->
                 m < Mechines (build Q15) /\ j < Jobs (build Q15) /\
                 exists x, cell Qfrac_one_half m j = Ok x /\ eqb x one = true) /\
    @Round Q Q_Arith (constant_solver Qfrac_one_half) Qfrac_one_half (clear (build Q15))
    = (if negb (@is_bipartite Q (constant_solver Qfrac_one_half) G)
       then raise RuntimeError
       else for_each (@connected_components Q (constant_solver Qfrac_one_half) G)
                     (@match_component Q (constant_solver Qfrac_one_half) G)) st1.
Proof.
  apply (@integral_step_succeeds (constant_solver Qfrac_one_half) Qfrac_one_half
           (build Q15)).
  intros m j Hm Hj. change (m < 2) in Hm. change (j < 1) in Hj.
  destruct m as [|[|m]]; destruct j as [|j]; try lia; eexists; reflexivity.
Defined.

(** * The matching phase of the rounder *)

Section MatchingFacts.
Context {num : Type} {arith : Arith num} {engines : Engines num}.

(** The loop body on a node name: the unpacking raises [ValueError] unless
    the name has two characters, and then [node_to_int] raises
    [IndexError] on the first of them, a string of one character. *)
Lemma scedual_item_unpack (name : string) (st : Scedual num) :
  exists e, (e = IndexError \/ e = ValueError) /\
            scedual_item (unpack name) st = (st, Raise e).
Proof.
  destruct name as [|c1 [|c2 [|c3 r]]].
  - exists ValueError. split; [right; reflexivity | reflexivity].
  - exists ValueError. split; [right; reflexivity | reflexivity].
  - exists IndexError. split; [left; reflexivity | reflexivity].
  - exists ValueError. split; [right; reflexivity | reflexivity].
Qed.

Lemma for_each_unpacked (items : list (list string)) (st : Scedual num) :
  (forall item, In item items -> exists name, item = unpack name) ->
  exists r, for_each items scedual_item st = (st, r) /\
            (r = Ok tt \/ r = Raise IndexError \/ r = Raise ValueError) /\
            (r = Ok tt <-> items = []).
Proof.
  intros Hitems. destruct items as [|item rest].
  - exists (Ok tt). split; [reflexivity|]. split; [left; reflexivity|].
    split; reflexivity.
  - destruct (Hitems item (or_introl eq_refl)) as [name ->].
    destruct (scedual_item_unpack name st) as (e & He & Hrun).
    exists (Raise e). split.
    + cbn [for_each]. unfold bind. rewrite Hrun. reflexivity.
    + split.
      * right. destruct He as [-> | ->]; [left | right]; reflexivity.
      * split; discriminate.
Qed.

Lemma match_component_unpacked (G : Graph) (component : list string) (st : Scedual num) :
  (forall G' item, In item (maximum_matching G') -> exists name, item = unpack name) ->
  exists r, match_component G component st = (st, r) /\
            (r = Ok tt \/ r = Raise IndexError \/ r = Raise ValueError) /\
            (r = Ok tt <->
             (2 <= length component -> maximum_matching (subgraph G component) = [])).
Proof.
  intros Hkeys. unfold match_component.
  destruct (length component <? 2) eqn:Hlen.
  - apply Nat.ltb_lt in Hlen. exists (Ok tt). split; [reflexivity|].
    split; [left; reflexivity|]. split; [intros _ Hge; lia | reflexivity].
  - apply Nat.ltb_ge in Hlen.
    destruct (@for_each_unpacked (maximum_matching (subgraph G component)) st)
      as (r & Hrun & Hcases & Hok).
    { intros item Hin. eapply Hkeys. exact Hin. }
    exists r. split; [exact Hrun|]. split; [exact Hcases|].
    rewrite Hok. split; [intros H _; exact H | intros H; apply H; exact Hlen].
Qed.

Lemma components_unpacked (G : Graph) (components : list (list string)) (st : Scedual num) :
  (forall G' item, In item (maximum_matching G') -> exists name, item = unpack name) ->
  exists r, for_each components (match_component G) st = (st, r) /\
            (r = Ok tt \/ r = Raise IndexError \/ r = Raise ValueError) /\
            (r = Ok tt <->
             forall component, In component components -> 2 <= length component ->
                               maximum_matching (subgraph G component) = []).
Proof.
  intros Hkeys. induction components as [|component rest IH].
  - exists (Ok tt). split; [reflexivity|]. split; [left; reflexivity|].
    split; [intros _ c [] | reflexivity].
  - destruct (match_component_unpacked G component st Hkeys) as (r1 & Hrun1 & Hcases1 & Hok1).
    destruct IH as (r2 & Hrun2 & Hcases2 & Hok2).
    cbn [for_each]. unfold bind. rewrite Hrun1.
    destruct r1 as [[]|e1].
    + exists r2. split; [exact Hrun2|]. split; [exact Hcases2|].
      rewrite Hok2. split.
      * intros Hrest c [<- | Hin]; [apply Hok1; reflexivity | apply Hrest, Hin].
      * intros Hall c Hin. apply Hall. right. exact Hin.
    + exists (Raise e1). split; [reflexivity|]. split; [exact Hcases1|].
      split; [discriminate|].
      intros Hall. apply Hok1. apply Hall. left. reflexivity.
Qed.
End MatchingFacts.

(** X21. The matching that networkx returns is a dict keyed by node
    names, so each item that the loop over it receives is a node name,
    which the unpacking [mechine, job = item] splits into characters.  For
    every engine whose items are of that kind, the matching phase of
    [Round] sets no cell: [Round] ends with the schedule that its first
    loop left, normally when every component of two or more nodes has an
    empty matching, and otherwise with [IndexError] (from [node_to_int] on
    a one-character string) or [ValueError] (from the unpacking). *)
Theorem matching_phase_sets_nothing :
  forall (num : Type) (A : Arith num) (E : Engines num)
         (fractional_sol : matrix num) (st st1 : Scedual num) (G0 G : Graph),
    (forall G' item, In item (maximum_matching G') -> exists name, item = unpack name) ->
    build_graph st fractional_sol = Ok G0 ->
    adopt_integral fractional_sol (iter_cells st) G0 st = (st1, Ok G) ->
    is_bipartite G = true ->
    exists r,
      Round fractional_sol st = (st1, r) /\
      (r = Ok tt \/ r = Raise IndexError \/ r = Raise ValueError) /\
      (r = Ok tt <->
       forall component, In component (connected_components G) ->
                         2 <= length component ->
                         maximum_matching (subgraph G component) = []).
Proof.
  intros num A E frac st st1 G0 G Hkeys Hgraph Hadopt Hbip.
  destruct (@components_unpacked num E G (connected_components G) st1 Hkeys)
    as (r & Hrun & Hcases & Hok).
  exists r. split; [|split; assumption].
  unfold Round. unfold bind at 1. unfold reading at 1. rewrite Hgraph.
  unfold bind at 1. rewrite Hadopt. rewrite Hbip. exact Hrun.
Qed.

Lemma matching_phase_sets_nothing_witness :
  exists r,
    Round (engines := disjoint_edges_engine Qfrac_one_half) Qfrac_one_half (build Q15)
    = (mkScedual Q15 [[true]; [false]], r) /\
    (r = Ok tt \/ r = Raise IndexError \/ r = Raise ValueError) /\
    (r = Ok tt <->
     forall component,
       In component (connected_components (Engines := disjoint_edges_engine Qfrac_one_half)
                       (mkGraph ["M0"; "M1"; "J0"] [("M1", "J0")])) ->
       2 <= length component ->
       maximum_matching (Engines := disjoint_edges_engine Qfrac_one_half)
         (subgraph (mkGraph ["M0"; "M1"; "J0"] [("M1", "J0")]) component) = []).
Proof.
  apply (@matching_phase_sets_nothing Q Q_Arith (disjoint_edges_engine Qfrac_one_half)
           Qfrac_one_half (build Q15) (mkScedual Q15 [[true]; [false]])
           (mkGraph ["M0"; "M1"; "J0"] [("M0", "J0"); ("M1", "J0")])
           (mkGraph ["M0"; "M1"; "J0"] [("M1", "J0")])).
  - intros G' item Hin. apply in_flat_map in Hin.
    destruct Hin as (e & _ & [<- | [<- | []]]); eexists; reflexivity.
  - vm_compute. reflexivity.
  - vm_compute. reflexivity.
  - reflexivity.
Defined.

(** The run of the witness: the first loop sets (0,0); the component of
    M1 and J0 has a matching, and its first item raises. *)
Example matching_raises_on_first_item :
  Round (engines := disjoint_edges_engine Qfrac_one_half) Qfrac_one_half (build Q15)
  = (mkScedual Q15 [[true]; [false]], Raise IndexError).
Proof. vm_compute. reflexivity. Qed.

(** * fairpy.courses.instance *)

(** The doctests of [Instance], replayed. *)
Example doctest_dict_of_dicts :
  Courses.res_bind Courses.dict_of_dicts (fun i =>
    Courses.res_bind (Courses.agent_capacity i (Courses.KStr "Alice")) (fun a =>
    Courses.res_bind (Courses.item_capacity i (Courses.KStr "c2")) (fun b =>
    Courses.res_bind (Courses.call_value i (Courses.KStr "Bob") (Courses.KStr "c1")) (fun c =>
    Courses.res_bind (Courses.agent_bundle_value i (Courses.KStr "Bob")
                        [Courses.KStr "c1"; Courses.KStr "c2"]) (fun d =>
    Courses.res_bind (Courses.agent_maximum_value i (Courses.KStr "Alice")) (fun e =>
    Courses.res_bind (Courses.agent_maximum_value i (Courses.KStr "Bob")) (fun f =>
    Courses.Val [a; b; c; d; e; f])))))))
  = Courses.Val [2; 5; 33; 77; 33; 77]%Z.
Proof. reflexivity. Qed.

Example doctest_dict_of_lists :
  Courses.res_bind Courses.dict_of_lists (fun i =>
    Courses.res_bind (Courses.agent_capacity i (Courses.KStr "Alice")) (fun a =>
    Courses.res_bind (Courses.item_capacity i (Courses.KInt 2)) (fun b =>
    Courses.res_bind (Courses.call_value i (Courses.KStr "Alice") (Courses.KInt 3)) (fun c =>
    Courses.res_bind (Courses.agent_maximum_value i (Courses.KStr "Alice")) (fun e =>
    Courses.res_bind (Courses.agent_maximum_value i (Courses.KStr "Bob")) (fun f =>
    Courses.Val [a; b; c; e; f]))))))
  = Courses.Val [2; 3; 55; 99; 264]%Z.
Proof. reflexivity. Qed.

Example doctest_default_capacities :
  Courses.res_bind Courses.default_capacities (fun i =>
    Courses.res_bind (Courses.agent_capacity i (Courses.KStr "avi")) (fun a =>
    Courses.res_bind (Courses.item_capacity i (Courses.KStr "x")) (fun b =>
    Courses.res_bind (Courses.call_value i (Courses.KStr "beni") (Courses.KStr "y")) (fun c =>
    Courses.Val [a; b; c]))))
  = Courses.Val [2; 1; 3]%Z.
Proof. reflexivity. Qed.

(** ** Sums, sorting and slices *)

Lemma sum_acc (xs : list Z) (a : Z) : fold_left Z.add xs a = (a + Courses.sum xs)%Z.
Proof.
  unfold Courses.sum. revert a. induction xs as [|x r IH]; intros a; simpl; [lia|].
  rewrite (IH (a + x)%Z), (IH x). lia.
Qed.

Lemma sum_cons (x : Z) (xs : list Z) : Courses.sum (x :: xs) = (x + Courses.sum xs)%Z.
Proof. unfold Courses.sum at 1. simpl. apply sum_acc. Qed.

Lemma sum_app (xs ys : list Z) :
  Courses.sum (xs ++ ys) = (Courses.sum xs + Courses.sum ys)%Z.
Proof.
  induction xs as [|x r IH]; simpl; [reflexivity|]. rewrite !sum_cons, IH. lia.
Qed.

Lemma sum_perm (xs ys : list Z) : Permutation xs ys -> Courses.sum xs = Courses.sum ys.
Proof.
  induction 1; rewrite ?sum_cons; try reflexivity; try lia; congruence.
Qed.

Lemma sum_nonneg (xs : list Z) : (forall x, In x xs -> (0 <= x)%Z) -> (0 <= Courses.sum xs)%Z.
Proof.
  induction xs as [|x r IH]; intros Hpos; [reflexivity|]. rewrite sum_cons.
  assert (0 <= x)%Z by (apply Hpos; left; reflexivity).
  assert (0 <= Courses.sum r)%Z by (apply IH; intros; apply Hpos; right; assumption).
  lia.
Qed.

Lemma insert_reverse_perm (x : Z) (l : list Z) :
  Permutation (Courses.insert_reverse x l) (x :: l).
Proof.
  induction l as [|y r IH]; simpl; [reflexivity|].
  destruct (y <? x)%Z; [reflexivity|].
  rewrite IH. apply perm_swap.
Qed.

Lemma sorted_reverse_perm (xs : list Z) : Permutation (Courses.sorted_reverse xs) xs.
Proof.
  induction xs as [|x r IH]; simpl; [reflexivity|].
  rewrite insert_reverse_perm. now apply perm_skip.
Qed.

Lemma insert_reverse_sorted (x : Z) (l : list Z) :
  StronglySorted (fun a b => (b <= a)%Z) l ->
  StronglySorted (fun a b => (b <= a)%Z) (Courses.insert_reverse x l).
Proof.
  induction l as [|y r IH]; intros Hs; simpl.
  - constructor; constructor.
  - apply StronglySorted_inv in Hs. destruct Hs as [Hr Hy].
    destruct (y <? x)%Z eqn:Hlt.
    + apply Z.ltb_lt in Hlt. constructor.
      * constructor; assumption.
      * constructor; [lia|]. rewrite Forall_forall in *. intros z Hz.
        specialize (Hy z Hz). lia.
    + apply Z.ltb_ge in Hlt. constructor; [apply IH, Hr|].
      rewrite Forall_forall in *. intros z Hz.
      apply (Permutation_in _ (insert_reverse_perm x r)) in Hz.
      destruct Hz as [<- | Hz]; [exact Hlt | apply Hy, Hz].
Qed.

Lemma sorted_reverse_sorted (xs : list Z) :
  StronglySorted (fun a b => (b <= a)%Z) (Courses.sorted_reverse xs).
Proof.
  induction xs as [|x r IH]; simpl; [constructor|]. apply insert_reverse_sorted, IH.
Qed.

Lemma in_firstn {A} (k : nat) (l : list A) (x : A) : In x (firstn k l) -> In x l.
Proof.
  intros H. rewrite <- (firstn_skipn k l). apply in_or_app. left. exact H.
Qed.

(** The first [k] entries of a descending list of non-negative numbers
    weigh at least as much as any [k] of its entries. *)
Lemma top_k_is_max (S : list Z) :
  StronglySorted (fun a b => (b <= a)%Z) S ->
  (forall x, In x S -> (0 <= x)%Z) ->
  forall (k : nat) (A B : list Z),
    Permutation S (A ++ B) -> length A <= k ->
    (Courses.sum A <= Courses.sum (firstn k S))%Z.
Proof.
  induction S as [|s S' IH]; intros Hs Hpos k A B Hperm Hlen.
  - apply Permutation_nil in Hperm. apply app_eq_nil in Hperm. destruct Hperm; subst.
    rewrite firstn_nil. reflexivity.
  - apply StronglySorted_inv in Hs. destruct Hs as [Hs' Hmax].
    rewrite Forall_forall in Hmax.
    assert (Hpos' : forall x, In x S' -> (0 <= x)%Z)
      by (intros; apply Hpos; right; assumption).
    destruct k as [|k].
    { destruct A; [reflexivity | simpl in Hlen; lia]. }
    cbn [firstn]. rewrite sum_cons.
    assert (Hin : In s (A ++ B)%list)
      by (apply (Permutation_in _ Hperm); left; reflexivity).
    apply in_app_or in Hin. destruct Hin as [Hin | Hin].
    + apply in_split in Hin. destruct Hin as (A1 & A2 & ->).
      rewrite <- app_assoc in Hperm. simpl in Hperm.
      apply Permutation_cons_app_inv in Hperm. rewrite app_assoc in Hperm.
      assert (Hle : (Courses.sum (A1 ++ A2)%list <= Courses.sum (firstn k S'))%Z).
      { apply (IH Hs' Hpos' k (A1 ++ A2)%list B Hperm).
        rewrite length_app in *. simpl in Hlen. lia. }
      rewrite sum_app in *. rewrite sum_cons. lia.
    + apply in_split in Hin. destruct Hin as (B1 & B2 & ->).
      rewrite app_assoc in Hperm. apply Permutation_cons_app_inv in Hperm.
      rewrite <- app_assoc in Hperm.
      destruct A as [|a A'].
      * assert (0 <= s)%Z by (apply Hpos; left; reflexivity).
        assert (0 <= Courses.sum (firstn k S'))%Z.
        { apply sum_nonneg. intros x Hx. apply Hpos'. eapply in_firstn; eauto. }
        change (Courses.sum []) with 0%Z. lia.
      * assert (Ha : (a <= s)%Z).
        { apply Hmax. apply (Permutation_in _ (Permutation_sym Hperm)). left. reflexivity. }
        assert (Hperm' : Permutation S' (A' ++ a :: B1 ++ B2)%list).
        { rewrite Hperm. simpl. apply Permutation_middle. }
        assert (Hle : (Courses.sum A' <= Courses.sum (firstn k S'))%Z).
        { apply (IH Hs' Hpos' k A' (a :: B1 ++ B2)%list Hperm'). simpl in Hlen. lia. }
        rewrite sum_cons. lia.
Qed.

Lemma NoDup_incl_split {A} (l l' : list A) :
  NoDup l -> incl l l' -> exists r, Permutation l' (l ++ r).
Proof.
  intros Hnd. revert l'. induction Hnd as [|a l Hnotin Hnd IH]; intros l' Hincl.
  - exists l'. reflexivity.
  - assert (Hin : In a l') by (apply Hincl; left; reflexivity).
    apply in_split in Hin. destruct Hin as (l1 & l2 & ->).
    destruct (IH (l1 ++ l2)%list) as [r Hr].
    { intros x Hx. assert (Hx' : In x (l1 ++ a :: l2)%list) by (apply Hincl; right; exact Hx).
      apply in_app_or in Hx'. apply in_or_app.
      destruct Hx' as [H1 | [Heq | H2]]; auto. subst. contradiction. }
    exists r. rewrite <- Permutation_middle. simpl. apply perm_skip. exact Hr.
Qed.

Lemma comprehension_total {A B} (f : A -> Courses.res B) (g : A -> B) (xs : list A) :
  (forall x, In x xs -> f x = Courses.Val (g x)) ->
  Courses.comprehension f xs = Courses.Val (map g xs).
Proof.
  induction xs as [|x r IH]; intros Hf; simpl; [reflexivity|].
  rewrite Hf by (left; reflexivity). simpl.
  rewrite IH by (intros; apply Hf; right; assumption). reflexivity.
Qed.

Lemma comprehension_length {A B} (f : A -> Courses.res B) (xs : list A) (ys : list B) :
  Courses.comprehension f xs = Courses.Val ys -> length ys = length xs.
Proof.
  revert ys. induction xs as [|x r IH]; intros ys Hc; simpl in Hc.
  - inversion Hc. reflexivity.
  - destruct (f x) as [y|e]; [|discriminate]. simpl in Hc.
    destruct (Courses.comprehension f r) as [ys'|e]; [|discriminate].
    simpl in Hc. inversion Hc. simpl. f_equal. apply IH. reflexivity.
Qed.

(** X22. The value that [agent_maximum_value] returns bounds the value
    of every bundle the agent can take: for non-negative integer values,
    a bundle of distinct items of the instance, not larger than the
    agent's capacity, is worth at most the maximum value. *)
Theorem maximum_bounds_bundle :
  forall (self : Courses.Instance) (agent : Courses.key) (value : Courses.key -> Z)
         (capacity : Z) (bundle : list Courses.key),
    (forall item, In item (Courses.items self) ->
                  Courses.call_value self agent item = Courses.Val (value item)) ->
    (forall item, In item (Courses.items self) -> (0 <= value item)%Z) ->
    Courses.agent_capacity self agent = Courses.Val capacity ->
    NoDup bundle -> incl bundle (Courses.items self) ->
    (Z.of_nat (length bundle) <= capacity)%Z ->
    exists total best,
      Courses.agent_bundle_value self agent bundle = Courses.Val total /\
      Courses.agent_maximum_value self agent = Courses.Val best /\
      (total <= best)%Z.
Proof.
  intros self agent value capacity bundle Hval Hpos Hcap Hnd Hincl Hlen.
  exists (Courses.sum (map value bundle)),
         (Courses.sum (Courses.slice_to
                         (Courses.sorted_reverse (map value (Courses.items self))) capacity)).
  split; [|split].
  - unfold Courses.agent_bundle_value.
    rewrite (comprehension_total _ value) by (intros; apply Hval, Hincl; assumption).
    reflexivity.
  - unfold Courses.agent_maximum_value.
    rewrite (comprehension_total _ value) by assumption. simpl. rewrite Hcap. reflexivity.
  - unfold Courses.slice_to.
    destruct (capacity <? 0)%Z eqn:Hneg; [apply Z.ltb_lt in Hneg; lia|].
    destruct (NoDup_incl_split Hnd Hincl) as [r Hr].
    apply (top_k_is_max (sorted_reverse_sorted _)) with (B := map value r).
    + intros x Hx. apply (Permutation_in _ (sorted_reverse_perm _)) in Hx.
      apply in_map_iff in Hx. destruct Hx as (item & <- & Hitem). apply Hpos, Hitem.
    + rewrite sorted_reverse_perm, <- map_app. apply Permutation_map, Hr.
    + rewrite length_map. lia.
Qed.

Lemma maximum_bounds_bundle_witness :
  exists total best,
    Courses.agent_bundle_value Courses.alice_bob (Courses.KStr "Alice") [Courses.KStr "c2"]
    = Courses.Val total /\
    Courses.agent_maximum_value Courses.alice_bob (Courses.KStr "Alice") = Courses.Val best /\
    (total <= best)%Z.
Proof.
  apply (@maximum_bounds_bundle Courses.alice_bob (Courses.KStr "Alice")
           (fun item => if Courses.key_eqb item (Courses.KStr "c1") then 11%Z else 22%Z)
           2%Z [Courses.KStr "c2"]).
  - intros item [<- | [<- | []]]; reflexivity.
  - intros item [<- | [<- | []]]; simpl; lia.
  - reflexivity.
  - constructor; [intros [] | constructor].
  - intros item [<- | []]. right. left. reflexivity.
  - simpl. lia.
Defined.

Example alice_bob_is_built : Courses.dict_of_dicts = Courses.Val Courses.alice_bob.
Proof. reflexivity. Qed.

(** ** Default capacities *)

Lemma init_fields (valuations : Courses.Container2)
      (agent_capacities agent_priorities agent_entitlements item_capacities : Courses.Container)
      (agents_arg items_arg : option (list Courses.key)) (self : Courses.Instance) :
  Courses.init valuations agent_capacities agent_priorities agent_entitlements
               item_capacities agents_arg items_arg = Courses.Val self ->
  Courses.num_of_agents self = length (Courses.agents self) /\
  Courses.num_of_items self = length (Courses.items self) /\
  Courses.agent_capacity self
  = Courses.func_or (snd (Courses.get_keys_and_mapping agent_capacities))
      (Courses.constant_function (Z.of_nat (length (Courses.items self)))) /\
  Courses.item_capacity self
  = Courses.func_or (snd (Courses.get_keys_and_mapping item_capacities))
      (Courses.constant_function 1%Z).
Proof.
  unfold Courses.init. intros Hinit.
  destruct (Courses.get_keys_and_mapping_2d valuations) as [[[k1 k2] f]|e]; [|discriminate].
  cbn [Courses.res_bind] in Hinit.
  destruct (Courses.get_keys_and_mapping agent_capacities) as [ack acf].
  destruct (Courses.get_keys_and_mapping agent_priorities) as [apk apf].
  destruct (Courses.get_keys_and_mapping agent_entitlements) as [aek aef].
  destruct (Courses.get_keys_and_mapping item_capacities) as [ick icf].
  destruct (Courses.keys_or agents_arg (Courses.keys_or ack (Courses.keys_or apk k1)))
    as [self_agents|]; [|discriminate].
  destruct (Courses.keys_or items_arg (Courses.keys_or ick k2))
    as [self_items|]; [|discriminate].
  inversion Hinit; subst; clear Hinit. simpl. repeat split.
Qed.

(** X23. When no agent capacities are given, every agent's capacity is
    the number of items, so on integer values, which [sum] adds exactly
    in any order, [agent_maximum_value] is the value of the bundle of all
    items; this holds whatever else is passed to the constructor, also
    when reading a value raises. *)
Theorem default_capacity_takes_all :
  forall (valuations : Courses.Container2)
         (agent_priorities agent_entitlements item_capacities : Courses.Container)
         (agents_arg items_arg : option (list Courses.key))
         (self : Courses.Instance) (agent : Courses.key),
    Courses.init valuations Courses.CNone agent_priorities agent_entitlements
                 item_capacities agents_arg items_arg = Courses.Val self ->
    Courses.agent_capacity self agent
    = Courses.Val (Z.of_nat (Courses.num_of_items self)) /\
    Courses.agent_maximum_value self agent
    = Courses.agent_bundle_value self agent (Courses.items self).
Proof.
  intros valuations prio ent icap agents_arg items_arg self agent Hinit.
  destruct (init_fields _ _ _ _ _ _ _ Hinit) as (_ & Hn & Hcap & _).
  simpl in Hcap. split.
  - rewrite Hcap, Hn. reflexivity.
  - unfold Courses.agent_maximum_value, Courses.agent_bundle_value.
    destruct (Courses.comprehension (Courses.call_value self agent) (Courses.items self))
      as [values|e] eqn:Hvalues; [|reflexivity].
    cbn [Courses.res_bind]. rewrite Hcap. unfold Courses.constant_function.
    cbn [Courses.res_bind]. f_equal.
    apply comprehension_length in Hvalues.
    unfold Courses.slice_to.
    destruct (Z.of_nat (length (Courses.items self)) <? 0)%Z eqn:Hneg;
      [apply Z.ltb_lt in Hneg; lia|].
    rewrite Nat2Z.id.
    rewrite firstn_all2.
    + apply sum_perm, sorted_reverse_perm.
    + rewrite (Permutation_length (sorted_reverse_perm values)). lia.
Qed.

Lemma default_capacity_takes_all_witness :
  Courses.agent_capacity Courses.avi_beni (Courses.KStr "avi")
  = Courses.Val (Z.of_nat (Courses.num_of_items Courses.avi_beni)) /\
  Courses.agent_maximum_value Courses.avi_beni (Courses.KStr "avi")
  = Courses.agent_bundle_value Courses.avi_beni (Courses.KStr "avi")
      (Courses.items Courses.avi_beni).
Proof.
  apply (@default_capacity_takes_all (Courses.C2Dict Courses.avi_beni_valuations)
           Courses.CNone Courses.CNone Courses.CNone None None).
  reflexivity.
Defined.

(** ** Keys and mappings of the containers *)

Lemma key_eqb_eq (a b : Courses.key) : Courses.key_eqb a b = true <-> a = b.
Proof.
  destruct a as [i|s], b as [j|t]; simpl.
  - rewrite Z.eqb_eq. split; [intros ->; reflexivity | intros H; now inversion H].
  - split; discriminate.
  - split; discriminate.
  - rewrite String.eqb_eq. split; [intros ->; reflexivity | intros H; now inversion H].
Qed.

Lemma dict_getitem_in {V} (d : list (Courses.key * V)) (k : Courses.key) :
  In k (map fst d) <-> exists v, Courses.dict_getitem d k = Courses.Val v.
Proof.
  induction d as [|[k' v'] r IH]; simpl.
  - split; [intros [] | intros [v Hv]; discriminate].
  - destruct (Courses.key_eqb k k') eqn:Heq.
    + apply key_eqb_eq in Heq. subst. split; eauto.
    + rewrite <- IH. split; [|auto].
      intros [Hk | Hin]; [|exact Hin].
      subst. assert (Courses.key_eqb k k = true) by now apply key_eqb_eq. congruence.
Qed.

Lemma in_int_keys (n : nat) (k : Courses.key) :
  In k (Courses.int_keys n) <-> exists i, i < n /\ k = Courses.KInt (Z.of_nat i).
Proof.
  unfold Courses.int_keys, range. rewrite in_map_iff. split.
  - intros (i & <- & Hi). apply in_seq in Hi. exists i. split; [lia | reflexivity].
  - intros (i & Hi & ->). exists i. split; [reflexivity | apply in_seq; lia].
Qed.

Lemma list_getitem_defined {V} (l : list V) (k : Courses.key) :
  (exists v, Courses.list_getitem l k = Courses.Val v) <->
  exists i, k = Courses.KInt i /\ (- Z.of_nat (length l) <= i < Z.of_nat (length l))%Z.
Proof.
  destruct k as [i|s]; simpl.
  2:{ split; [intros [v Hv]; discriminate | intros (i & Hi & _); discriminate]. }
  split.
  - intros [v Hv]. exists i. split; [reflexivity|].
    destruct (i <? 0)%Z eqn:Hneg.
    + apply Z.ltb_lt in Hneg.
      destruct (i + Z.of_nat (length l) <? 0)%Z eqn:Hlow; [discriminate|].
      apply Z.ltb_ge in Hlow. lia.
    + apply Z.ltb_ge in Hneg. rewrite (proj2 (Z.ltb_ge i 0) Hneg) in Hv.
      destruct (nth_error l (Z.to_nat i)) as [v'|] eqn:Hnth; [|discriminate].
      assert (Z.to_nat i < length l) by (apply nth_error_Some; congruence). lia.
  - intros (i' & Heq & Hi). inversion Heq; subst i'.
    destruct (i <? 0)%Z eqn:Hneg.
    + apply Z.ltb_lt in Hneg.
      rewrite (proj2 (Z.ltb_ge (i + Z.of_nat (length l)) 0)) by lia.
      destruct (nth_error l (Z.to_nat (i + Z.of_nat (length l)))) as [v|] eqn:Hnth; eauto.
      apply nth_error_None in Hnth. lia.
    + rewrite Hneg.
      apply Z.ltb_ge in Hneg.
      destruct (nth_error l (Z.to_nat i)) as [v|] eqn:Hnth; eauto.
      apply nth_error_None in Hnth. lia.
Qed.

(** X24. When [get_keys_and_mapping] returns keys (for a dict or a
    list), the mapping has a value for each of them; it has a value for
    no other key, except that the mapping of a list also accepts the
    negative indices that count from the end. *)
Theorem keys_are_mapped :
  forall (container : Courses.Container) (keys : list Courses.key)
         (func : Courses.key -> Courses.res Z),
    Courses.get_keys_and_mapping container = (Some keys, Some func) ->
    (forall k, In k keys -> exists v, func k = Courses.Val v) /\
    (forall k v, func k = Courses.Val v ->
                 In k keys \/
                 exists l i, container = Courses.CList l /\ k = Courses.KInt i /\
                             (- Z.of_nat (length l) <= i < 0)%Z).
Proof.
  intros container keys func Hget.
  destruct container as [|d|l|n|f]; simpl in Hget; inversion Hget; subst; clear Hget.
  - split.
    + intros k Hk. apply dict_getitem_in, Hk.
    + intros k v Hv. left. apply dict_getitem_in. eauto.
  - split.
    + intros k Hk. apply in_int_keys in Hk. destruct Hk as (i & Hi & ->).
      apply list_getitem_defined. exists (Z.of_nat i). split; [reflexivity | lia].
    + intros k v Hv.
      destruct (proj1 (list_getitem_defined l k) (ex_intro _ v Hv)) as (i & -> & Hi).
      destruct (Z.neg_nonneg_cases i) as [Hneg | Hpos].
      * right. exists l, i. repeat split; lia.
      * left. apply in_int_keys. exists (Z.to_nat i). split; [lia|].
        rewrite Z2Nat.id by exact Hpos. reflexivity.
Qed.

Lemma keys_are_mapped_witness :
  (forall k, In k [Courses.KInt 0; Courses.KInt 1] ->
             exists v, Courses.list_getitem [11; 12]%Z k = Courses.Val v) /\
  (forall k v, Courses.list_getitem [11; 12]%Z k = Courses.Val v ->
               In k [Courses.KInt 0; Courses.KInt 1] \/
               exists l i, Courses.CList [11; 12]%Z = Courses.CList l /\
                           k = Courses.KInt i /\
                           (- Z.of_nat (length l) <= i < 0)%Z).
Proof.
  apply (@keys_are_mapped (Courses.CList [11; 12]%Z)). reflexivity.
Defined.

(** ** Failures of the constructor *)

(** X25. On containers of the supported types the constructor of
    [Instance] raises nothing but [StopIteration], [IndexError] and
    [AssertionError]: the first exactly when the valuations are an empty
    dict, the second exactly when they are an empty list, whatever the
    other arguments are. *)
Theorem init_errors :
  forall (valuations : Courses.Container2)
         (agent_capacities agent_priorities agent_entitlements item_capacities
          : Courses.Container)
         (agents_arg items_arg : option (list Courses.key)),
    let built := Courses.init valuations agent_capacities agent_priorities
                              agent_entitlements item_capacities agents_arg items_arg in
    (built = Courses.Err Courses.StopIteration <-> valuations = Courses.C2Dict []) /\
    (built = Courses.Err Courses.IndexError <-> valuations = Courses.C2List []) /\
    (forall e, built = Courses.Err e ->
               e = Courses.StopIteration \/ e = Courses.IndexError \/
               e = Courses.AssertionError).
Proof.
  intros valuations acap prio ent icap agents_arg items_arg built.
  assert (Hcases :
            (valuations = Courses.C2Dict [] /\ built = Courses.Err Courses.StopIteration) \/
            (valuations = Courses.C2List [] /\ built = Courses.Err Courses.IndexError) \/
            (valuations <> Courses.C2Dict [] /\ valuations <> Courses.C2List [] /\
             (built = Courses.Err Courses.AssertionError \/ exists self, built = Courses.Val self))).
  { subst built. unfold Courses.init.
    destruct valuations as [|[|[k row] d]|[|row l]|f];
      try (left; split; reflexivity);
      try (right; left; split; reflexivity);
      right; right; (split; [discriminate|]); (split; [discriminate|]);
      cbn [Courses.get_keys_and_mapping_2d Courses.res_bind];
      destruct (Courses.get_keys_and_mapping acap) as [ack acf];
      destruct (Courses.get_keys_and_mapping prio) as [apk apf];
      destruct (Courses.get_keys_and_mapping ent) as [aek aef];
      destruct (Courses.get_keys_and_mapping icap) as [ick icf];
      match goal with
      | |- context [match ?a with Some _ => _ | None => _ end] =>
          destruct a; [|left; reflexivity]
      end;
      match goal with
      | |- context [match ?a with Some _ => _ | None => _ end] =>
          destruct a; [|left; reflexivity]
      end;
      right; eexists; reflexivity. }
  destruct Hcases as [[Hv Hb] | [[Hv Hb] | (Hd & Hl & [Hb | [self Hb]])]];
    rewrite Hb; repeat split;
    try (intros; congruence); intros e H; inversion H; auto.
Qed.

(** * The range of the binary search *)

Lemma py_sum_map_le {A} (f g : A -> Q) (l : list A) :
  (forall a, In a l -> (f a <= g a)%Q) ->
  (py_sum (map f l) <= py_sum (map g l))%Q.
Proof.
  induction l as [|a r IH]; intros Hle.
  - apply Qle_refl.
  - cbn [map]. rewrite !py_sum_cons.
    assert (f a <= g a)%Q by (apply Hle; left; reflexivity).
    assert (py_sum (map f r) <= py_sum (map g r))%Q
      by (apply IH; intros; apply Hle; right; assumption).
    lra.
Qed.

Lemma py_sum_map_plus {A} (f g : A -> Q) (l : list A) :
  (py_sum (map (fun a => f a + g a) l) == py_sum (map f l) + py_sum (map g l))%Q.
Proof.
  induction l as [|a r IH].
  - unfold py_sum. simpl. lra.
  - cbn [map]. rewrite !py_sum_cons, IH. lra.
Qed.

Lemma py_sum_map_const {A} (v : Q) (l : list A) :
  (py_sum (map (fun _ => v) l) == inject_Z (Z.of_nat (length l)) * v)%Q.
Proof.
  induction l as [|a r IH].
  - change (0 == 0 * v)%Q. lra.
  - cbn [map length]. rewrite py_sum_cons, IH, Nat2Z.inj_succ.
    unfold Z.succ. rewrite inject_Z_plus. change (inject_Z 1) with 1%Q. lra.
Qed.

(** The cost of a job on the first machine that has it in a schedule *)
Lemma first_assigned_spec (s : Scedual Q) (job : nat) :
  0 < Mechines s ->
  hd 0 (filter (fun m => assigned s m job) (range (Mechines s))) < Mechines s /\
  ((exists m, m < Mechines s /\ assigned s m job = true) ->
   assigned s (hd 0 (filter (fun m => assigned s m job) (range (Mechines s)))) job = true).
Proof.
  intros HM.
  destruct (filter (fun m => assigned s m job) (range (Mechines s))) as [|m0 r] eqn:Hf.
  - split; [exact HM|]. intros (m & Hm & Ha).
    assert (Hin : In m (filter (fun m => assigned s m job) (range (Mechines s)))).
    { apply filter_In. split; [apply in_seq; lia | exact Ha]. }
    rewrite Hf in Hin. destruct Hin.
  - assert (Hin : In m0 (filter (fun m => assigned s m job) (range (Mechines s)))).
    { rewrite Hf. left. reflexivity. }
    apply filter_In in Hin. destruct Hin as [Hin Ha]. apply in_seq in Hin.
    split; [simpl; lia | intros _; exact Ha].
Qed.

(** The costs of the jobs, each on a machine that has it, weigh no more
    than the loads of all machines together. *)
Lemma total_cost_le_loads (s : Scedual Q) (pick : nat -> nat) (k : nat) :
  nonneg_costs (costs s) ->
  (forall j, j < k -> pick j < Mechines s /\ assigned s (pick j) j = true) ->
  (total_cost (costs s) pick k
   <= py_sum (map (fun m => py_sum (map (vm_at (costs s) m)
                                        (filter (assigned s m) (range k))))
                  (range (Mechines s))))%Q.
Proof.
  intros Hpos. induction k as [|k IH]; intros Hpick.
  - unfold total_cost. change (py_sum (map _ (range 0))) with 0%Q.
    apply py_sum_nonneg. intros x Hx. apply in_map_iff in Hx.
    destruct Hx as (m & <- & _). apply Qle_refl.
  - rewrite total_cost_succ.
    assert (IH' := IH (fun j Hj => Hpick j (Nat.lt_lt_succ_r _ _ Hj))). clear IH.
    destruct (Hpick k (Nat.lt_succ_diag_r k)) as [Hpk Hak].
    set (d := fun m => if assigned s m k then vm_at (costs s) m k else 0%Q).
    assert (Hd : (vm_at (costs s) (pick k) k <= py_sum (map d (range (Mechines s))))%Q).
    { apply py_sum_ge_member.
      - intros y Hy. apply in_map_iff in Hy. destruct Hy as (m & <- & _).
        unfold d. destruct (assigned s m k); [apply Hpos | apply Qle_refl].
      - apply in_map_iff. exists (pick k). split.
        + unfold d. rewrite Hak. reflexivity.
        + apply in_seq. lia. }
    assert (Hstep : (py_sum (map (fun m => py_sum (map (vm_at (costs s) m)
                                                      (filter (assigned s m) (range k)))
                                          + d m)
                                 (range (Mechines s)))
                     <= py_sum (map (fun m => py_sum (map (vm_at (costs s) m)
                                                         (filter (assigned s m) (range (S k)))))
                                    (range (Mechines s))))%Q).
    { apply py_sum_map_le. intros m _. unfold range. rewrite seq_S. simpl.
      rewrite filter_app, map_app, py_sum_app. cbn [filter]. unfold d.
      destruct (assigned s m k).
      - cbn [map]. rewrite py_sum_cons. change (py_sum (@nil Q)) with 0%Q. lra.
      - cbn [map]. change (py_sum (@nil Q)) with 0%Q. lra. }
    rewrite py_sum_map_plus in Hstep. lra.
Qed.

(** X26. With costs that are not negative, the lower bound from which the
    driver starts its search, the greedy makespan divided by the number
    of machines, is at most the makespan of every schedule in which each
    job has a machine: the search does not start above the optimum. *)
Theorem search_lower_bound_is_valid :
  forall (st s : Scedual Q),
    nonneg_costs (costs st) ->
    0 < Mechines st ->
    costs s = costs st ->
    well_shaped s ->
    (forall job, job < Jobs st -> exists m, m < Mechines st /\ assigned s m job = true) ->
    exists lower upper v,
      greedy_bounds st = Ok (lower, upper) /\
      scedual_makespan.extract_result s = Ok v /\
      (lower <= v)%Q.
Proof.
  intros st s Hpos HM Hc Hws Hcover.
  assert (HMs : 0 < Mechines s) by (unfold Mechines in *; now rewrite Hc).
  assert (HMeq : Mechines s = Mechines st) by (unfold Mechines; now rewrite Hc).
  assert (HJeq : Jobs s = Jobs st) by (unfold Jobs; now rewrite Hc).
  set (pick := fun job => hd 0 (filter (fun m => assigned s m job) (range (Mechines s)))).
  assert (Hpick : forall j, pick j < num_of_agents (costs st)).
  { intros j. destruct (first_assigned_spec s j HMs) as [Hlt _].
    unfold Mechines in Hlt at 2. rewrite Hc in Hlt. exact Hlt. }
  destruct (@greedy_loads_bound (costs st) pick Hpos HM Hpick)
    as (g & Hrun & Hcg & Hwsg & Hload).
  assert (HMg : 0 < Mechines g) by (unfold Mechines in *; now rewrite Hcg).
  destruct (makespan_of_loads Hwsg HMg) as (upper & Hupper & (m0 & Hm0 & Hueq) & _).
  destruct (makespan_of_loads Hws HMs) as (v & Hv & _ & Hall).
  exists (upper / inject_Z (Z.of_nat (Mechines st)))%Q, upper, v.
  split; [unfold greedy_bounds; rewrite Hrun, Hupper; reflexivity|].
  split; [exact Hv|].
  assert (Htotal : (total_cost (costs s) pick (Jobs s)
                    <= py_sum (map (fun m => load s m) (range (Mechines s))))%Q).
  { apply (@total_cost_le_loads s pick (Jobs s)).
    - rewrite Hc. exact Hpos.
    - intros j Hj. destruct (first_assigned_spec s j HMs) as [Hlt Ha].
      split; [exact Hlt|]. apply Ha.
      destruct (Hcover j) as (m & Hm & Hset); [lia|]. exists m. split; [lia | exact Hset]. }
  assert (Hloads : (py_sum (map (fun m => load s m) (range (Mechines s)))
                    <= inject_Z (Z.of_nat (Mechines s)) * v)%Q).
  { apply Qle_trans with (py_sum (map (fun _ : nat => v) (range (Mechines s)))).
    - apply py_sum_map_le. intros m Hm. apply Hall. apply in_seq in Hm. lia.
    - rewrite py_sum_map_const. unfold range. rewrite length_seq. apply Qle_refl. }
  assert (Hup : (upper <= total_cost (costs s) pick (Jobs s))%Q).
  { rewrite Hueq, Hc. unfold Jobs. rewrite Hc. apply Hload. exact Hm0. }
  assert (Hd : (0 < inject_Z (Z.of_nat (Mechines st)))%Q).
  { unfold Qlt. simpl. lia. }
  apply Qle_shift_div_r; [exact Hd|]. rewrite <- HMeq. lra.
Qed.

Lemma search_lower_bound_is_valid_witness :
  exists lower upper v,
    greedy_bounds (build Q1551) = Ok (lower, upper) /\
    scedual_makespan.extract_result (mkScedual Q1551 [[true; true]; [false; false]]) = Ok v /\
    (lower <= v)%Q.
Proof.
  apply (@search_lower_bound_is_valid (build Q1551)
           (mkScedual Q1551 [[true; true]; [false; false]])).
  - apply Qcosts_nonneg. repeat constructor; lia.
  - unfold Mechines, num_of_agents. simpl. lia.
  - reflexivity.
  - split; [reflexivity | repeat constructor].
  - intros job Hjob. exists 0. split; [unfold Mechines, num_of_agents; simpl; lia|].
    change (job < 2) in Hjob. destruct job as [|[|job]]; try lia; reflexivity.
Defined.

(** * What the linear program of the oracle admits *)

Lemma py_sum_map_eq {A} (f g : A -> Q) (l : list A) :
  (forall a, In a l -> (f a == g a)%Q) ->
  (py_sum (map f l) == py_sum (map g l))%Q.
Proof.
  intros Heq. apply Qle_antisym; apply py_sum_map_le; intros a Ha;
    rewrite (Heq a Ha); apply Qle_refl.
Qed.

Lemma py_sum_swap {A B} (f : A -> B -> Q) (la : list A) (lb : list B) :
  (py_sum (map (fun a => py_sum (map (fun b => f a b) lb)) la)
   == py_sum (map (fun b => py_sum (map (fun a => f a b) la)) lb))%Q.
Proof.
  induction la as [|a r IH].
  - transitivity (py_sum (map (fun _ : B => 0%Q) lb)).
    + rewrite py_sum_map_const. change (py_sum (map _ (@nil A))) with 0%Q. lra.
    + apply py_sum_map_eq. intros b _. reflexivity.
  - cbn [map]. rewrite py_sum_cons, IH.
    transitivity (py_sum (map (fun b => f a b + py_sum (map (fun a0 => f a0 b) r))%Q lb)).
    + rewrite py_sum_map_plus. reflexivity.
    + apply py_sum_map_eq. intros b _. cbn [map]. symmetry. apply py_sum_cons.
Qed.

Lemma eval_terms_ones {A} (x : matrix Q) (g : A -> nat * nat) (l : list A) :
  (eval_terms x (map (fun a => (1%Q, g a)) l) == py_sum (map (fun a => value_at x (g a)) l))%Q.
Proof.
  unfold eval_terms. rewrite map_map. apply py_sum_map_eq.
  intros a' _. cbn [fst snd]. simpl. ring.
Qed.

Lemma py_sum_filter_le {A} (g : A -> Q) (p : A -> bool) (l : list A) :
  (forall a, (0 <= g a)%Q) ->
  (py_sum (map g (filter p l)) <= py_sum (map g l))%Q.
Proof.
  intros Hpos. induction l as [|a r IH].
  - apply Qle_refl.
  - cbn [filter map]. rewrite py_sum_cons. specialize (Hpos a).
    destruct (p a); [cbn [map]; rewrite py_sum_cons|]; lra.
Qed.

Section ProgramFacts.
Context {num : Type} {arith : Arith num}.

(** What a point that satisfies the constraints of the built program
    satisfies in particular. *)
Lemma feasible_parts (st : Scedual num) (bound : num) (p : Problem num)
      (x : matrix num) (a : matrix bool) :
  build_problem st bound = Some p ->
  feasible p x a = true ->
  forallb (forallb (leb zero)) x = true /\
  (forall job, job < Jobs st ->
               eqb (eval_expr x (sum_of (map (fun m => (m, job)) (job_mask st bound job))))
                   one = true) /\
  leb (eval_expr x (makespan_expr st)) bound = true.
Proof.
  unfold build_problem. intros Hp Hf.
  destruct (job_constraints st bound (range (Jobs st))) as [jcs|] eqn:Hjcs; [|discriminate].
  inversion Hp; subst p; clear Hp.
  apply job_constraints_some in Hjcs. subst jcs.
  unfold feasible in Hf. cbn [constraints] in Hf.
  cbn [forallb] in Hf.
  apply andb_prop in Hf. destruct Hf as [Hpos Hf].
  do 2 (apply andb_prop in Hf; destruct Hf as [_ Hf]).
  rewrite !forallb_app in Hf.
  apply andb_prop in Hf. destruct Hf as [Hjobs Hf].
  apply andb_prop in Hf. destruct Hf as [_ Hlast].
  cbn [forallb] in Hlast.
  apply andb_prop in Hlast. destruct Hlast as [Hlast _].
  split; [exact Hpos|]. split; [|exact Hlast].
  intros job Hjob. rewrite forallb_forall in Hjobs.
  apply (Hjobs (CEq (sum_of (map (fun m => (m, job)) (job_mask st bound job))) one)).
  apply in_map_iff. exists job. split; [reflexivity | apply in_seq; lia].
Qed.
End ProgramFacts.

(** X27. The program that the oracle builds counts jobs and does not
    weigh them: whatever the costs, no point satisfies its constraints
    unless the bound is at least the number of jobs divided by the number
    of machines. *)
Theorem program_needs_bound_above_job_share :
  forall (st : Scedual Q) (bound : Q) (p : Problem Q) (x : matrix Q) (a : matrix bool),
    build_problem st bound = Some p ->
    feasible p x a = true ->
    (inject_Z (Z.of_nat (Jobs st)) <= inject_Z (Z.of_nat (Mechines st)) * bound)%Q.
Proof.
  intros st bound p x a Hp Hf.
  destruct (feasible_parts st bound x a Hp Hf) as (Hpos & Hjobs & Hmax).
  set (f := fun (m j : nat) => value_at x (m, j)).
  assert (Hf0 : forall m j, (0 <= f m j)%Q) by (intros; apply value_at_nonneg; exact Hpos).
  (* every job is spread over the machines with total weight at least 1 *)
  assert (Hcol : forall j, In j (range (Jobs st)) ->
                           (1 <= py_sum (map (fun m => f m j) (range (Mechines st))))%Q).
  { intros j Hj. apply in_seq in Hj. specialize (Hjobs j ltac:(lia)).
    apply Qeq_bool_iff in Hjobs.
    unfold eval_expr, sum_of in Hjobs. rewrite map_map in Hjobs.
    change (@one Q Q_Arith) with 1%Q in Hjobs.
    rewrite (eval_terms_ones x (fun m => (m, j))) in Hjobs.
    apply Qle_trans with (py_sum (map (fun m => f m j) (job_mask st bound j))).
    - unfold f. rewrite Hjobs. apply Qle_refl.
    - unfold job_mask. apply py_sum_filter_le. intros m. apply Hf0. }
  (* every machine carries total weight at most the bound *)
  assert (Hrow : forall m, In m (range (Mechines st)) ->
                           (py_sum (map (fun j => f m j) (range (Jobs st))) <= bound)%Q).
  { intros m Hm. apply Qle_bool_iff in Hmax.
    unfold eval_expr, makespan_expr in Hmax. rewrite map_map in Hmax.
    change (@one Q Q_Arith) with 1%Q in Hmax.
    destruct (map (fun mechine => eval_terms x (map (fun j => (1%Q, (mechine, j)))
                                                    (range (Jobs st))))
                  (range (Mechines st))) as [|r0 rows] eqn:Hrows.
    { apply (f_equal (@length Q)) in Hrows. rewrite length_map in Hrows.
      destruct (range (Mechines st)); [destruct Hm | discriminate]. }
    cbn [py_max] in Hmax.
    destruct (py_max_from_spec r0 rows) as (_ & Hbest & Hall).
    assert (Hin : In (eval_terms x (map (fun j => (1%Q, (m, j))) (range (Jobs st))))
                     (r0 :: rows)).
    { rewrite <- Hrows. apply in_map_iff. exists m. split; [reflexivity | exact Hm]. }
    assert (Hle : (eval_terms x (map (fun j => (1%Q, (m, j))) (range (Jobs st)))
                   <= py_max_from r0 rows)%Q).
    { destruct Hin as [<- | Hin]; [exact Hbest | apply Hall, Hin]. }
    rewrite (eval_terms_ones x (fun j => (m, j))) in Hle. unfold f. lra. }
  assert (H1 : (py_sum (map (fun _ : nat => 1%Q) (range (Jobs st)))
                <= py_sum (map (fun j => py_sum (map (fun m => f m j) (range (Mechines st))))
                               (range (Jobs st))))%Q)
    by (apply py_sum_map_le; exact Hcol).
  assert (H2 : (py_sum (map (fun m => py_sum (map (fun j => f m j) (range (Jobs st))))
                            (range (Mechines st)))
                <= py_sum (map (fun _ : nat => bound) (range (Mechines st))))%Q)
    by (apply py_sum_map_le; exact Hrow).
  rewrite (py_sum_swap (fun j m => f m j)) in H1.
  rewrite !py_sum_map_const in *. unfold range in *. rewrite !length_seq in *. lra.
Qed.

Lemma program_needs_bound_above_job_share_witness :
  (inject_Z (Z.of_nat (Jobs (build Q1551)))
   <= inject_Z (Z.of_nat (Mechines (build Q1551))) * 1)%Q.
Proof.
  apply (@program_needs_bound_above_job_share (build Q1551) 1%Q Q1551_problem
           Qidentity [[true; false]; [false; true]]).
  - vm_compute. reflexivity.
  - vm_compute. reflexivity.
Defined.
